(** * Stamp geometry and page-rotation-safe document engine

    A shallow embedding of the TypeScript sources of the stamp application:
    - [renderer/src/lib/coordinate-mapper.ts]  ([screenToPdf], [pdfToScreen]);
    - [main/helpers.ts] (pdf-service)          ([fitFontSize], [applyStamps],
      [mergePdfs], [splitPdf], [drawCurvedText], [convertImageToPdf],
      [sanitizeFileName], [translateFsError]);
    - [renderer/src/lib/stamp-renderer.ts]     ([fitFontSizeCanvas],
      [drawCurvedTextOnCanvas]);
    - [main/config-store.ts]                   (the persisted configuration);
    - the renderer's [App] component           ([recalculateNumbers] and the
      handlers that place stamps and add, reorder, merge, split, remove and
      export pieces);
    - the main process' IPC handlers of ['split-pdf'], ['save-stamp-config'],
      ['save-stamp'], ['delete-stamp'] and the folder choice of
      ['export-all'].

    Conventions of the embedding.
    - A JavaScript [number] that holds a length or a coordinate is an exact
      rational ([Q]); rounding of IEEE doubles is not modelled.  A [number]
      that holds an index or a counter is an integer ([Z]).  The stamp
      counter can be started anywhere by the user: its additions are
      rounded to binary64 ([Binary64.add]).
    - A text (a name, a label) is a Rocq string, one [ascii] per character:
      the texts covered are those of the ASCII range.
    - A thrown exception is the [Err] branch of [result]; [async] functions
      are sequential here, a rejected promise is [Err] as well.
    - pdf-lib is an external library.  Only the part of its interface that
      the sources call is modelled ([PdfLib]), on documents seen as the
      sequence of their pages. *)

From stdpp Require Import gmap list sorting strings.
From Stdlib Require Import Ascii QArith Qminmax Qabs Qround Lqa PrimFloat Uint63.

Open Scope Z_scope.

(** ** Exceptions *)

Inductive error : Type :=
| DocumentLoadError          (* PDFDocument.load on an undecodable buffer *)
| JsException                (* TypeError / range assertion raised by the runtime or pdf-lib *)
| AppError (message : string) (* [throw new Error(message)] of the application *).

Inductive result (A : Type) : Type :=
| Ok (a : A)
| Err (e : error).
Arguments Ok {A} a.
Arguments Err {A} e.

Definition bind {A B} (r : result A) (k : A -> result B) : result B :=
  match r with
  | Ok a => k a
  | Err e => Err e
  end.

Declare Scope result_scope.
Delimit Scope result_scope with result.
Notation "'let*' x ':=' r 'in' k" := (bind r (fun x => k))
  (at level 10, x name, r at level 100, k at level 200) : result_scope.
Notation "'let*' ' p ':=' r 'in' k" := (bind r (fun p => k))
  (at level 10, p pattern, r at level 100, k at level 200) : result_scope.
Open Scope result_scope.

Definition isOk {A} (r : result A) : bool :=
  match r with Ok _ => true | Err _ => false end.

(** [for (const x of xs) ...] over a computation that may throw. *)
Fixpoint mapM {A B} (f : A -> result B) (xs : list A) : result (list B) :=
  match xs with
  | [] => Ok []
  | x :: rest =>
      let* y := f x in
      let* ys := mapM f rest in
      Ok (y :: ys)
  end.

(** ** Numbers that hold integers *)

Module Binary64.

(** A JavaScript number is a binary64 value.  A number that holds an integer
    is modelled by that integer; the integers of magnitude up to [2^53] are
    all binary64 values, beyond that only the multiples of a power of two
    ([ulp]) are.  [roundToNearestEven z] is the binary64 value nearest to the
    integer [z], the one with the even significand in case of a tie (for
    magnitudes below [2^1024], where binary64 ends). *)
Definition roundToNearestEven (z : Z) : Z :=
  let a := Z.abs z in
  if a <? 2 ^ 53 then z
  else
    let ulp := 2 ^ (Z.log2 a - 52) in
    let q := a / ulp in
    let r := a mod ulp in
    let q' := if 2 * r <? ulp then q
              else if ulp <? 2 * r then q + 1
              else if Z.even q then q else q + 1 in
    Z.sgn z * (q' * ulp).

(** [a + b] on numbers that hold integers: the exact sum, rounded. *)
Definition add (a b : Z) : Z := roundToNearestEven (a + b).

(** The integers that are binary64 values. *)
Definition representable (z : Z) : Prop := roundToNearestEven z = z.

(** The binary64 value nearest to an integer of magnitude below [2^63], as
    the primitive conversion computes it; used to replay sample additions
    on primitive floats. *)
Definition toFloat (z : Z) : float :=
  let f := PrimFloat.of_uint63 (Uint63.of_Z (Z.abs z)) in
  if z <? 0 then PrimFloat.opp f else f.

End Binary64.

(** ** coordinate-mapper.ts *)

Module CoordinateMapper.

(** The fields of a [DOMRect] that the mapper reads or that the tests set. *)
Record DOMRect : Type := mkRect {
  left : Q;
  top : Q;
  width : Q;
  height : Q
}.

Record Point : Type := mkPoint { x : Q; y : Q }.

Definition screenToPdf (mouseX mouseY : Q) (containerRect : DOMRect)
    (pdfPageWidth pdfPageHeight displayWidth displayHeight : Q) : Point :=
  let relX := (mouseX - left containerRect)%Q in
  let relY := (mouseY - top containerRect)%Q in
  let normX := (relX / displayWidth)%Q in
  let normY := (relY / displayHeight)%Q in
  {| x := (normX * pdfPageWidth)%Q;
     y := ((1 - normY) * pdfPageHeight)%Q |}.

Definition pdfToScreen (pdfX pdfY : Q)
    (pdfPageWidth pdfPageHeight displayWidth displayHeight : Q) : Point :=
  let normX := (pdfX / pdfPageWidth)%Q in
  let normY := (pdfY / pdfPageHeight)%Q in
  {| x := (normX * displayWidth)%Q;
     y := ((1 - normY) * displayHeight)%Q |}.

(** The composition the round-trip property is about. *)
Definition roundTrip (mouseX mouseY : Q) (containerRect : DOMRect)
    (pdfPageWidth pdfPageHeight displayWidth displayHeight : Q) : Point :=
  let p := screenToPdf mouseX mouseY containerRect
             pdfPageWidth pdfPageHeight displayWidth displayHeight in
  pdfToScreen (x p) (y p) pdfPageWidth pdfPageHeight displayWidth displayHeight.

(** The same arithmetic on IEEE binary64 values, the [number]s that
    JavaScript computes with; used to replay concrete inputs only. *)
Definition screenToPdf64 (mouseX mouseY rectLeft rectTop : float)
    (pdfPageWidth pdfPageHeight displayWidth displayHeight : float) : float * float :=
  let relX := (mouseX - rectLeft)%float in
  let relY := (mouseY - rectTop)%float in
  let normX := (relX / displayWidth)%float in
  let normY := (relY / displayHeight)%float in
  ((normX * pdfPageWidth)%float, ((1 - normY) * pdfPageHeight)%float).

Definition pdfToScreen64 (pdfX pdfY : float)
    (pdfPageWidth pdfPageHeight displayWidth displayHeight : float) : float * float :=
  let normX := (pdfX / pdfPageWidth)%float in
  let normY := (pdfY / pdfPageHeight)%float in
  ((normX * displayWidth)%float, ((1 - normY) * displayHeight)%float).

(** Constants of the mapper's test suite. *)
Definition PDF_W : Q := 595.28.
Definition PDF_H : Q := 841.89.
Definition DISPLAY_W : Q := 700.
Definition DISPLAY_H : Q := 990.
Definition makeRect (l t w h : Q) : DOMRect := mkRect l t w h.

End CoordinateMapper.

(** ** Arc text fitting: [fitFontSize] and [fitFontSizeCanvas] *)

Module ArcTextLayout.

(** The one method of a pdf-lib font that the fit reads. *)
Record PDFFont : Type := mkFont {
  widthOfTextAtSize : ascii -> Q -> Q
}.

(** [Array.from(text)] / [[...text]]. *)
Definition chars (text : string) : list ascii := String.list_ascii_of_string text.

Definition spacingOf (fontSize : Q) : Q := (fontSize * 0.08)%Q.

(** [chars.reduce((sum, c) => sum + width(c), 0) + spacing * (chars.length - 1)] *)
Definition totalWidth (width : ascii -> Q) (cs : list ascii) (fontSize : Q) : Q :=
  (fold_left (fun sum c => sum + width c) cs 0
   + spacingOf fontSize * (inject_Z (Z.of_nat (length cs)) - 1))%Q.

Definition totalAngle (font : PDFFont) (cs : list ascii) (radius fontSize : Q) : Q :=
  (totalWidth (fun c => widthOfTextAtSize font c fontSize) cs fontSize / radius)%Q.

(** The body of the [for] loop, run for the remaining number of attempts.
    The first component is the final value of [fontSize]; the second lists,
    in order, the sizes at which [totalAngle <= maxAngle] was evaluated. *)
Fixpoint fitLoop (font : PDFFont) (cs : list ascii) (radius maxAngle : Q)
    (attempts : nat) (fontSize : Q) : Q * list Q :=
  match attempts with
  | O => (fontSize, [])
  | S remaining =>
      if Qle_bool (totalAngle font cs radius fontSize) maxAngle
      then (fontSize, [fontSize])
      else
        let '(final, tried) :=
          fitLoop font cs radius maxAngle remaining (fontSize * 0.9)%Q in
        (final, fontSize :: tried)
  end.

Definition maxAttempts : nat := 20.

Definition fitFontSize (font : PDFFont) (text : string)
    (maxFontSize radius maxAngle : Q) : Q :=
  fst (fitLoop font (chars text) radius maxAngle maxAttempts maxFontSize).

(** The sizes tried by [fitFontSize], first attempt first. *)
Definition triedSizes (font : PDFFont) (text : string)
    (maxFontSize radius maxAngle : Q) : list Q :=
  snd (fitLoop font (chars text) radius maxAngle maxAttempts maxFontSize).

(** The value of [fontSize] after [k] executions of [fontSize *= 0.9]. *)
Definition shrink (k : nat) (maxFontSize : Q) : Q :=
  Nat.iter k (fun fontSize => fontSize * 0.9)%Q maxFontSize.

(** The canvas variant: the context carries the current font size
    ([ctx.font = `bold ${fontSize}px ...`]) and [measureText] reads it. *)
Record CanvasRenderingContext2D : Type := mkCtx {
  ctxFontSize : Q;
  measureWidth : Q -> ascii -> Q   (* width of a glyph under a given [ctx.font] size *)
}.

Definition setFont (ctx : CanvasRenderingContext2D) (fontSize : Q) :=
  {| ctxFontSize := fontSize; measureWidth := measureWidth ctx |}.

Definition measureText (ctx : CanvasRenderingContext2D) (c : ascii) : Q :=
  measureWidth ctx (ctxFontSize ctx) c.

Fixpoint fitLoopCanvas (ctx : CanvasRenderingContext2D) (cs : list ascii)
    (radius maxAngle : Q) (attempts : nat) (fontSize : Q) : Q :=
  match attempts with
  | O => fontSize
  | S remaining =>
      let ctx := setFont ctx fontSize in
      let total := totalWidth (measureText ctx) cs fontSize in
      let angle := (total / radius)%Q in
      if Qle_bool angle maxAngle then fontSize
      else fitLoopCanvas ctx cs radius maxAngle remaining (fontSize * 0.9)%Q
  end.

Definition fitFontSizeCanvas (ctx : CanvasRenderingContext2D) (text : string)
    (maxFontSize radius maxAngle : Q) : Q :=
  fitLoopCanvas ctx (chars text) radius maxAngle maxAttempts maxFontSize.

(** The pdf-lib font that measures like a given canvas context. *)
Definition fontOfCanvas (ctx : CanvasRenderingContext2D) : PDFFont :=
  {| widthOfTextAtSize := fun c size => measureWidth ctx size c |}.

(** A font whose every glyph is [k] times the font size wide. *)
Definition uniformFont (k : Q) : PDFFont :=
  {| widthOfTextAtSize := fun _ size => (k * size)%Q |}.

End ArcTextLayout.

(** ** Shared data types ([StampConfig], [StampPlacement]) *)

Record StampConfig : Type := mkConfig {
  lawyerName : string;
  bottomText : string;
  radius : Q
}.

Record StampPlacement : Type := mkPlacement {
  pageIndex : Z;
  x : Q;
  y : Q;
  number : Z
}.

(** ** The part of pdf-lib that the PDF service calls *)

Module PdfLib.

(** A page: its media box size, its [/Rotate] flag and what its content
    stream holds, the empty list standing for a page without [/Contents]
    (a page just created by [insertPage] or added by [save], a blank page of
    a file).  [DrawStamp] records one call of [drawStampOnPage] (two circles,
    two curved texts and the centred number); [DrawPage] records
    [page.drawPage(embedded, {x, y, rotate: degrees(rotate)})]. *)
Inductive PDFPage : Type :=
| mkPage (width height : Q) (rotation : Z) (content : list DrawOp)
with DrawOp : Type :=
| DrawStamp (cx cy outerRadius : Q) (name label : string) (stampNumber : Z)
| DrawPage (embedded : PDFPage) (px py : Q) (rotate : Z).

Definition pageWidth (p : PDFPage) : Q := let 'mkPage w _ _ _ := p in w.
Definition pageHeight (p : PDFPage) : Q := let 'mkPage _ h _ _ := p in h.
(** [page.getRotation().angle] *)
Definition getRotation (p : PDFPage) : Z := let 'mkPage _ _ r _ := p in r.
Definition pageContent (p : PDFPage) : list DrawOp := let 'mkPage _ _ _ c := p in c.
(** [page.getSize()] *)
Definition getSize (p : PDFPage) : Q * Q := (pageWidth p, pageHeight p).

Definition drawOn (op : DrawOp) (p : PDFPage) : PDFPage :=
  let 'mkPage w h r c := p in mkPage w h r (c ++ [op]).

(** A loaded document is the sequence of its pages.  A page object handed
    out by [getPage] or [insertPage] is named by its index, which stays
    valid as long as no page is inserted or removed. *)
Abbreviation PDFDocument := (list PDFPage).

(** A byte buffer is kept in decoded form.  A PDF file holds at least one
    page: [save] never writes a page-less file (see below). *)
Inductive Uint8Array : Type :=
| PdfFile (first : PDFPage) (rest : list PDFPage)
| NotPdf.

Definition decode (buffer : Uint8Array) : option (list PDFPage) :=
  match buffer with
  | PdfFile first rest => Some (first :: rest)
  | NotPdf => None
  end.

(** [PDFDocument.load(buffer)] *)
Definition load (buffer : Uint8Array) : result PDFDocument :=
  match decode buffer with
  | Some pages => Ok pages
  | None => Err DocumentLoadError
  end.

(** [PDFDocument.create()] *)
Definition create : PDFDocument := [].

(** [PageSizes.A4], the size of a page added without arguments. *)
Definition defaultPage : PDFPage := mkPage 595.28 841.89 0 [].

(** [doc.save()]: with the default options ([addDefaultPage = true]) a
    document without pages is given one blank page before it is written. *)
Definition save (doc : PDFDocument) : Uint8Array :=
  match doc with
  | [] => PdfFile defaultPage []
  | first :: rest => PdfFile first rest
  end.

Definition getPageCount (doc : PDFDocument) : Z := Z.of_nat (length doc).

(** [doc.getPages()[index]]; [None] is JavaScript's [undefined]. *)
Definition pageAt (doc : PDFDocument) (index : Z) : option PDFPage :=
  if decide (0 <= index) then doc !! Z.to_nat index else None.

(** [doc.getPage(index)] asserts [0 <= index < pageCount]. *)
Definition getPage (doc : PDFDocument) (index : Z) : result PDFPage :=
  match pageAt doc index with
  | Some page => Ok page
  | None => Err JsException
  end.

(** [doc.getPageIndices()] *)
Definition getPageIndices (doc : PDFDocument) : list Z := seqZ 0 (getPageCount doc).

(** [target.copyPages(srcDoc, indices)] reads [srcDoc.getPages()[i].node]
    for each index, which throws on [undefined]. *)
Definition copyPages (srcDoc : PDFDocument) (indices : list Z) : result (list PDFPage) :=
  mapM (getPage srcDoc) indices.

(** [doc.addPage(page)] *)
Definition addPage (doc : PDFDocument) (page : PDFPage) : PDFDocument := doc ++ [page].

(** [doc.removePage(index)] asserts [0 <= index < pageCount]. *)
Definition removePage (doc : PDFDocument) (index : Z) : result PDFDocument :=
  let* _ := getPage doc index in
  Ok (delete (Z.to_nat index) doc).

(** [doc.insertPage(index, [w, h])] asserts [0 <= index <= pageCount] and
    puts a blank, unrotated page of that size at [index]. *)
Definition insertPage (doc : PDFDocument) (index : Z) (size : Q * Q) : result PDFDocument :=
  if decide (0 <= index <= getPageCount doc)
  then Ok (take (Z.to_nat index) doc
           ++ mkPage (fst size) (snd size) 0 [] :: drop (Z.to_nat index) doc)
  else Err JsException.

(** Drawing on the page object that sits at [index]. *)
Definition drawOnPage (doc : PDFDocument) (index : Z) (op : DrawOp) : PDFDocument :=
  alter (drawOn op) (Z.to_nat index) doc.

(** [Array.from({ length }, (_, i) => f(i))]: empty when [length <= 0]. *)
Definition arrayFrom {A} (len : Z) (f : Z -> A) : list A := f <$> seqZ 0 len.

(** [pdfDoc.embedPages([page])]: a page without [/Contents] cannot be
    embedded ([MissingPageContentsEmbeddingError], raised when the embedded
    page is written, at the latest by [save]; the caller throws either
    way). *)
Definition embedPage (page : PDFPage) : result PDFPage :=
  match pageContent page with
  | [] => Err JsException
  | _ :: _ => Ok page
  end.

(** What [pdfDoc.embedFont(StandardFonts.TimesRomanBold)] returns, as far as
    drawing depends on it: the characters that the encoding of the font
    (WinAnsi) has. *)
Record StandardFont : Type := mkStandardFont {
  canEncode : ascii -> bool
}.

(** [font.widthOfTextAtSize(text, size)] and [page.drawText(text, ...)]
    encode the text first, which throws on a character that the encoding
    lacks. *)
Definition encodeText (font : StandardFont) (text : string) : result unit :=
  if forallb (canEncode font) (String.list_ascii_of_string text) then Ok tt
  else Err JsException.

End PdfLib.

(** ** main/helpers.ts: the PDF service *)

Module PdfService.
Import PdfLib.

Definition A4_SHORT : Q := 595.28.

(** [text.toUpperCase()] on ASCII text: the letters [a] to [z] change. *)
Definition upperChar (c : ascii) : ascii :=
  let n := N_of_ascii c in
  if ((97 <=? n) && (n <=? 122))%N then ascii_of_N (n - 32) else c.

Definition toUpperCase (text : string) : string :=
  String.string_of_list_ascii (upperChar <$> String.list_ascii_of_string text).

(** [fitFontSize(boldFont, text, maxFontSize, radius, ...)] followed by
    [drawCurvedText(page, boldFont, text, fontSize, cx, cy, radius, ...)], as
    far as they can throw.  Both measure every character of the text
    ([boldFont.widthOfTextAtSize(c, fontSize)]).  Every glyph is then drawn
    at [cx + radius * Math.cos(currentAngle)] where [currentAngle] was
    divided by [radius]: at radius 0 this position is [NaN], which
    [page.drawText] refuses. *)
Definition curvedText (boldFont : StandardFont) (text : string) (radius : Q)
    : result unit :=
  let* _ := encodeText boldFont text in
  if Qeq_bool radius 0 && negb (String.length text =? 0)%nat then Err JsException
  else Ok tt.

(** [drawStampOnPage(page, pdfDoc, cx, cy, outerRadius, lawyerName, bottomText,
    stampNumber)], [boldFont] being the font that
    [pdfDoc.embedFont(StandardFonts.TimesRomanBold)] returns.  The number is
    written with digits (and a sign), which the encoding has. *)
Definition drawStampOnPage (boldFont : StandardFont) (doc : PDFDocument) (page : Z)
    (cx cy outerRadius : Q) (lawyerName bottomText : string) (stampNumber : Z)
    : result PDFDocument :=
  let innerRadius := (outerRadius * 0.65)%Q in
  let bandCenter := ((outerRadius + innerRadius) / 2)%Q in
  let topText := toUpperCase lawyerName in
  let* _ := curvedText boldFont topText bandCenter in
  let bottomDisplay := toUpperCase bottomText in
  let* _ := curvedText boldFont bottomDisplay bandCenter in
  Ok (drawOnPage doc page
        (DrawStamp cx cy outerRadius lawyerName bottomText stampNumber)).

(** The [Map<number, StampPlacement[]>] built by the grouping loop. *)
Definition groupByPage (placements : list StampPlacement)
    : gmap Z (list StampPlacement) :=
  foldl (fun byPage p =>
           let list := default [] (byPage !! pageIndex p) in
           <[pageIndex p := list ++ [p]]> byPage)
        ∅ placements.

(** [Array.from(placementsByPage.keys()).sort((a, b) => b - a)] *)
Definition sortDescending (keys : list Z) : list Z := merge_sort Z.ge keys.

Definition sortedPageIndicesOf (byPage : gmap Z (list StampPlacement)) : list Z :=
  sortDescending (map_to_list byPage).*1.

(** [sortedPageIndices.some((idx) => pdfDoc.getPage(idx).getRotation().angle !== 0)] *)
Fixpoint hasRotatedPages (pdfDoc : PDFDocument) (indices : list Z) : result bool :=
  match indices with
  | [] => Ok false
  | idx :: rest =>
      let* page := getPage pdfDoc idx in
      if decide (getRotation page <> 0) then Ok true
      else hasRotatedPages pdfDoc rest
  end.

Definition scaledRadiusFor (config : StampConfig) (w h : Q) : Q :=
  (radius config * (Qmin w h / A4_SHORT))%Q.

(** [for (const placement of pagePlacements) await drawStampOnPage(...)] *)
Fixpoint drawStamps (boldFont : StandardFont) (config : StampConfig) (page : Z) (r : Q)
    (pagePlacements : list StampPlacement) (doc : PDFDocument) : result PDFDocument :=
  match pagePlacements with
  | [] => Ok doc
  | placement :: rest =>
      let* doc := drawStampOnPage boldFont doc page (x placement) (y placement) r
                    (lawyerName config) (bottomText config) (number placement) in
      drawStamps boldFont config page r rest doc
  end.

(** The [switch (rotation)] that draws the embedded original. *)
Definition drawEmbedded (doc : PDFDocument) (newPage : Z) (embeddedPage : PDFPage)
    (rotation : Z) (rawW rawH : Q) : PDFDocument :=
  if decide (rotation = 90) then
    drawOnPage doc newPage (DrawPage embeddedPage 0 rawW (-90))
  else if decide (rotation = 180) then
    drawOnPage doc newPage (DrawPage embeddedPage rawW rawH (-180))
  else if decide (rotation = 270) then
    drawOnPage doc newPage (DrawPage embeddedPage rawH 0 90)
  else
    (* non-standard rotation: warn, draw without a transform *)
    drawOnPage doc newPage (DrawPage embeddedPage 0 0 0).

(** One iteration of [for (const pageIndex of sortedPageIndices)]. *)
Definition stampPage (boldFont : StandardFont) (config : StampConfig)
    (byPage : gmap Z (list StampPlacement))
    (srcDoc : option PDFDocument) (pdfDoc : PDFDocument) (pageIndex : Z)
    : result PDFDocument :=
  let pagePlacements := default [] (byPage !! pageIndex) in
  let* page := getPage pdfDoc pageIndex in
  let rotation := getRotation page in
  let '(pageW, pageH) := getSize page in
  let scaledRadius := scaledRadiusFor config pageW pageH in
  if decide (rotation = 0) then
    drawStamps boldFont config pageIndex scaledRadius pagePlacements pdfDoc
  else
    let '(rawW, rawH) := getSize page in
    let isSwapped := bool_decide (rotation = 90 \/ rotation = 270) in
    let visualW := if isSwapped then rawH else rawW in
    let visualH := if isSwapped then rawW else rawH in
    let* srcDoc := match srcDoc with Some d => Ok d | None => Err JsException end in
    let* srcPage := getPage srcDoc pageIndex in
    let* embeddedPage := embedPage srcPage in
    let* pdfDoc := removePage pdfDoc pageIndex in
    let* pdfDoc := insertPage pdfDoc pageIndex (visualW, visualH) in
    let newPage := pageIndex in
    let pdfDoc := drawEmbedded pdfDoc newPage embeddedPage rotation rawW rawH in
    let scaledRadiusRotated := scaledRadiusFor config visualW visualH in
    drawStamps boldFont config newPage scaledRadiusRotated pagePlacements pdfDoc.

Fixpoint stampPages (boldFont : StandardFont) (config : StampConfig)
    (byPage : gmap Z (list StampPlacement))
    (srcDoc : option PDFDocument) (indices : list Z) (pdfDoc : PDFDocument)
    : result PDFDocument :=
  match indices with
  | [] => Ok pdfDoc
  | pageIndex :: rest =>
      let* pdfDoc := stampPage boldFont config byPage srcDoc pdfDoc pageIndex in
      stampPages boldFont config byPage srcDoc rest pdfDoc
  end.

(** [applyStamps(pdfBuffer, placements, config)]; [boldFont] is the font that
    [drawStampOnPage] embeds. *)
Definition applyStamps (boldFont : StandardFont) (pdfBuffer : Uint8Array)
    (placements : list StampPlacement) (config : StampConfig) : result Uint8Array :=
  let* pdfDoc := load pdfBuffer in
  let placementsByPage := groupByPage placements in
  let sortedPageIndices := sortedPageIndicesOf placementsByPage in
  let* rotated := hasRotatedPages pdfDoc sortedPageIndices in
  let* srcDoc := if rotated then (let* d := load pdfBuffer in Ok (Some d)) else Ok None in
  let* pdfDoc :=
    stampPages boldFont config placementsByPage srcDoc sortedPageIndices pdfDoc in
  Ok (save pdfDoc).

(** The document that [drawStamps] returns when no call throws. *)
Definition drawnStamps (config : StampConfig) (page : Z) (r : Q)
    (pagePlacements : list StampPlacement) (doc : PDFDocument) : PDFDocument :=
  foldl (fun d placement =>
           drawOnPage d page
             (DrawStamp (x placement) (y placement) r
                (lawyerName config) (bottomText config) (number placement)))
        doc pagePlacements.

(** The page-level effect of one iteration, stated on its own: what
    [stampPage] leaves at [pageIndex] when it finds [page] there, the
    placements of that page being [pagePlacements] (see [stampPage_spec]). *)
Definition stampOps (config : StampConfig) (r : Q)
    (pagePlacements : list StampPlacement) : list DrawOp :=
  (fun placement =>
     DrawStamp (x placement) (y placement) r
       (lawyerName config) (bottomText config) (number placement))
  <$> pagePlacements.

Definition embeddedOp (page : PDFPage) : DrawOp :=
  let rotation := getRotation page in
  let '(rawW, rawH) := getSize page in
  if decide (rotation = 90) then DrawPage page 0 rawW (-90)
  else if decide (rotation = 180) then DrawPage page rawW rawH (-180)
  else if decide (rotation = 270) then DrawPage page rawH 0 90
  else DrawPage page 0 0 0.

Definition stampedPage (config : StampConfig)
    (pagePlacements : list StampPlacement) (page : PDFPage) : PDFPage :=
  let rotation := getRotation page in
  let '(rawW, rawH) := getSize page in
  if decide (rotation = 0) then
    mkPage rawW rawH 0
      (pageContent page ++ stampOps config (scaledRadiusFor config rawW rawH) pagePlacements)
  else
    let isSwapped := bool_decide (rotation = 90 \/ rotation = 270) in
    let visualW := if isSwapped then rawH else rawW in
    let visualH := if isSwapped then rawW else rawH in
    mkPage visualW visualH 0
      (embeddedOp page
       :: stampOps config (scaledRadiusFor config visualW visualH) pagePlacements).

(** The placements of one page, in the order of the input list. *)
Definition placementsOn (index : Z) (placements : list StampPlacement)
    : list StampPlacement :=
  filter (fun p => pageIndex p = index) placements.

Definition mergePdfs (buffer1 buffer2 : Uint8Array) : result Uint8Array :=
  let* doc1 := load buffer1 in
  let* doc2 := load buffer2 in
  let* pages2 := copyPages doc2 (getPageIndices doc2) in
  let doc1 := foldl addPage doc1 pages2 in
  Ok (save doc1).

Record SplitResult : Type := mkSplit {
  part1 : Uint8Array;
  part2 : Uint8Array
}.

Definition splitPdf (buffer : Uint8Array) (afterPageIndex : Z) : result SplitResult :=
  let* srcDoc := load buffer in
  let totalPages := getPageCount srcDoc in
  let doc1 := create in
  let indices1 := arrayFrom (afterPageIndex + 1) (fun i => i) in
  let* pages1 := copyPages srcDoc indices1 in
  let doc1 := foldl addPage doc1 pages1 in
  let doc2 := create in
  let indices2 :=
    arrayFrom (totalPages - afterPageIndex - 1) (fun i => afterPageIndex + 1 + i) in
  let* pages2 := copyPages srcDoc indices2 in
  let doc2 := foldl addPage doc2 pages2 in
  Ok {| part1 := save doc1; part2 := save doc2 |}.

(** The text of a stamp can be drawn: the font encodes every character of
    the name and of the bottom text, both in upper case. *)
Definition encodable (boldFont : StandardFont) (config : StampConfig) : Prop :=
  Forall (fun c => canEncode boldFont c = true)
         (String.list_ascii_of_string (toUpperCase (lawyerName config)))
  /\ Forall (fun c => canEncode boldFont c = true)
            (String.list_ascii_of_string (toUpperCase (bottomText config))).

(** A page on which a stamp can be put: its sides are positive and, when it
    carries a rotation flag, it has a content stream. *)
Definition stampable (page : PDFPage) : Prop :=
  (0 < pageWidth page)%Q /\ (0 < pageHeight page)%Q
  /\ (getRotation page <> 0 -> pageContent page <> []).

(** Sample data: a font that encodes the printable ASCII characters (as
    TimesRomanBold does, among others). *)
Definition exampleFont : StandardFont :=
  mkStandardFont (fun c => ((32 <=? N_of_ascii c) && (N_of_ascii c <=? 126))%N).

(** Sample data: a landscape scan flagged [/Rotate 90] followed by a plain
    A4 page, one placement on the first page.  The pages are tagged by a
    stamp, which stands for what the file holds on them. *)
Definition scannedPage : PDFPage := mkPage 841.89 595.28 90 [DrawStamp 0 0 1 "" "" 0].
Definition plainPage : PDFPage := mkPage 595.28 841.89 0 [DrawStamp 0 0 1 "" "" 1].
Definition rotatedExample : Uint8Array := PdfFile scannedPage [plainPage].

Definition examplePlacement0 (n : Z) : StampPlacement :=
  {| pageIndex := 0; x := 297; y := 420; number := n |}.
Definition exampleConfig : StampConfig :=
  {| lawyerName := "ME TEST"; bottomText := "AVOCAT"; radius := 65 |}.

(** Sample data: a blank A4 page, tagged by a stamp so that pages differ. *)
Definition blankPage (tag : Z) : PDFPage :=
  mkPage 595.28 841.89 0 [DrawStamp 0 0 1 "" "" tag].

(** The number of pages of a well-formed buffer, [None] for other bytes. *)
Definition pageCountOf (buffer : Uint8Array) : option Z :=
  (fun pages => Z.of_nat (length pages)) <$> decode buffer.

End PdfService.

(** ** The main process: the ['split-pdf'] IPC handler *)

Module Ipc.
Import PdfLib PdfService.

(** [toUint8Array] returns a [Uint8Array] as it is. *)
Definition toUint8Array (buffer : Uint8Array) : Uint8Array := buffer.

Definition splitPdfHandler (buffer : Uint8Array) (afterPageIndex : Z)
    : result SplitResult :=
  if decide (afterPageIndex < 0) then
    Err (AppError "Index de page invalide pour la scission.")
  else
    let pdfBuffer := toUint8Array buffer in
    let* parts := splitPdf pdfBuffer afterPageIndex in
    Ok {| part1 := part1 parts; part2 := part2 parts |}.

End Ipc.

(** ** The renderer: [recalculateNumbers] of the [App] component *)

Module App.
Import PdfLib.

Record PieceDocument : Type := mkPiece {
  id : string;
  fileName : string;
  displayName : option string;
  pdfBuffer : Uint8Array;
  totalPages : Z;
  placements : list StampPlacement
}.

(** [{ ...pl, number: num }] *)
Definition withNumber (pl : StampPlacement) (num : Z) : StampPlacement :=
  {| pageIndex := pageIndex pl; x := x pl; y := y pl; number := num |}.

(** [{ ...piece, placements: newPlacements }] *)
Definition withPlacements (piece : PieceDocument) (newPlacements : list StampPlacement)
    : PieceDocument :=
  {| id := id piece; fileName := fileName piece; displayName := displayName piece;
     pdfBuffer := pdfBuffer piece; totalPages := totalPages piece;
     placements := newPlacements |}.

(** [piece.placements.map((pl) => ({ ...pl, number: num++ }))], with the
    counter [num] of the enclosing function threaded through; [num++] gives
    the old value and adds 1 to the counter, a binary64 addition. *)
Fixpoint numberPlacements (num : Z) (pls : list StampPlacement)
    : list StampPlacement * Z :=
  match pls with
  | [] => ([], num)
  | pl :: rest =>
      let renumbered := withNumber pl num in
      let '(rest', num') := numberPlacements (Binary64.add num 1) rest in
      (renumbered :: rest', num')
  end.

(** [pieces.map((piece) => ...)], same counter. *)
Fixpoint numberPieces (num : Z) (pieces : list PieceDocument)
    : list PieceDocument * Z :=
  match pieces with
  | [] => ([], num)
  | piece :: rest =>
      if decide (length (placements piece) = 0%nat) then
        let '(rest', num') := numberPieces num rest in
        (piece :: rest', num')
      else
        let '(newPlacements, num1) := numberPlacements num (placements piece) in
        let '(rest', num') := numberPieces num1 rest in
        (withPlacements piece newPlacements :: rest', num')
  end.

Definition recalculateNumbers (pieces : list PieceDocument) (start : Z)
    : list PieceDocument :=
  fst (numberPieces start pieces).

(** Two placements that differ at most in their [number]. *)
Definition samePlacementButNumber (pl pl' : StampPlacement) : Prop :=
  pageIndex pl' = pageIndex pl /\ x pl' = x pl /\ y pl' = y pl.

(** Two pieces that differ at most in the numbers of their placements. *)
Definition samePieceButNumbers (piece piece' : PieceDocument) : Prop :=
  id piece' = id piece /\ fileName piece' = fileName piece
  /\ displayName piece' = displayName piece /\ pdfBuffer piece' = pdfBuffer piece
  /\ totalPages piece' = totalPages piece
  /\ Forall2 samePlacementButNumber (placements piece) (placements piece').

(** Sample data. *)
Definition examplePlacement (n : Z) : StampPlacement :=
  {| pageIndex := 0; x := 297; y := 420; number := n |}.
Definition examplePiece (name : string) (pls : list StampPlacement) : PieceDocument :=
  {| id := name; fileName := name; displayName := None;
     pdfBuffer := PdfFile defaultPage []; totalPages := 1; placements := pls |}.

(** The stamp numbers of a list of pieces, piece by piece. *)
Definition numbersOf (pieces : list PieceDocument) : list (list Z) :=
  (fun piece => number <$> placements piece) <$> pieces.

End App.

(** ** main/helpers.ts: file names *)

Module Helpers.

(** A JavaScript string is the list of its UTF-16 code units. *)
Abbreviation JsString := (list N).

(** The code units of an ASCII literal. *)
Definition js (s : string) : JsString := N_of_ascii <$> String.list_ascii_of_string s.

Definition DOT : N := 46.
Definition UNDERSCORE : N := 95.

(** [name.replace(/\.\./g, '_')]: matches are taken from left to right and
    do not overlap. *)
Fixpoint replaceDotDot (name : JsString) : JsString :=
  match name with
  | [] => []
  | c :: rest =>
      match rest with
      | d :: rest' =>
          if (c =? DOT)%N && (d =? DOT)%N then UNDERSCORE :: replaceDotDot rest'
          else c :: replaceDotDot rest
      | [] => [c]
      end
  end.

(** The character class of the second [replace]: the control characters
    [\x00-\x1f] and [<], [>], [:], the double quote, [/], the backslash,
    [|], [?] and [*]. *)
Definition isForbidden (c : N) : bool :=
  (c <=? 31)%N
  || existsb (N.eqb c) [60; 62; 58; 34; 47; 92; 124; 63; 42]%N.

(** The second [replace]: every character of the class becomes ['_']. *)
Definition replaceForbidden (name : JsString) : JsString :=
  (fun c => if isForbidden c then UNDERSCORE else c) <$> name.

Definition sanitizeFileName (name : JsString) : JsString :=
  take 200 (replaceForbidden (replaceDotDot name)).

(** Whether a string contains two dots in a row. *)
Fixpoint containsDotDot (name : JsString) : bool :=
  match name with
  | c :: ((d :: _) as rest) => ((c =? DOT)%N && (d =? DOT)%N) || containsDotDot rest
  | _ => false
  end.

(** The class [[\\/]]. *)
Definition isSeparator (c : N) : bool := (c =? 92)%N || (c =? 47)%N.

(** [path.split(/[\\/]/)]: never empty, one empty segment for the empty
    string. *)
Fixpoint splitPath (path : JsString) : list JsString :=
  match path with
  | [] => [[]]
  | c :: rest =>
      if isSeparator c then [] :: splitPath rest
      else match splitPath rest with
           | segment :: segments => (c :: segment) :: segments
           | [] => [[c]]
           end
  end.

(** [path?.split(/[\\/]/).pop() || fallback], as [translateFsError] computes
    its [fileName] (fallback ['inconnu'], the path may be missing) and as the
    ['open-files'] handler names a picked file (fallback ['document']). *)
Definition fileNameOr (fallback : JsString) (path : option JsString) : JsString :=
  match path with
  | None => fallback
  | Some path =>
      match last (splitPath path) with
      | Some [] | None => fallback
      | Some segment => segment
      end
  end.

End Helpers.

(** ** convertImageToPdf: the page and where the image is drawn *)

Module ImageLayout.

Definition A4_W : Q := 595.28.
Definition A4_H : Q := 841.89.

Record Layout : Type := mkLayout {
  pageW : Q; pageH : Q;           (* [pdfDoc.addPage([pageW, pageH])] *)
  imageX : Q; imageY : Q;         (* [page.drawImage(image, { x, y, ... })] *)
  drawW : Q; drawH : Q            (* [{ ..., width: drawW, height: drawH }] *)
}.

(** The arithmetic of [convertImageToPdf] on the size [imgW x imgH] that
    [image.scale(1)] reports for the embedded image. *)
Definition imageLayout (imgW imgH : Q) : Layout :=
  let isLandscape := negb (Qle_bool imgW imgH) in
  let pageW := if isLandscape then A4_H else A4_W in
  let pageH := if isLandscape then A4_W else A4_H in
  let scale := Qmin (pageW / imgW) (pageH / imgH) in
  let drawW := (imgW * scale)%Q in
  let drawH := (imgH * scale)%Q in
  let x := ((pageW - drawW) / 2)%Q in
  let y := ((pageH - drawH) / 2)%Q in
  {| pageW := pageW; pageH := pageH; imageX := x; imageY := y;
     drawW := drawW; drawH := drawH |}.

End ImageLayout.

(** ** Curved text: the angles at which the glyphs are placed *)

Module CurvedText.
Import ArcTextLayout.

(** One glyph of a curved text: the character, the angle [currentAngle] on
    the circle where its centre is put, and the rotation given to it (in
    radians: [rotRad] for the PDF page, the argument of [ctx.rotate] for the
    canvas).  The positions [cx + radius * cos(angle)], ... are computed from
    these by the trigonometric functions, which are not modelled. *)
Record Glyph : Type := mkGlyph { glyphChar : ascii; glyphAngle : Q; glyphRotation : Q }.

(** [charWidths.reduce((a, b) => a + b, 0) + spacing * (chars.length - 1)] *)
Definition totalWidthOf (charWidths : list Q) (spacing : Q) : Q :=
  (fold_left Qplus charWidths 0
   + spacing * (inject_Z (Z.of_nat (length charWidths)) - 1))%Q.

(** The loop that walks the arc with [currentAngle -= charAngle / 2] before
    and after each glyph; [rotationOf] is the rotation drawn at an angle. *)
Fixpoint sweepDown (rotationOf : Q -> Q) (radius spacing : Q)
    (glyphs : list (ascii * Q)) (currentAngle : Q) : list Glyph :=
  match glyphs with
  | [] => []
  | (c, width) :: rest =>
      let charAngle := ((width + spacing) / radius)%Q in
      let currentAngle := (currentAngle - charAngle / 2)%Q in
      mkGlyph c currentAngle (rotationOf currentAngle)
      :: sweepDown rotationOf radius spacing rest (currentAngle - charAngle / 2)%Q
  end.

(** The same loop with [currentAngle += charAngle / 2]. *)
Fixpoint sweepUp (rotationOf : Q -> Q) (radius spacing : Q)
    (glyphs : list (ascii * Q)) (currentAngle : Q) : list Glyph :=
  match glyphs with
  | [] => []
  | (c, width) :: rest =>
      let charAngle := ((width + spacing) / radius)%Q in
      let currentAngle := (currentAngle + charAngle / 2)%Q in
      mkGlyph c currentAngle (rotationOf currentAngle)
      :: sweepUp rotationOf radius spacing rest (currentAngle + charAngle / 2)%Q
  end.

(** [drawCurvedText] of the PDF service ([PI] stands for [Math.PI]). *)
Definition drawCurvedText (PI : Q) (font : PDFFont) (text : string)
    (fontSize radius : Q) (isTop : bool) : list Glyph :=
  let cs := chars text in
  let charWidths := (fun c => widthOfTextAtSize font c fontSize) <$> cs in
  let spacing := (fontSize * 0.08)%Q in
  let totalWidth := totalWidthOf charWidths spacing in
  let totalAngle := (totalWidth / radius)%Q in
  if isTop then
    sweepDown (fun a => a - PI / 2)%Q radius spacing (zip cs charWidths)
      (PI / 2 + totalAngle / 2)%Q
  else
    sweepUp (fun a => a + PI / 2)%Q radius spacing (zip cs charWidths)
      (- PI / 2 - totalAngle / 2)%Q.

(** [drawCurvedTextOnCanvas] of the stamp renderer. *)
Definition drawCurvedTextOnCanvas (PI : Q) (ctx : CanvasRenderingContext2D)
    (text : string) (radius fontSize : Q) (isTop : bool) : list Glyph :=
  let ctx := setFont ctx fontSize in
  let cs := chars text in
  let charWidths := (fun c => measureText ctx c) <$> cs in
  let spacing := (fontSize * 0.08)%Q in
  let totalWidth := totalWidthOf charWidths spacing in
  let totalAngle := (totalWidth / radius)%Q in
  if isTop then
    sweepUp (fun a => a + PI / 2)%Q radius spacing (zip cs charWidths)
      (- PI / 2 - totalAngle / 2)%Q
  else
    sweepDown (fun a => a - PI / 2)%Q radius spacing (zip cs charWidths)
      (PI / 2 + totalAngle / 2)%Q.

(** The angle [totalWidth / radius] that [drawCurvedText] spreads the text over. *)
Definition drawnAngle (font : PDFFont) (text : string) (fontSize radius : Q) : Q :=
  (totalWidthOf ((fun c => widthOfTextAtSize font c fontSize) <$> chars text)
     (fontSize * 0.08) / radius)%Q.

(** A canvas glyph and a PDF glyph that mirror each other: same character,
    opposite angle, opposite rotation. *)
Definition mirrored (canvas pdf : Glyph) : Prop :=
  glyphChar canvas = glyphChar pdf
  /\ (glyphAngle canvas == - glyphAngle pdf)%Q
  /\ (glyphRotation canvas == - glyphRotation pdf)%Q.

End CurvedText.

(** ** main/config-store.ts: the persisted configuration *)

Module ConfigStore.

Record SavedStamp : Type := mkSavedStamp {
  id : string;
  name : string;
  lawyerName : string;
  bottomText : string
}.

Record StampAppConfig : Type := mkAppConfig {
  cfgLawyerName : string;
  cfgBottomText : string;
  startNumber : Z;
  exportDir : string;
  savedStamps : list SavedStamp;
  activeStampId : option string          (* [string | null] *)
}.

(** [Partial<StampAppConfig>], also what [JSON.parse] yields for the file: a
    field is [None] when the key is absent (or [undefined]).  The keys that
    are present are taken to hold values of the declared types, and keys
    that [StampAppConfig] does not declare are left out. *)
Record PartialConfig : Type := mkPartial {
  pLawyerName : option string;
  pBottomText : option string;
  pStartNumber : option Z;
  pExportDir : option string;
  pSavedStamps : option (list SavedStamp);
  pActiveStampId : option (option string)
}.

Definition emptyPartial : PartialConfig := mkPartial None None None None None None.

(** The file [stamp-config.json]. *)
Inductive ConfigFile : Type :=
| Missing                          (* [existsSync(configPath)] is false *)
| Unreadable                       (* reading or [JSON.parse] throws *)
| Json (parsed : PartialConfig).

(** What the module keeps between calls: the array object
    [defaults.savedStamps] (created empty, shared by every copy
    [{ ...defaults }]), the desktop path put in [defaults.exportDir], and
    the file. *)
Record Store : Type := mkStore {
  defaultStamps : list SavedStamp;
  desktop : string;
  file : ConfigFile
}.

Definition defaults (st : Store) : StampAppConfig :=
  {| cfgLawyerName := ""; cfgBottomText := "AVOCAT"; startNumber := 1;
     exportDir := desktop st; savedStamps := defaultStamps st;
     activeStampId := None |}.

(** [{ ...config, ...partial }], which is also what the loop of [setConfig]
    computes (it skips the values that are [undefined]). *)
Definition spread (config : StampAppConfig) (partial : PartialConfig) : StampAppConfig :=
  {| cfgLawyerName := default (cfgLawyerName config) (pLawyerName partial);
     cfgBottomText := default (cfgBottomText config) (pBottomText partial);
     startNumber := default (startNumber config) (pStartNumber partial);
     exportDir := default (exportDir config) (pExportDir partial);
     savedStamps := default (savedStamps config) (pSavedStamps partial);
     activeStampId := default (activeStampId config) (pActiveStampId partial) |}.

(** [readFromDisk()].  The boolean tells whether the [savedStamps] of the
    result is the array object of [defaults] itself (no file, unreadable
    file, or a file without the key) rather than a freshly parsed array. *)
Definition readFromDisk (st : Store) : StampAppConfig * bool :=
  match file st with
  | Missing | Unreadable => (defaults st, true)
  | Json parsed =>
      (spread (defaults st) parsed,
       match pSavedStamps parsed with None => true | Some _ => false end)
  end.

(** What [JSON.parse] reads back from [JSON.stringify(config)]. *)
Definition stringified (config : StampAppConfig) : PartialConfig :=
  {| pLawyerName := Some (cfgLawyerName config);
     pBottomText := Some (cfgBottomText config);
     pStartNumber := Some (startNumber config);
     pExportDir := Some (exportDir config);
     pSavedStamps := Some (savedStamps config);
     pActiveStampId := Some (activeStampId config) |}.

(** [writeToDisk(config)]; the file system is taken to accept the write. *)
Definition writeToDisk (st : Store) (config : StampAppConfig) : Store :=
  {| defaultStamps := defaultStamps st; desktop := desktop st;
     file := Json (stringified config) |}.

Definition getConfig (st : Store) : StampAppConfig := fst (readFromDisk st).

Definition setConfig (partial : PartialConfig) (st : Store) : Store :=
  let current := fst (readFromDisk st) in
  let updated := spread current partial in
  writeToDisk st updated.

Definition getSavedStamps (st : Store) : list SavedStamp :=
  savedStamps (fst (readFromDisk st)).

(** [stamps.findIndex((s) => s.id === stamp.id)] *)
Definition findIndexById (stampId : string) (stamps : list SavedStamp) : option nat :=
  fst <$> list_find (fun s => id s = stampId) stamps.

Definition saveStamp (stamp : SavedStamp) (st : Store) : Store :=
  let '(config, shared) := readFromDisk st in
  let stamps := savedStamps config in
  let stamps :=
    match findIndexById (id stamp) stamps with
    | Some idx => <[idx := stamp]> stamps       (* [stamps[idx] = stamp] *)
    | None => stamps ++ [stamp]                 (* [stamps.push(stamp)] *)
    end in
  (* the assignment or the push changed the array in place: when that
     array is the one of [defaults], [defaults] sees the change *)
  let st := if shared
            then {| defaultStamps := stamps; desktop := desktop st; file := file st |}
            else st in
  writeToDisk st
    {| cfgLawyerName := cfgLawyerName config; cfgBottomText := cfgBottomText config;
       startNumber := startNumber config; exportDir := exportDir config;
       savedStamps := stamps; activeStampId := activeStampId config |}.

Definition deleteStamp (stampId : string) (st : Store) : Store :=
  let config := fst (readFromDisk st) in
  let stamps := filter (fun s => id s <> stampId) (savedStamps config) in
  let active :=
    if decide (activeStampId config = Some stampId) then None
    else activeStampId config in
  writeToDisk st
    {| cfgLawyerName := cfgLawyerName config; cfgBottomText := cfgBottomText config;
       startNumber := startNumber config; exportDir := exportDir config;
       savedStamps := stamps; activeStampId := active |}.

(** *** The IPC handlers of the main process that write the store *)

(** A value received from the renderer.  Numbers are the finite ones; [NaN]
    and the infinities are not represented. *)
Inductive JsValue : Type :=
| JsString (s : string)
| JsNumber (q : Q)
| JsOther.                               (* undefined, null, booleans, objects *)

(** [s.slice(0, n)] *)
Definition slice0 (n : nat) (s : string) : string := String.substring 0 n s.

(** [typeof v === 'string' ? v.slice(0, n) : fallback] *)
Definition stringOr (n : nat) (fallback : string) (v : JsValue) : string :=
  match v with JsString s => slice0 n s | _ => fallback end.

Record StampConfigMessage : Type := mkConfigMessage {
  msgLawyerName : JsValue;
  msgBottomText : JsValue;
  msgStartNumber : JsValue
}.

(** [ipcMain.handle('save-stamp-config', ...)] *)
Definition saveStampConfigHandler (config : StampConfigMessage) (st : Store) : Store :=
  let lawyerName := stringOr 200 "" (msgLawyerName config) in
  let bottomText := stringOr 200 "AVOCAT" (msgBottomText config) in
  let raw := match msgStartNumber config with JsNumber q => q | _ => 1%Q end in
  let startNumber := Z.max 1 (Z.min 99999 (Qfloor raw)) in
  setConfig
    {| pLawyerName := Some lawyerName; pBottomText := Some bottomText;
       pStartNumber := Some startNumber; pExportDir := None;
       pSavedStamps := None; pActiveStampId := None |}
    st.



(** [ipcMain.handle('delete-stamp', ...)] *)
Definition deleteStampHandler (stampId : JsValue) (st : Store) : Store :=
  match stampId with
  | JsString s => if decide (s = "") then st else deleteStamp s st
  | _ => st
  end.

(** Sample data: a store whose file holds one saved stamp. *)
Definition exampleStore : Store :=
  {| defaultStamps := []; desktop := "D:";
     file := Json {| pLawyerName := Some "ME A"; pBottomText := None;
                     pStartNumber := Some 3; pExportDir := None;
                     pSavedStamps := Some [mkSavedStamp "a" "A" "ME A" "AVOCAT"];
                     pActiveStampId := Some (Some "a") |} |}.

End ConfigStore.

(** ** The renderer: the handlers of the [App] component *)

Module AppHandlers.
Import PdfLib PdfService App.

(** The React state that the handlers read and set. *)
Record AppState : Type := mkAppState {
  pieces : list PieceDocument;
  activePieceId : option string;        (* [string | null] *)
  startNumber : Z;
  nextNumber : Z;
  currentPage : Z
}.

Definition setPieces (st : AppState) (newPieces : list PieceDocument) : AppState :=
  {| pieces := newPieces; activePieceId := activePieceId st;
     startNumber := startNumber st; nextNumber := nextNumber st;
     currentPage := currentPage st |}.

Definition setNextNumber (st : AppState) (n : Z) : AppState :=
  {| pieces := pieces st; activePieceId := activePieceId st;
     startNumber := startNumber st; nextNumber := n; currentPage := currentPage st |}.

Definition setActivePieceId (st : AppState) (active : option string) : AppState :=
  {| pieces := pieces st; activePieceId := active;
     startNumber := startNumber st; nextNumber := nextNumber st;
     currentPage := currentPage st |}.

Definition setCurrentPage (st : AppState) (page : Z) : AppState :=
  {| pieces := pieces st; activePieceId := activePieceId st;
     startNumber := startNumber st; nextNumber := nextNumber st;
     currentPage := page |}.

(** [pieces.reduce((sum, p) => sum + p.placements.length, 0)]: a count of
    objects that exist, far below [2^53], where this sum is exact. *)
Definition countStamps (ps : list PieceDocument) : Z :=
  fold_left (fun sum p => sum + Z.of_nat (length (placements p))) ps 0.

(** The end shared by the handlers that change the pieces:
    [const renumbered = recalculateNumbers(updated, startNumber)],
    [setNextNumber(startNumber + total)], [return renumbered].  The start
    number is whatever the user typed: the sum is a binary64 addition. *)
Definition renumberAll (st : AppState) (updated : list PieceDocument) : AppState :=
  let renumbered := recalculateNumbers updated (startNumber st) in
  let total := countStamps renumbered in
  setPieces (setNextNumber st (Binary64.add (startNumber st) total)) renumbered.

(** [!activePieceId]: [null] and the empty string are falsy. *)
Definition activeId (st : AppState) : option string :=
  match activePieceId st with
  | Some s => if decide (s = "") then None else Some s
  | None => None
  end.

(** [pieces.find((p) => p.id === wanted)] with its index ([findIndex]). *)
Definition findPiece (wanted : string) (ps : list PieceDocument)
    : option (nat * PieceDocument) :=
  list_find (fun p => id p = wanted) ps.

Inductive Direction : Type := up | down.

Definition handleReorderPiece (wanted : string) (direction : Direction)
    (st : AppState) : AppState :=
  let prev := pieces st in
  match findPiece wanted prev with
  | None => st
  | Some (idx, _) =>
      let newIdx := match direction with
                    | up => Z.of_nat idx - 1
                    | down => Z.of_nat idx + 1
                    end in
      if decide (newIdx < 0 \/ newIdx >= Z.of_nat (length prev)) then st
      else
        (* [[copy[idx], copy[newIdx]] = [copy[newIdx], copy[idx]]] *)
        match prev !! idx, prev !! Z.to_nat newIdx with
        | Some a, Some b =>
            renumberAll st (<[Z.to_nat newIdx := a]> (<[idx := b]> prev))
        | _, _ => st
        end
  end.

Definition withTotalPages (p : PieceDocument) (total : Z) : PieceDocument :=
  {| id := id p; fileName := fileName p; displayName := displayName p;
     pdfBuffer := pdfBuffer p; totalPages := total; placements := placements p |}.

Definition withDisplayName (p : PieceDocument) (newName : string) : PieceDocument :=
  {| id := id p; fileName := fileName p; displayName := Some newName;
     pdfBuffer := pdfBuffer p; totalPages := totalPages p; placements := placements p |}.

Definition handleTotalPages (total : Z) (st : AppState) : AppState :=
  match activeId st with
  | None => st
  | Some active =>
      setPieces st
        ((fun p => if decide (id p = active) then withTotalPages p total else p)
         <$> pieces st)
  end.

(** [{ ...pl, x, y }] *)
Definition movedTo (pl : StampPlacement) (newX newY : Q) : StampPlacement :=
  {| pageIndex := pageIndex pl; x := newX; y := newY; number := number pl |}.

(** The function mapped over the pieces by [handlePlaceStamp]. *)
Definition placeOn (active : string) (page : Z) (newX newY : Q)
    (p : PieceDocument) : PieceDocument :=
  if decide (id p <> active) then p
  else
    match list_find (fun pl => pageIndex pl = page) (placements p) with
    | Some _ =>
        withPlacements p
          ((fun pl => if decide (pageIndex pl = page) then movedTo pl newX newY else pl)
           <$> placements p)
    | None =>
        if decide (length (placements p) = 0%nat) then
          withPlacements p
            (placements p
             ++ [{| pageIndex := page; x := newX; y := newY; number := 0 |}])
        else p
    end.

Definition handlePlaceStamp (page : Z) (newX newY : Q) (st : AppState) : AppState :=
  match activeId st with
  | None => st
  | Some active =>
      if decide (page <> 0) then st
      else renumberAll st (placeOn active page newX newY <$> pieces st)
  end.

(** [placements.slice(0, -1)] *)
Definition dropLast {A} (l : list A) : list A := take (length l - 1) l.

Definition handleUndo (st : AppState) : AppState :=
  match activeId st with
  | None => st
  | Some active =>
      renumberAll st
        ((fun p => if decide (id p = active)
                   then withPlacements p (dropLast (placements p)) else p)
         <$> pieces st)
  end.

Definition handleClearStamps (st : AppState) : AppState :=
  match activeId st with
  | None => st
  | Some active =>
      renumberAll st
        ((fun p => if decide (id p = active) then withPlacements p [] else p)
         <$> pieces st)
  end.

(** The piece the navigation reads: [pieces.find(...) || null]. *)
Definition activePiece (st : AppState) : option PieceDocument :=
  match activePieceId st with
  | Some active => snd <$> findPiece active (pieces st)
  | None => None
  end.

Definition handleNextPage (st : AppState) : AppState :=
  match activePiece st with
  | None => st
  | Some piece => setCurrentPage st (Z.min (currentPage st + 1) (totalPages piece))
  end.

Definition handlePrevPage (st : AppState) : AppState :=
  setCurrentPage st (Z.max 1 (currentPage st - 1)).

Definition handleGoToPage (page : Z) (st : AppState) : AppState :=
  match activePiece st with
  | None => st
  | Some piece => setCurrentPage st (Z.max 1 (Z.min page (totalPages piece)))
  end.

Definition handleSelectPiece (wanted : string) (st : AppState) : AppState :=
  setCurrentPage (setActivePieceId st (Some wanted)) 1.

Definition handleRenamePiece (wanted newName : string) (st : AppState) : AppState :=
  setPieces st
    ((fun p => if decide (id p = wanted) then withDisplayName p newName else p)
     <$> pieces st).

Definition handleStartNumberChange (num : Z) (st : AppState) : AppState :=
  {| pieces := pieces st; activePieceId := activePieceId st;
     startNumber := num; nextNumber := num; currentPage := currentPage st |}.

Definition handleRemovePiece (wanted : string) (st : AppState) : AppState :=
  let newList := filter (fun p => id p <> wanted) (pieces st) in
  let st :=
    if decide (activePieceId st = Some wanted) then
      match newList with
      | first :: _ => setCurrentPage (setActivePieceId st (Some (id first))) 1
      | [] => setActivePieceId st None
      end
    else st in
  renumberAll st newList.

(** A file returned by the ['open-files'] dialog, with the id that
    [nextId()] draws for it. *)
Record OpenedFile : Type := mkOpened {
  openedBuffer : Uint8Array;
  openedName : string;
  openedId : string
}.

Definition handleAddFiles (results : list OpenedFile) (st : AppState) : AppState :=
  match results with
  | [] => st
  | firstNew :: _ =>
      let newPieces :=
        (fun r => {| id := openedId r; fileName := openedName r; displayName := None;
                     pdfBuffer := openedBuffer r; totalPages := 0; placements := [] |})
        <$> results in
      let st' := setPieces st (pieces st ++ newPieces) in
      match activeId st with
      | None => setCurrentPage (setActivePieceId st' (Some (openedId firstNew))) 1
      | Some _ => st'
      end
  end.

(** *** Merging and splitting pieces *)

(** [{ ...pl, pageIndex: pl.pageIndex + offset }] *)
Definition shifted (offset : Z) (pl : StampPlacement) : StampPlacement :=
  {| pageIndex := pageIndex pl + offset; x := x pl; y := y pl; number := number pl |}.

(** The [mergedPiece] built by [handleMergePieces]. *)
Definition mergedPieceOf (topPiece bottomPiece : PieceDocument)
    (mergedBuffer : Uint8Array) : PieceDocument :=
  let topPages := totalPages topPiece in
  let adjustedPlacements := shifted topPages <$> placements bottomPiece in
  let mergedPlacements := placements topPiece ++ adjustedPlacements in
  {| id := id topPiece; fileName := fileName topPiece; displayName := None;
     pdfBuffer := mergedBuffer;
     totalPages := totalPages topPiece + totalPages bottomPiece;
     placements := mergedPlacements |}.

Definition handleMergePieces (topId bottomId : string) (st : AppState) : AppState :=
  match findPiece topId (pieces st), findPiece bottomId (pieces st) with
  | Some (topIndex, topPiece), Some (_, bottomPiece) =>
      match mergePdfs (Ipc.toUint8Array (pdfBuffer topPiece))
                      (Ipc.toUint8Array (pdfBuffer bottomPiece)) with
      | Err _ => st                     (* [catch]: an alert, the state is kept *)
      | Ok mergedBuffer =>
          let mergedPiece := mergedPieceOf topPiece bottomPiece mergedBuffer in
          let prev := pieces st in
          let newPieces :=
            filter (fun p => id p <> topId /\ id p <> bottomId) prev in
          (* [newPieces.splice(topIndex, 0, mergedPiece)] *)
          let newPieces := take topIndex newPieces ++ mergedPiece :: drop topIndex newPieces in
          let st := renumberAll st newPieces in
          if decide (activePieceId st = Some topId \/ activePieceId st = Some bottomId)
          then setCurrentPage (setActivePieceId st (Some (id mergedPiece))) 1
          else st
      end
  | _, _ => st
  end.

(** The two pieces built by [handleSplitPiece] from the two parts returned
    by the ['split-pdf'] handler; [newId] is the id drawn by [nextId()]. *)
Definition splitPieceOf (piece : PieceDocument) (afterPageIndex : Z)
    (parts : SplitResult) (newId : string) : PieceDocument * PieceDocument :=
  let placements1 := filter (fun pl => pageIndex pl <= afterPageIndex) (placements piece) in
  let placements2 :=
    shifted (- afterPageIndex - 1)
    <$> filter (fun pl => pageIndex pl > afterPageIndex) (placements piece) in
  ({| id := id piece; fileName := fileName piece; displayName := None;
      pdfBuffer := part1 parts; totalPages := afterPageIndex + 1;
      placements := placements1 |},
   {| id := newId; fileName := String.append (fileName piece) " (suite)";
      displayName := None;
      pdfBuffer := part2 parts; totalPages := totalPages piece - afterPageIndex - 1;
      placements := placements2 |}).

Definition handleSplitPiece (pieceId : string) (afterPageIndex : Z) (newId : string)
    (st : AppState) : AppState :=
  match findPiece pieceId (pieces st) with
  | None => st
  | Some (idx, piece) =>
      match Ipc.splitPdfHandler (pdfBuffer piece) afterPageIndex with
      | Err _ => st                     (* [catch]: an alert, the state is kept *)
      | Ok parts =>
          let '(piece1, piece2) := splitPieceOf piece afterPageIndex parts newId in
          let prev := pieces st in
          (* [newPieces.splice(idx, 1, piece1, piece2)] *)
          let newPieces := take idx prev ++ piece1 :: piece2 :: drop (S idx) prev in
          let st := renumberAll st newPieces in
          if decide (activePieceId st = Some pieceId)
          then setCurrentPage (setActivePieceId st (Some (id piece1))) 1
          else st
      end
  end.

(** *** The handlers as the transitions of one state machine

    Each handler is taken to run to its end before the next one starts: the
    [await]s of [handleAddFiles], [handleMergePieces] and [handleSplitPiece]
    are not interleaved with other handlers, and the state updates queued by
    one handler are applied together. *)

Inductive Action : Type :=
| AddFiles (results : list OpenedFile)
| SelectPiece (wanted : string)
| ReorderPiece (wanted : string) (direction : Direction)
| TotalPages (total : Z)
| PlaceStamp (page : Z) (newX newY : Q)
| Undo
| ClearStamps
| NextPage
| PrevPage
| GoToPage (page : Z)
| MergePieces (topId bottomId : string)
| SplitPiece (pieceId : string) (afterPageIndex : Z) (newId : string)
| RenamePiece (wanted newName : string)
| StartNumberChange (num : Z)
| RemovePiece (wanted : string).

Definition step (a : Action) (st : AppState) : AppState :=
  match a with
  | AddFiles results => handleAddFiles results st
  | SelectPiece wanted => handleSelectPiece wanted st
  | ReorderPiece wanted direction => handleReorderPiece wanted direction st
  | TotalPages total => handleTotalPages total st
  | PlaceStamp page newX newY => handlePlaceStamp page newX newY st
  | Undo => handleUndo st
  | ClearStamps => handleClearStamps st
  | NextPage => handleNextPage st
  | PrevPage => handlePrevPage st
  | GoToPage page => handleGoToPage page st
  | MergePieces topId bottomId => handleMergePieces topId bottomId st
  | SplitPiece pieceId afterPageIndex newId =>
      handleSplitPiece pieceId afterPageIndex newId st
  | RenamePiece wanted newName => handleRenamePiece wanted newName st
  | StartNumberChange num => handleStartNumberChange num st
  | RemovePiece wanted => handleRemovePiece wanted st
  end.

(** The state in which the component starts. *)
Definition initialState : AppState :=
  {| pieces := []; activePieceId := None; startNumber := 1; nextNumber := 1;
     currentPage := 1 |}.

(** The stamp numbers are the consecutive integers from [startNumber] on, in
    the order of the pieces, and [nextNumber] is the first unused one. *)
Definition wellNumbered (st : AppState) : Prop :=
  concat (numbersOf (pieces st))
  = seqZ (startNumber st) (Z.of_nat (length (concat (placements <$> pieces st))))
  /\ nextNumber st
     = startNumber st + Z.of_nat (length (concat (placements <$> pieces st))).

(** Every number that the state holds is a binary64 value, as every number
    of the program is. *)
Definition representableState (st : AppState) : Prop :=
  Binary64.representable (startNumber st)
  /\ Binary64.representable (nextNumber st)
  /\ Forall Binary64.representable (concat (numbersOf (pieces st))).

(** The number of stamps of a state. *)
Definition stampCount (st : AppState) : Z :=
  Z.of_nat (length (concat (placements <$> pieces st))).

(** A piece carries at most one placement, on its first page. *)
Definition atMostOneOnFirstPage (p : PieceDocument) : Prop :=
  (length (placements p) <= 1)%nat /\ Forall (fun pl => pageIndex pl = 0) (placements p).

Definition oneStampOnFirstPage (st : AppState) : Prop :=
  Forall atMostOneOnFirstPage (pieces st).

(** Placement [pl'] of a piece with pages [D'] sits at the same spot of the
    same page as placement [pl] of a piece with pages [D]. *)
Definition onSamePage (D D' : list PDFPage) (pl pl' : StampPlacement) : Prop :=
  x pl' = x pl /\ y pl' = y pl
  /\ pageAt D' (pageIndex pl') = pageAt D (pageIndex pl).

(** Sample data: two one-page pieces, stamped 1 and 2. *)
Definition exampleState : AppState :=
  {| pieces := [examplePiece "a" [examplePlacement 1];
                examplePiece "b" [examplePlacement 2]];
     activePieceId := Some "a"; startNumber := 1; nextNumber := 3; currentPage := 1 |}.

(** Sample data: one piece of three pages, stamped on the first and on
    the last page. *)
Definition exampleLongPiece : PieceDocument :=
  {| id := "a"; fileName := "a.pdf"; displayName := None;
     pdfBuffer := PdfFile (blankPage 1) [blankPage 2; blankPage 3];
     totalPages := 3;
     placements := [{| pageIndex := 0; x := 100; y := 200; number := 1 |};
                    {| pageIndex := 2; x := 300; y := 400; number := 2 |}] |}.

Definition exampleLongState : AppState :=
  {| pieces := [exampleLongPiece]; activePieceId := Some "a";
     startNumber := 1; nextNumber := 3; currentPage := 1 |}.

End AppHandlers.


(** ** Export: the piece numbers and the export folder *)

Module ExportAll.
Import PdfLib App AppHandlers.

(** One entry of the [exportPieces] array that [handleExportAll] sends to
    the ['export-all'] handler (fields [buffer], [placements],
    [pieceNumber], [fileName]). *)
Record ExportPiece : Type := mkExportPiece {
  buffer : Uint8Array;
  piecePlacements : list StampPlacement;
  pieceNumber : Z;
  pieceFileName : string
}.

(** [pieces.map((p, index) => ({ buffer: p.pdfBuffer, placements:
    p.placements, pieceNumber: startNumber + index, fileName: p.fileName }))].
    The sum is written exactly: where it is read below, every piece carries
    one stamp and [startNumber + index] is the number of a stamp of the
    state, a value that the program holds. *)
Definition exportPieces (st : AppState) : list ExportPiece :=
  imap (fun index p =>
          {| buffer := pdfBuffer p; piecePlacements := placements p;
             pieceNumber := startNumber st + Z.of_nat index;
             pieceFileName := fileName p |})
       (pieces st).

(** The folders that the ['export-all'] handler probes: [finalDir], the
    dated folder, and [finalDir] followed by [_] and a suffix. *)
Inductive ExportFolder : Type :=
| Dated
| DatedSuffix (suffix : Z).

(** [while (existsSync(`${finalDir}_${suffix}`) && suffix < 1000) suffix++].
    The body runs at most [1000 - suffix] times, which is the fuel given by
    [finalDirOf]. *)
Fixpoint suffixLoop (existsSync : ExportFolder -> bool) (fuel : nat) (suffix : Z) : Z :=
  match fuel with
  | O => suffix
  | S fuel' =>
      if existsSync (DatedSuffix suffix) && bool_decide (suffix < 1000)
      then suffixLoop existsSync fuel' (suffix + 1)
      else suffix
  end.

(** The folder the export is renamed to. *)
Definition finalDirOf (existsSync : ExportFolder -> bool) : ExportFolder :=
  if existsSync Dated
  then DatedSuffix (suffixLoop existsSync (Z.to_nat (1000 - 2)) 2)
  else Dated.

(** Sample data: the dated folder and its variant [_2] exist already. *)
Definition exampleFolders (folder : ExportFolder) : bool :=
  match folder with
  | Dated => true
  | DatedSuffix suffix => bool_decide (suffix = 2)
  end.

End ExportAll.
(** * Properties *)

(** ** CoordinateMapper *)

Section CoordinateMapperFacts.
Import CoordinateMapper.
Local Open Scope Q_scope.

Lemma screenToPdf_pdfToScreen_x (mouseX left pw dw : Q) :
  ~ pw == 0 -> ~ dw == 0 ->
  (mouseX - left) / dw * pw / pw * dw == mouseX - left.
Proof. intros Hpw Hdw. field. split; assumption. Qed.

Lemma screenToPdf_pdfToScreen_y (mouseY top ph dh : Q) :
  ~ ph == 0 -> ~ dh == 0 ->
  (1 - (1 - (mouseY - top) / dh) * ph / ph) * dh == mouseY - top.
Proof. intros Hph Hdh. field. split; assumption. Qed.

Lemma Qabs_of_Qeq (a b : Q) : a == b -> Qabs (a - b) <= 0.1.
Proof.
  intros E. assert (Z : a - b == 0) by (rewrite E; ring).
  rewrite Z. vm_compute. discriminate.
Qed.

Lemma Qpos_nonzero (a : Q) : 0 < a -> ~ a == 0.
Proof. intros H E. rewrite E in H. exact (Qlt_irrefl 0 H). Qed.

(** The tests of the mapper: corners and centre of a display rectangle at
    [(100, 50)] map to the corners and centre of the page. *)
Example screenToPdf_boundary :
  let rect := makeRect 100 50 DISPLAY_W DISPLAY_H in
  let tl := screenToPdf 100 50 rect PDF_W PDF_H DISPLAY_W DISPLAY_H in
  let br := screenToPdf 800 1040 rect PDF_W PDF_H DISPLAY_W DISPLAY_H in
  let c := screenToPdf 450 545 rect PDF_W PDF_H DISPLAY_W DISPLAY_H in
  (x tl == 0 /\ y tl == 841.89) /\ (x br == 595.28 /\ y br == 0)
  /\ (x c == 297.64 /\ y c == 420.945).
Proof. vm_compute. repeat split. Qed.

(** C1, as amended.  For positive page and display dimensions,
    [pdfToScreen (screenToPdf p)] is the pointer position [p] taken
    relative to the top-left corner of [containerRect], that is
    [(p.x - containerRect.left, p.y - containerRect.top)]; the equality is
    exact in rational arithmetic, hence within the tolerance of 0.1, and the
    result is [p] itself when the container sits at the origin. *)
Theorem roundTrip_relative_to_container
    (mouseX mouseY : Q) (containerRect : DOMRect)
    (pdfPageWidth pdfPageHeight displayWidth displayHeight : Q) :
  0 < pdfPageWidth -> 0 < pdfPageHeight ->
  0 < displayWidth -> 0 < displayHeight ->
  let back := roundTrip mouseX mouseY containerRect
                pdfPageWidth pdfPageHeight displayWidth displayHeight in
  (x back == mouseX - left containerRect /\ y back == mouseY - top containerRect)
  /\ (Qabs (x back - (mouseX - left containerRect)) <= 0.1
      /\ Qabs (y back - (mouseY - top containerRect)) <= 0.1)
  /\ (left containerRect == 0 -> top containerRect == 0 ->
      x back == mouseX /\ y back == mouseY).
Proof.
  intros Hpw Hph Hdw Hdh back.
  apply Qpos_nonzero in Hpw, Hph, Hdw, Hdh.
  assert (Hx : x back == mouseX - left containerRect)
    by (apply screenToPdf_pdfToScreen_x; assumption).
  assert (Hy : y back == mouseY - top containerRect)
    by (apply screenToPdf_pdfToScreen_y; assumption).
  split; [split; assumption|].
  split; [split; apply Qabs_of_Qeq; assumption|].
  intros Hl Ht. rewrite Hx, Hy, Hl, Ht. split; ring.
Qed.

Lemma roundTrip_relative_to_container_witness :
  let back := roundTrip 200 300 (makeRect 100 50 DISPLAY_W DISPLAY_H)
                PDF_W PDF_H DISPLAY_W DISPLAY_H in
  x back == 100 /\ y back == 250.
Proof.
  refine (proj1 (roundTrip_relative_to_container 200 300
            (makeRect 100 50 DISPLAY_W DISPLAY_H)
            PDF_W PDF_H DISPLAY_W DISPLAY_H _ _ _ _));
    vm_compute; reflexivity.
Defined.

(** C1 as stated fails when the container is not at the origin: a click on
    the top-left corner of a container placed at [(100, 50)] comes back as
    [(0, 0)], which is 100 units away from the pointer position. *)
Lemma roundTrip_counterexample :
  let rect := makeRect 100 50 DISPLAY_W DISPLAY_H in
  let back := roundTrip 100 50 rect PDF_W PDF_H DISPLAY_W DISPLAY_H in
  (0 < PDF_W /\ 0 < PDF_H /\ 0 < DISPLAY_W /\ 0 < DISPLAY_H
   /\ width rect == DISPLAY_W /\ height rect == DISPLAY_H)
  /\ x back == 0 /\ y back == 0
  /\ ~ (Qabs (x back - 100) <= 0.1 /\ Qabs (y back - 50) <= 0.1).
Proof.
  vm_compute. repeat split; try discriminate.
  intros [H _]. apply H. reflexivity.
Qed.

(** The same input replayed on binary64 values: every operation is exact
    there, and the result is [(0, 0)] as well. *)
Example roundTrip_binary64_replay :
  let p := screenToPdf64 100 50 100 50 595.28 841.89 700 990 in
  pdfToScreen64 (fst p) (snd p) 595.28 841.89 700 990 = (0%float, 0%float).
Proof. vm_compute. reflexivity. Qed.

End CoordinateMapperFacts.

(** ** ArcTextLayout *)

Section ArcTextLayoutFacts.
Import ArcTextLayout.
Local Open Scope Q_scope.

Lemma shrink_S_inside (k : nat) (s : Q) : shrink k (s * 0.9) = shrink (S k) s.
Proof. induction k as [|k IH]; [reflexivity|]. simpl. now rewrite IH. Qed.

Lemma shrink_nonneg (k : nat) (s : Q) : 0 <= s -> 0 <= shrink k s.
Proof.
  intros Hs. induction k as [|k IH]; [exact Hs|].
  simpl. apply Qmult_le_0_compat; [exact IH | discriminate].
Qed.

Lemma shrink_step_le (s : Q) : 0 <= s -> s * 0.9 <= s.
Proof. intros Hs. lra. Qed.

Lemma shrink_antitone (i j : nat) (s : Q) :
  0 <= s -> (i <= j)%nat -> shrink j s <= shrink i s.
Proof.
  intros Hs Hij. induction Hij as [|j Hij IH]; [apply Qle_refl|].
  apply Qle_trans with (shrink j s); [|exact IH].
  simpl. apply shrink_step_le, shrink_nonneg, Hs.
Qed.

(** What the loop does, for any number of remaining attempts: it shrinks
    [k] times, after [k] failed checks, and stops either on a passed check
    or because the attempts are used up. *)
Lemma fitLoop_spec (font : PDFFont) (cs : list ascii) (radius maxAngle : Q)
    (n : nat) (s : Q) :
  exists k : nat,
    (k <= n)%nat
    /\ fst (fitLoop font cs radius maxAngle n s) = shrink k s
    /\ snd (fitLoop font cs radius maxAngle n s)
       = map (fun i => shrink i s) (seq 0 (Nat.min (S k) n))
    /\ (forall i, (i < k)%nat ->
          Qle_bool (totalAngle font cs radius (shrink i s)) maxAngle = false)
    /\ ((k < n)%nat ->
          Qle_bool (totalAngle font cs radius (shrink k s)) maxAngle = true).
Proof.
  revert s. induction n as [|n IH]; intros s.
  - exists 0%nat. repeat split; try reflexivity; intros; lia.
  - simpl. destruct (Qle_bool (totalAngle font cs radius s) maxAngle) eqn:Hc.
    + exists 0%nat. simpl. repeat split; try lia; try reflexivity.
      intros _. exact Hc.
    + destruct (IH (s * 0.9)) as (k & Hk & Hf & Ht & Hfail & Hpass).
      destruct (fitLoop font cs radius maxAngle n (s * 0.9)) as [final tried].
      simpl in *. exists (S k). split; [lia|].
      split; [rewrite Hf; apply shrink_S_inside|].
      split.
      * rewrite Ht. f_equal. rewrite <- seq_shift, map_map.
        apply map_ext. intros i. apply shrink_S_inside.
      * split.
        -- intros [|i] Hi; [exact Hc|].
           rewrite <- shrink_S_inside. apply Hfail. lia.
        -- intros Hlt. rewrite <- shrink_S_inside. apply Hpass. lia.
Qed.

End ArcTextLayoutFacts.

Section ArcTextLayoutClaims.
Import ArcTextLayout.
Local Open Scope Q_scope.

Lemma Qle_bool_false (a b : Q) : Qle_bool a b = false <-> b < a.
Proof.
  split.
  - intros H. apply Qnot_le_lt. intros Hle.
    apply Qle_bool_iff in Hle. congruence.
  - intros H. destruct (Qle_bool a b) eqn:E; [|reflexivity].
    apply Qle_bool_iff in E. exfalso. exact (Qlt_not_le _ _ H E).
Qed.

(** The canvas variant computes the same size as [fitFontSize] does with a
    font that measures like the canvas context. *)
Lemma fitLoopCanvas_fitLoop (ctx : CanvasRenderingContext2D) (cs : list ascii)
    (radius maxAngle : Q) (n : nat) (s : Q) :
  fitLoopCanvas ctx cs radius maxAngle n s
  = fst (fitLoop (fontOfCanvas ctx) cs radius maxAngle n s).
Proof.
  revert ctx s. induction n as [|n IH]; intros ctx s; [reflexivity|].
  simpl. change (totalWidth (measureText (setFont ctx s)) cs s / radius)
    with (totalAngle (fontOfCanvas ctx) cs radius s).
  destruct (Qle_bool (totalAngle (fontOfCanvas ctx) cs radius s) maxAngle);
    [reflexivity|].
  rewrite IH. change (fontOfCanvas (setFont ctx s)) with (fontOfCanvas ctx).
  destruct (fitLoop (fontOfCanvas ctx) cs radius maxAngle n (s * 0.9)).
  reflexivity.
Qed.

Lemma fitFontSizeCanvas_fitFontSize (ctx : CanvasRenderingContext2D) (text : string)
    (maxFontSize radius maxAngle : Q) :
  fitFontSizeCanvas ctx text maxFontSize radius maxAngle
  = fitFontSize (fontOfCanvas ctx) text maxFontSize radius maxAngle.
Proof. apply fitLoopCanvas_fitLoop. Qed.

(** C5, as amended.  [fitFontSize] starts at [maxFontSize] and multiplies
    the size by 0.9 after each check whose total angular width exceeds
    [maxAngle]; it performs at most 20 checks, at the sizes
    [maxFontSize * 0.9^i], and returns [maxFontSize * 0.9^k] where [k <= 20]
    is the number of failed checks.  When [k < 20] the returned size is the
    last tried one and it passed the check; when all 20 checks fail the
    returned size is 0.9 times the last tried one.  The sizes are
    non-increasing and the result never exceeds [maxFontSize]. *)
Theorem fitFontSize_shrinks (font : PDFFont) (text : string)
    (maxFontSize radius maxAngle : Q) :
  0 < maxFontSize -> 0 < radius ->
  exists k : nat,
    (k <= 20)%nat
    /\ fitFontSize font text maxFontSize radius maxAngle = shrink k maxFontSize
    /\ triedSizes font text maxFontSize radius maxAngle
       = map (fun i => shrink i maxFontSize) (seq 0 (Nat.min (S k) 20))
    /\ (forall i, (i < k)%nat ->
          maxAngle < totalAngle font (chars text) radius (shrink i maxFontSize))
    /\ ((k < 20)%nat ->
          totalAngle font (chars text) radius
            (fitFontSize font text maxFontSize radius maxAngle) <= maxAngle
          /\ last (triedSizes font text maxFontSize radius maxAngle)
             = Some (fitFontSize font text maxFontSize radius maxAngle))
    /\ (k = 20%nat ->
          exists lastTried,
            last (triedSizes font text maxFontSize radius maxAngle) = Some lastTried
            /\ fitFontSize font text maxFontSize radius maxAngle = lastTried * 0.9)
    /\ (forall i j, (i <= j)%nat -> shrink j maxFontSize <= shrink i maxFontSize)
    /\ fitFontSize font text maxFontSize radius maxAngle <= maxFontSize.
Proof.
  intros HM _. assert (HM0 : 0 <= maxFontSize) by (apply Qlt_le_weak, HM).
  unfold fitFontSize, triedSizes.
  destruct (fitLoop_spec font (chars text) radius maxAngle maxAttempts maxFontSize)
    as (k & Hk & Hf & Ht & Hfail & Hpass).
  change maxAttempts with 20%nat in *.
  exists k. split; [exact Hk|]. split; [exact Hf|]. split; [exact Ht|].
  split; [intros i Hi; apply Qle_bool_false, Hfail, Hi|].
  split; [|split; [|split]].
  - intros Hlt. split.
    + rewrite Hf. apply Qle_bool_iff, Hpass, Hlt.
    + rewrite Ht, Hf. replace (Nat.min (S k) 20) with (S k) by lia.
      rewrite seq_S, map_app. simpl. apply last_snoc.
  - intros ->. rewrite Ht, Hf. exists (shrink 19 maxFontSize).
    split; reflexivity.
  - intros i j Hij. apply shrink_antitone; assumption.
  - rewrite Hf. apply (shrink_antitone 0 k); [assumption | lia].
Qed.

Lemma fitFontSize_shrinks_witness :
  exists k : nat,
    (k <= 20)%nat
    /\ fitFontSize (uniformFont 0.5) "AB" 12 40 1.4 = shrink k 12.
Proof.
  destruct (fitFontSize_shrinks (uniformFont 0.5) "AB" 12 40 1.4)
    as (k & Hk & Hf & _); [reflexivity | reflexivity |].
  exists k. split; assumption.
Defined.

(** C5 as stated fails when no attempt fits: with one glyph as wide as the
    font size, radius 1 and a zero angular span, all 20 checks fail and the
    returned size, [10 * 0.9^20], is none of the 20 sizes that were tried. *)
Lemma fitFontSize_untried_counterexample :
  let font := uniformFont 1 in
  let result := fitFontSize font "A" 10 1 0 in
  let tried := triedSizes font "A" 10 1 0 in
  length tried = 20%nat
  /\ result == shrink 20 10
  /\ Forall (fun s => ~ s == result) tried.
Proof.
  split; [reflexivity|]. split; [reflexivity|].
  let t := eval vm_compute in (triedSizes (uniformFont 1) "A" 10 1 0) in
  change (triedSizes (uniformFont 1) "A" 10 1 0) with t.
  repeat constructor; intros H; vm_compute in H; discriminate.
Qed.

Lemma fitLoop_pass (font : PDFFont) (cs : list ascii) (radius maxAngle : Q)
    (n : nat) (s : Q) :
  Qle_bool (totalAngle font cs radius s) maxAngle = true ->
  fitLoop font cs radius maxAngle (S n) s = (s, [s]).
Proof. intros H. simpl. rewrite H. reflexivity. Qed.

(** C10.  For the empty string and a positive [maxFontSize], the total
    width is [spacing * (0 - 1)], which is negative, so for every positive
    radius and every non-negative [maxAngle] the first check passes and
    [fitFontSize] returns exactly [maxFontSize]. *)
Theorem fitFontSize_empty (font : PDFFont) (maxFontSize radius maxAngle : Q) :
  0 < maxFontSize -> 0 < radius -> 0 <= maxAngle ->
  totalWidth (fun c => widthOfTextAtSize font c maxFontSize) (chars "") maxFontSize
    == spacingOf maxFontSize * (0 - 1)
  /\ totalWidth (fun c => widthOfTextAtSize font c maxFontSize) (chars "") maxFontSize < 0
  /\ fitFontSize font "" maxFontSize radius maxAngle = maxFontSize
  /\ triedSizes font "" maxFontSize radius maxAngle = [maxFontSize].
Proof.
  intros HM Hr HA.
  assert (Hw : totalWidth (fun c => widthOfTextAtSize font c maxFontSize)
                 (chars "") maxFontSize == spacingOf maxFontSize * (0 - 1)).
  { unfold totalWidth, spacingOf. simpl. ring. }
  assert (Hneg : totalWidth (fun c => widthOfTextAtSize font c maxFontSize)
                 (chars "") maxFontSize < 0).
  { rewrite Hw. unfold spacingOf. lra. }
  assert (Hc : Qle_bool (totalAngle font (chars "") radius maxFontSize) maxAngle = true).
  { apply Qle_bool_iff. unfold totalAngle.
    apply Qle_trans with 0; [|exact HA].
    apply Qle_shift_div_r; [exact Hr|].
    rewrite Qmult_0_l. apply Qlt_le_weak, Hneg. }
  split; [exact Hw|]. split; [exact Hneg|].
  unfold fitFontSize, triedSizes. change maxAttempts with 20%nat.
  rewrite (fitLoop_pass _ _ _ _ _ _ Hc). split; reflexivity.
Qed.

Lemma fitFontSize_empty_witness :
  fitFontSize (uniformFont 0.5) "" 12 40 0 = 12.
Proof.
  apply (fitFontSize_empty (uniformFont 0.5) 12 40 0); reflexivity || discriminate.
Defined.

End ArcTextLayoutClaims.

Section ArcFitMonotonicity.
Import ArcTextLayout.
Local Open Scope Q_scope.

Lemma chars_append (text ext : string) :
  chars (String.append text ext) = chars text ++ chars ext.
Proof.
  unfold chars. induction text as [|c text IH]; [reflexivity|].
  simpl. now rewrite IH.
Qed.

Lemma fitLoop_le_start (font : PDFFont) (cs : list ascii) (radius maxAngle : Q)
    (n : nat) (s : Q) :
  0 <= s -> fst (fitLoop font cs radius maxAngle n s) <= s.
Proof.
  intros Hs.
  destruct (fitLoop_spec font cs radius maxAngle n s) as (k & _ & -> & _).
  apply (shrink_antitone 0 k); [exact Hs | lia].
Qed.

Section NonNegativeWidths.
Variable f : ascii -> Q.
Hypothesis f_nonneg : forall c, 0 <= f c.

Lemma reduce_sum_ge (cs : list ascii) (a b : Q) :
  a <= b -> a <= fold_left (fun sum c => sum + f c) cs b.
Proof.
  revert a b. induction cs as [|c cs IH]; intros a b Hab; [exact Hab|].
  simpl. apply IH. specialize (f_nonneg c). lra.
Qed.

Lemma reduce_sum_app_ge (cs ext : list ascii) :
  fold_left (fun sum c => sum + f c) cs 0
  <= fold_left (fun sum c => sum + f c) (cs ++ ext) 0.
Proof. rewrite fold_left_app. apply reduce_sum_ge, Qle_refl. Qed.

Lemma totalWidth_app_ge (cs ext : list ascii) (s : Q) :
  0 <= s -> totalWidth f cs s <= totalWidth f (cs ++ ext) s.
Proof.
  intros Hs. unfold totalWidth, spacingOf.
  pose proof (reduce_sum_app_ge cs ext) as Hsum.
  assert (Hlen : inject_Z (Z.of_nat (length cs))
                 <= inject_Z (Z.of_nat (length (cs ++ ext)))).
  { rewrite <- Zle_Qle, length_app. lia. }
  nra.
Qed.
End NonNegativeWidths.

Section LinearFont.
Variable font : PDFFont.
Variable w : ascii -> Q.
Hypothesis w_nonneg : forall c, 0 <= w c.
Hypothesis width_linear : forall c size, widthOfTextAtSize font c size == w c * size.
Variables radius maxAngle : Q.
Hypothesis radius_pos : 0 < radius.

Lemma width_nonneg (s : Q) (c : ascii) : 0 <= s -> 0 <= widthOfTextAtSize font c s.
Proof.
  intros Hs. rewrite width_linear. apply Qmult_le_0_compat; [apply w_nonneg | exact Hs].
Qed.

Lemma totalAngle_app_ge (cs ext : list ascii) (s : Q) :
  0 <= s -> totalAngle font cs radius s <= totalAngle font (cs ++ ext) radius s.
Proof.
  intros Hs. unfold totalAngle, Qdiv.
  apply Qmult_le_compat_r.
  - apply totalWidth_app_ge; [|exact Hs]. intros c. apply width_nonneg, Hs.
  - apply Qinv_le_0_compat, Qlt_le_weak, radius_pos.
Qed.

Lemma fitLoop_app_le (cs ext : list ascii) (n : nat) (s : Q) :
  0 <= s ->
  fst (fitLoop font (cs ++ ext) radius maxAngle n s)
  <= fst (fitLoop font cs radius maxAngle n s).
Proof.
  revert s. induction n as [|n IH]; intros s Hs; [apply Qle_refl|].
  assert (Hs' : 0 <= s * 0.9) by lra.
  simpl.
  destruct (Qle_bool (totalAngle font (cs ++ ext) radius s) maxAngle) eqn:Hlong.
  - assert (Hshort : Qle_bool (totalAngle font cs radius s) maxAngle = true).
    { apply Qle_bool_iff. apply Qle_bool_iff in Hlong.
      eapply Qle_trans; [apply totalAngle_app_ge, Hs | exact Hlong]. }
    rewrite Hshort. apply Qle_refl.
  - specialize (IH (s * 0.9) Hs').
    pose proof (fitLoop_le_start font (cs ++ ext) radius maxAngle n (s * 0.9) Hs')
      as Hle.
    destruct (fitLoop font (cs ++ ext) radius maxAngle n (s * 0.9)) as [fl tl].
    destruct (Qle_bool (totalAngle font cs radius s) maxAngle).
    + simpl in *. lra.
    + destruct (fitLoop font cs radius maxAngle n (s * 0.9)) as [fs ts].
      exact IH.
Qed.
End LinearFont.

(** C6.  For a glyph-width function that is linear in the font size with a
    non-negative width per glyph, a positive radius and a positive
    [maxFontSize]: appending characters to the text never increases the
    size returned by [fitFontSize], and the returned size never exceeds
    [maxFontSize]. *)
Theorem fitFontSize_monotone (font : PDFFont) (w : ascii -> Q)
    (text ext : string) (maxFontSize radius maxAngle : Q) :
  (forall c, 0 <= w c) ->
  (forall c size, widthOfTextAtSize font c size == w c * size) ->
  0 < radius -> 0 < maxFontSize ->
  fitFontSize font (String.append text ext) maxFontSize radius maxAngle
  <= fitFontSize font text maxFontSize radius maxAngle
  /\ fitFontSize font text maxFontSize radius maxAngle <= maxFontSize.
Proof.
  intros Hw Hlin Hr HM. unfold fitFontSize. rewrite chars_append. split.
  - apply (fitLoop_app_le font w Hw Hlin radius maxAngle Hr).
    apply Qlt_le_weak, HM.
  - apply fitLoop_le_start, Qlt_le_weak, HM.
Qed.

Lemma fitFontSize_monotone_witness :
  fitFontSize (uniformFont 0.5) (String.append "MAITRE" " DUPONT") 12 40 2
  <= fitFontSize (uniformFont 0.5) "MAITRE" 12 40 2.
Proof.
  refine (proj1 (fitFontSize_monotone (uniformFont 0.5) (fun _ => 0.5)
                   "MAITRE" " DUPONT" 12 40 2 _ _ _ _)).
  - intros c. discriminate.
  - intros c size. reflexivity.
  - reflexivity.
  - reflexivity.
Defined.

(** The witness is not a degenerate one: the longer text is fitted at a
    strictly smaller size. *)
Example fitFontSize_monotone_strict :
  fitFontSize (uniformFont 0.5) "MAITRE" 12 40 2 == 12
  /\ fitFontSize (uniformFont 0.5) (String.append "MAITRE" " DUPONT") 12 40 2 == 9.72.
Proof. vm_compute. split; reflexivity. Qed.

End ArcFitMonotonicity.

(** ** Renumbering *)

Section RenumberFacts.
Import PdfLib App.

Lemma samePieceButNumbers_refl (piece : PieceDocument) :
  samePieceButNumbers piece piece.
Proof.
  repeat split. apply Forall_Forall2_diag, Forall_forall. intros pl _.
  repeat split.
Qed.

Lemma seqZ_cons_succ (m : Z) (n : nat) :
  seqZ m (Z.of_nat (S n)) = m :: seqZ (m + 1) (Z.of_nat n).
Proof.
  rewrite seqZ_cons by lia. f_equal.
  replace (Z.pred (Z.of_nat (S n))) with (Z.of_nat n) by lia.
  replace (Z.succ m) with (m + 1) by lia. reflexivity.
Qed.

(** The integers of magnitude up to [2^53] are binary64 values. *)
Lemma roundToNearestEven_exact (z : Z) :
  - 2 ^ 53 <= z <= 2 ^ 53 -> Binary64.roundToNearestEven z = z.
Proof.
  intros Hz. unfold Binary64.roundToNearestEven. cbv zeta.
  destruct (Z.ltb_spec (Z.abs z) (2 ^ 53)) as [_|Hge]; [reflexivity|].
  assert (Hcase : z = 2 ^ 53 \/ z = - 2 ^ 53) by lia.
  destruct Hcase as [-> | ->]; vm_compute; reflexivity.
Qed.

Lemma add_exact (a b : Z) :
  - 2 ^ 53 <= a + b <= 2 ^ 53 -> Binary64.add a b = a + b.
Proof. apply roundToNearestEven_exact. Qed.

(** What renumbering keeps, whatever the counter does. *)
Lemma numberPlacements_frame (pls : list StampPlacement) (num : Z) :
  Forall2 samePlacementButNumber pls (fst (numberPlacements num pls)).
Proof.
  revert num. induction pls as [|pl pls IH]; intros num; [constructor|].
  cbn [numberPlacements]. specialize (IH (Binary64.add num 1)).
  destruct (numberPlacements (Binary64.add num 1) pls) as [rest' num'].
  cbn [fst] in *. constructor; [repeat split | exact IH].
Qed.

Lemma numberPieces_frame (pieces : list PieceDocument) (num : Z) :
  Forall2 samePieceButNumbers pieces (fst (numberPieces num pieces)).
Proof.
  revert num. induction pieces as [|piece pieces IH]; intros num; [constructor|].
  cbn [numberPieces]. destruct (decide (length (placements piece) = 0%nat)) as [He|Hne].
  - specialize (IH num). destruct (numberPieces num pieces) as [rest' num'].
    cbn [fst] in *. constructor; [apply samePieceButNumbers_refl | exact IH].
  - pose proof (numberPlacements_frame (placements piece) num) as Pf.
    destruct (numberPlacements num (placements piece)) as [newPlacements num1].
    specialize (IH num1). destruct (numberPieces num1 pieces) as [rest' num'].
    cbn [fst] in *. constructor; [|exact IH]. repeat split. exact Pf.
Qed.

(** As long as the counter stays within [2^53], it counts. *)
Lemma numberPlacements_spec (pls : list StampPlacement) (num : Z) :
  - 2 ^ 53 <= num -> num + Z.of_nat (length pls) <= 2 ^ 53 ->
  snd (numberPlacements num pls) = num + Z.of_nat (length pls)
  /\ number <$> fst (numberPlacements num pls) = seqZ num (Z.of_nat (length pls)).
Proof.
  revert num. induction pls as [|pl pls IH]; intros num Hlo Hhi.
  - simpl. split; [lia | reflexivity].
  - cbn [length] in Hhi. cbn [numberPlacements].
    rewrite add_exact by lia.
    destruct (IH (num + 1)) as (Hn & Hs); [lia | lia |].
    destruct (numberPlacements (num + 1) pls) as [rest' num'].
    cbn [fst snd length] in *. split; [lia|].
    rewrite seqZ_cons_succ, fmap_cons, Hs. reflexivity.
Qed.

Lemma numberPieces_spec (pieces : list PieceDocument) (num : Z) :
  - 2 ^ 53 <= num ->
  num + Z.of_nat (length (concat (placements <$> pieces))) <= 2 ^ 53 ->
  snd (numberPieces num pieces)
    = num + Z.of_nat (length (concat (placements <$> pieces)))
  /\ concat (numbersOf (fst (numberPieces num pieces)))
     = seqZ num (Z.of_nat (length (concat (placements <$> pieces)))).
Proof.
  revert num. induction pieces as [|piece pieces IH]; intros num Hlo Hhi.
  - simpl. split; [lia | reflexivity].
  - rewrite fmap_cons, concat_cons, length_app, Nat2Z.inj_add in Hhi.
    cbn [numberPieces]. destruct (decide (length (placements piece) = 0%nat)) as [He|Hne].
    + destruct (IH num) as (Hn & Hs); [lia | lia |].
      destruct (numberPieces num pieces) as [rest' num'].
      apply nil_length_inv in He.
      cbn [fst snd] in *. rewrite fmap_cons, concat_cons, He. cbn [app].
      split; [exact Hn|].
      unfold numbersOf in *. rewrite fmap_cons, concat_cons, He. exact Hs.
    + destruct (numberPlacements_spec (placements piece) num) as (Pn & Ps); [lia | lia |].
      destruct (numberPlacements num (placements piece)) as [newPlacements num1].
      cbn [fst snd] in *. subst num1.
      destruct (IH (num + Z.of_nat (length (placements piece)))) as (Hn & Hs); [lia | lia |].
      destruct (numberPieces (num + Z.of_nat (length (placements piece))) pieces)
        as [rest' num'].
      cbn [fst snd] in *.
      rewrite fmap_cons, concat_cons, length_app, Nat2Z.inj_add.
      split; [lia|].
      unfold numbersOf in *. rewrite fmap_cons, concat_cons. cbn [placements withPlacements].
      rewrite Ps, Hs. rewrite seqZ_app by lia. reflexivity.
Qed.

Lemma placement_counts (ps ps' : list PieceDocument) :
  Forall2 samePieceButNumbers ps ps' ->
  (fun piece => length (placements piece)) <$> ps'
  = (fun piece => length (placements piece)) <$> ps.
Proof.
  induction 1 as [|p p' l l' Hp Hl IH]; [reflexivity|].
  rewrite !fmap_cons, IH. f_equal.
  destruct Hp as (_ & _ & _ & _ & _ & Hpl). symmetry. apply (Forall2_length _ _ _ Hpl).
Qed.

(** C4.  [recalculateNumbers] walks the pieces in list order and gives the
    placements it meets the consecutive integers from [start] on, as long
    as the numbers stay within [2^53] in magnitude ([- 2^53 <= start] and
    [start + count <= 2^53], the counter being a binary64 number): read
    piece by piece, the numbers of the result are then [start, start+1,
    ...], one per placement.  Whatever the start, a piece without placement
    is returned as it is and every piece keeps as many placements as it
    had.  For [[P1 (none), P2 (one), P3 (one)]] and start 5, P2 gets 5 and
    P3 gets 6; after reordering the result to [[P3, P2, P1]] and running
    again, P3 gets 5 and P2 gets 6. *)
Theorem recalculateNumbers_consecutive (pieces : list PieceDocument) (start : Z) :
  let out := recalculateNumbers pieces start in
  (fun piece => length (placements piece)) <$> out
    = (fun piece => length (placements piece)) <$> pieces
  /\ (- 2 ^ 53 <= start ->
      start + Z.of_nat (length (concat (placements <$> pieces))) <= 2 ^ 53 ->
      concat (numbersOf out)
      = seqZ start (Z.of_nat (length (concat (placements <$> pieces)))))
  /\ (forall (i : nat) piece,
        pieces !! i = Some piece -> placements piece = [] -> out !! i = Some piece)
  /\ (forall (P1 P2 P3 : PieceDocument) (pl2 pl3 : StampPlacement),
        let P1 := withPlacements P1 [] in
        let P2 := withPlacements P2 [pl2] in
        let P3 := withPlacements P3 [pl3] in
        exists Q1 Q2 Q3,
          recalculateNumbers [P1; P2; P3] 5 = [Q1; Q2; Q3]
          /\ numbersOf [Q1; Q2; Q3] = [[]; [5]; [6]]
          /\ numbersOf (recalculateNumbers [Q3; Q2; Q1] 5) = [[5]; [6]; []]).
Proof.
  intros out. unfold out, recalculateNumbers.
  split; [|split; [|split]].
  - apply placement_counts, numberPieces_frame.
  - intros Hlo Hhi. apply numberPieces_spec; assumption.
  - generalize start. clear start out.
    induction pieces as [|p ps IH]; intros start i piece Hi Hnil; [inversion Hi|].
    cbn [numberPieces]. destruct i as [|i].
    + injection Hi as ->. rewrite Hnil. cbn [length].
      destruct (decide (0%nat = 0%nat)) as [_|Hne]; [|contradiction].
      destruct (numberPieces start ps). reflexivity.
    + destruct (decide (length (placements p) = 0%nat)).
      * specialize (IH start i piece Hi Hnil).
        destruct (numberPieces start ps). exact IH.
      * destruct (numberPlacements start (placements p)) as [np num1].
        specialize (IH num1 i piece Hi Hnil).
        destruct (numberPieces num1 ps). exact IH.
  - intros P1 P2 P3 pl2 pl3. cbv zeta. eexists _, _, _.
    split; [reflexivity|]. split; reflexivity.
Qed.

Lemma recalculateNumbers_consecutive_witness :
  concat (numbersOf (recalculateNumbers
            [examplePiece "a" []; examplePiece "b" [examplePlacement 9];
             examplePiece "c" [examplePlacement 9]] 5))
  = [5; 6].
Proof.
  apply (proj1 (proj2 (recalculateNumbers_consecutive
           [examplePiece "a" []; examplePiece "b" [examplePlacement 9];
            examplePiece "c" [examplePlacement 9]] 5))); cbn; lia.
Defined.

(** Where the claim stops: started at [2^53 - 1], the counter reaches [2^53]
    and stays there ([2^53 + 1] is no binary64 value and is rounded back),
    so that the second and the third stamp get the same number. *)
Lemma recalculateNumbers_counter_counterexample :
  let pieces := [examplePiece "a" [examplePlacement 0];
                 examplePiece "b" [examplePlacement 0];
                 examplePiece "c" [examplePlacement 0]] in
  let out := recalculateNumbers pieces (2 ^ 53 - 1) in
  numbersOf out = [[2 ^ 53 - 1]; [2 ^ 53]; [2 ^ 53]]
  /\ concat (numbersOf out) <> seqZ (2 ^ 53 - 1) 3.
Proof. vm_compute. split; [reflexivity | discriminate]. Qed.

(** The same additions replayed on primitive binary64 values, and the
    rounding checked against the primitive conversion at the first
    integers that are no binary64 values. *)
Example counter_binary64_replay :
  PrimFloat.add (Binary64.toFloat (2 ^ 53 - 1)) 1 = Binary64.toFloat (2 ^ 53)
  /\ PrimFloat.add (Binary64.toFloat (2 ^ 53)) 1 = Binary64.toFloat (2 ^ 53)
  /\ forallb (fun z => PrimFloat.Leibniz.eqb
                         (Binary64.toFloat (Binary64.roundToNearestEven z))
                         (Binary64.toFloat z))
       [2 ^ 53 - 1; 2 ^ 53; 2 ^ 53 + 1; 2 ^ 53 + 2; 2 ^ 53 + 3; 2 ^ 54 - 1;
        2 ^ 54 + 1; 2 ^ 54 + 2; 2 ^ 54 + 3; 2 ^ 60 + 127; 2 ^ 60 + 128; 2 ^ 60 + 129;
        - 2 ^ 53 - 1; - 2 ^ 53 - 3; - 2 ^ 54 + 1] = true
  /\ forallb (fun z => PrimFloat.Leibniz.eqb
                         (PrimFloat.add (Binary64.toFloat z) 1)
                         (Binary64.toFloat (Binary64.add z 1)))
       [5; 2 ^ 53 - 2; 2 ^ 53 - 1; 2 ^ 53; 2 ^ 53 + 2; 2 ^ 53 + 4; 2 ^ 54; 2 ^ 54 + 4;
        2 ^ 60; - 2 ^ 53; - 2 ^ 53 - 2; - 2 ^ 54; - 5] = true.
Proof. vm_compute. repeat split. Qed.

(** C9.  Renumbering changes nothing but the [number] of placements: the
    result lists the same pieces in the same order, each with the same id,
    file name, display name, document bytes and page count, and with as
    many placements, each at the same page index and the same [x] and [y]. *)
Theorem recalculateNumbers_frame (pieces : list PieceDocument) (start : Z) :
  Forall2 samePieceButNumbers pieces (recalculateNumbers pieces start)
  /\ length (recalculateNumbers pieces start) = length pieces
  /\ (fun piece => length (placements piece)) <$> recalculateNumbers pieces start
     = (fun piece => length (placements piece)) <$> pieces.
Proof.
  unfold recalculateNumbers.
  pose proof (numberPieces_frame pieces start) as Hf.
  split; [exact Hf|]. split.
  - symmetry. apply (Forall2_length _ _ _ Hf).
  - apply placement_counts, Hf.
Qed.

End RenumberFacts.

(** ** pdf-lib model *)

Section PdfLibFacts.
Import PdfLib.

Lemma pageAt_lookup (doc : PDFDocument) (i : nat) :
  pageAt doc (Z.of_nat i) = doc !! i.
Proof.
  unfold pageAt. destruct (decide (0 <= Z.of_nat i)) as [_|H]; [|lia].
  now rewrite Nat2Z.id.
Qed.

Lemma pageAt_Some (doc : PDFDocument) (index : Z) (page : PDFPage) :
  pageAt doc index = Some page <->
  0 <= index < getPageCount doc /\ doc !! Z.to_nat index = Some page.
Proof.
  unfold pageAt, getPageCount. destruct (decide (0 <= index)) as [H0|H0].
  - split.
    + intros H. split; [|exact H]. apply lookup_lt_Some in H. lia.
    + intros [_ H]. exact H.
  - split; [discriminate | intros [? _]; lia].
Qed.

Lemma pageAt_None (doc : PDFDocument) (index : Z) :
  pageAt doc index = None <-> index < 0 \/ getPageCount doc <= index.
Proof.
  unfold pageAt, getPageCount. destruct (decide (0 <= index)) as [H0|H0].
  - rewrite lookup_ge_None. lia.
  - split; [lia | reflexivity].
Qed.

Lemma getPage_in_range (doc : PDFDocument) (index : Z) :
  0 <= index < getPageCount doc ->
  exists page, doc !! Z.to_nat index = Some page /\ getPage doc index = Ok page.
Proof.
  intros H. unfold getPage. destruct (pageAt doc index) as [page|] eqn:E.
  - exists page. apply pageAt_Some in E. split; [apply E | reflexivity].
  - apply pageAt_None in E. lia.
Qed.

Lemma getPage_out_of_range (doc : PDFDocument) (index : Z) :
  index < 0 \/ getPageCount doc <= index -> getPage doc index = Err JsException.
Proof. intros H. unfold getPage. apply pageAt_None in H. now rewrite H. Qed.

Lemma getPage_lookup (doc : PDFDocument) (i : nat) (page : PDFPage) :
  doc !! i = Some page -> getPage doc (Z.of_nat i) = Ok page.
Proof. intros H. unfold getPage. now rewrite pageAt_lookup, H. Qed.

(** Copying a run of consecutive pages that lies inside the document. *)
Lemma copyPages_run (srcDoc : PDFDocument) (n a : nat) :
  (a + n <= length srcDoc)%nat ->
  copyPages srcDoc (seqZ (Z.of_nat a) (Z.of_nat n)) = Ok (take n (drop a srcDoc)).
Proof.
  unfold copyPages. revert a. induction n as [|n IH]; intros a Hlen.
  - reflexivity.
  - rewrite seqZ_cons by lia.
    replace (Z.succ (Z.of_nat a)) with (Z.of_nat (S a)) by lia.
    replace (Z.pred (Z.of_nat (S n))) with (Z.of_nat n) by lia.
    destruct (lookup_lt_is_Some_2 srcDoc a ltac:(lia)) as [page Hpage].
    cbn [mapM]. rewrite (getPage_lookup _ _ _ Hpage).
    cbn [bind]. rewrite IH by lia. cbn [bind].
    f_equal. rewrite (drop_S _ _ _ Hpage). reflexivity.
Qed.

Lemma copyPages_inside (srcDoc : PDFDocument) (a n : Z) :
  0 <= a -> 0 <= n -> a + n <= getPageCount srcDoc ->
  copyPages srcDoc (seqZ a n) = Ok (take (Z.to_nat n) (drop (Z.to_nat a) srcDoc)).
Proof.
  unfold getPageCount. intros Ha Hn Hlen.
  rewrite <- (copyPages_run srcDoc (Z.to_nat n) (Z.to_nat a)) by lia.
  now rewrite !Z2Nat.id by lia.
Qed.

(** Copying stops with an exception as soon as one index is outside. *)
Lemma copyPages_outside (srcDoc : PDFDocument) (indices : list Z) (index : Z) :
  index ∈ indices ->
  index < 0 \/ getPageCount srcDoc <= index ->
  copyPages srcDoc indices = Err JsException.
Proof.
  unfold copyPages. intros Hin Hout.
  induction indices as [|i indices IH]; [inversion Hin|].
  cbn [mapM]. destruct (getPage srcDoc i) as [page|e] eqn:E.
  - cbn [bind]. apply elem_of_cons in Hin as [->|Hin].
    + rewrite (getPage_out_of_range _ _ Hout) in E. discriminate.
    + rewrite (IH Hin). reflexivity.
  - unfold getPage in E. destruct (pageAt srcDoc i); [discriminate|].
    injection E as <-. reflexivity.
Qed.

Lemma foldl_addPage (doc : PDFDocument) (pages : list PDFPage) :
  foldl addPage doc pages = doc ++ pages.
Proof.
  revert doc. induction pages as [|page pages IH]; intros doc; simpl.
  - now rewrite app_nil_r.
  - rewrite IH. unfold addPage. now rewrite <- app_assoc.
Qed.

Lemma decode_save (doc : PDFDocument) : doc <> [] -> decode (save doc) = Some doc.
Proof. destruct doc; [congruence | reflexivity]. Qed.

Lemma decode_nonempty (buffer : Uint8Array) (pages : list PDFPage) :
  decode buffer = Some pages -> pages <> [].
Proof. destruct buffer; simpl; [|discriminate]. intros [= <-]. discriminate. Qed.

Lemma load_decode (buffer : Uint8Array) (pages : list PDFPage) :
  decode buffer = Some pages -> load buffer = Ok pages.
Proof. unfold load. now intros ->. Qed.

Lemma arrayFrom_id (len : Z) : arrayFrom len (fun i => i) = seqZ 0 len.
Proof. unfold arrayFrom. apply list_fmap_id. Qed.

Lemma arrayFrom_shift (len m : Z) : arrayFrom len (fun i => m + i) = seqZ m len.
Proof.
  unfold arrayFrom. change (fun i => m + i) with (Z.add m).
  rewrite fmap_add_seqZ. f_equal. lia.
Qed.

End PdfLibFacts.

(** ** Merge and split *)

Section MergeSplitFacts.
Import PdfLib PdfService Ipc.

Lemma copyPages_all (doc : PDFDocument) :
  copyPages doc (getPageIndices doc) = Ok doc.
Proof.
  unfold getPageIndices.
  rewrite copyPages_inside by (unfold getPageCount; lia).
  unfold getPageCount. rewrite Nat2Z.id. change (Z.to_nat 0) with 0%nat.
  now rewrite drop_0, firstn_all.
Qed.

Lemma mergePdfs_decoded (bufferA bufferB : Uint8Array) (A B : list PDFPage) :
  decode bufferA = Some A -> decode bufferB = Some B ->
  mergePdfs bufferA bufferB = Ok (save (A ++ B)).
Proof.
  intros HA HB. unfold mergePdfs.
  rewrite (load_decode _ _ HA), (load_decode _ _ HB). cbn [bind].
  rewrite copyPages_all. cbn [bind]. now rewrite foldl_addPage.
Qed.

(** C8.  Merging a document [A] of [p] pages with a document [B] of [q]
    pages succeeds and yields a document of exactly [p + q] pages: the
    pages of [A] in their order followed by the pages of [B] in theirs. *)
Theorem mergePdfs_appends (bufferA bufferB : Uint8Array) (A B : list PDFPage) :
  decode bufferA = Some A -> decode bufferB = Some B ->
  exists merged,
    mergePdfs bufferA bufferB = Ok merged
    /\ decode merged = Some (A ++ B)
    /\ pageCountOf merged = Some (Z.of_nat (length A) + Z.of_nat (length B)).
Proof.
  intros HA HB. exists (save (A ++ B)).
  split; [apply mergePdfs_decoded; assumption|].
  assert (Hd : decode (save (A ++ B)) = Some (A ++ B)).
  { apply decode_save. pose proof (decode_nonempty _ _ HA). destruct A; [congruence | discriminate]. }
  split; [exact Hd|].
  unfold pageCountOf. rewrite Hd. cbn. rewrite length_app. f_equal. lia.
Qed.

Lemma mergePdfs_appends_witness :
  exists merged,
    mergePdfs (PdfFile (blankPage 1) [blankPage 2]) (PdfFile (blankPage 3) []) = Ok merged
    /\ decode merged = Some [blankPage 1; blankPage 2; blankPage 3].
Proof.
  destruct (mergePdfs_appends (PdfFile (blankPage 1) [blankPage 2])
              (PdfFile (blankPage 3) []) [blankPage 1; blankPage 2] [blankPage 3])
    as (merged & Hm & Hd & _); [reflexivity | reflexivity |].
  exists merged. split; assumption.
Defined.

(** What [splitPdf] computes when both index runs lie inside the document. *)
Lemma splitPdf_decoded (buffer : Uint8Array) (D : list PDFPage) (afterPageIndex : Z) :
  decode buffer = Some D ->
  -1 <= afterPageIndex <= Z.of_nat (length D) - 1 ->
  splitPdf buffer afterPageIndex
  = Ok {| part1 := save (take (Z.to_nat (afterPageIndex + 1)) D);
          part2 := save (drop (Z.to_nat (afterPageIndex + 1)) D) |}.
Proof.
  intros HD Hk. unfold splitPdf. rewrite (load_decode _ _ HD). cbn [bind].
  rewrite arrayFrom_id.
  replace (getPageCount D - afterPageIndex - 1 )
    with (getPageCount D - (afterPageIndex + 1)) by lia.
  rewrite (arrayFrom_shift _ (afterPageIndex + 1)).
  rewrite !copyPages_inside by (unfold getPageCount; lia). cbn [bind].
  rewrite !foldl_addPage. unfold create. change (Z.to_nat 0) with 0%nat.
  rewrite drop_0. cbn [app].
  rewrite (take_ge (drop _ D)); [reflexivity|].
  rewrite length_drop. unfold getPageCount. lia.
Qed.

(** C7.  Splitting a document of [p] pages after page [k], [0 <= k <= p - 2],
    succeeds with a first part of exactly [k + 1] pages and a second part
    of exactly [p - k - 1] pages; merging the two parts succeeds and yields
    a document of [p] pages again (the pages of the original, in order). *)
Theorem splitPdf_mergePdfs_roundtrip (buffer : Uint8Array) (D : list PDFPage) (k : Z) :
  decode buffer = Some D ->
  0 <= k <= Z.of_nat (length D) - 2 ->
  exists parts merged,
    splitPdf buffer k = Ok parts
    /\ pageCountOf (part1 parts) = Some (k + 1)
    /\ pageCountOf (part2 parts) = Some (Z.of_nat (length D) - k - 1)
    /\ mergePdfs (part1 parts) (part2 parts) = Ok merged
    /\ pageCountOf merged = Some (Z.of_nat (length D))
    /\ decode merged = Some D.
Proof.
  intros HD Hk. set (n := Z.to_nat (k + 1)).
  assert (H1 : decode (save (take n D)) = Some (take n D)).
  { apply decode_save. intros E. apply (f_equal length) in E.
    rewrite length_take in E. cbn in E. lia. }
  assert (H2 : decode (save (drop n D)) = Some (drop n D)).
  { apply decode_save. intros E. apply (f_equal length) in E.
    rewrite length_drop in E. cbn in E. lia. }
  exists {| part1 := save (take n D); part2 := save (drop n D) |}, (save D).
  split; [apply splitPdf_decoded; [exact HD | lia]|].
  cbn [part1 part2]. unfold pageCountOf. rewrite H1, H2. cbn [fmap option_fmap option_map].
  rewrite length_take, length_drop.
  split; [f_equal; lia|]. split; [f_equal; lia|].
  rewrite (mergePdfs_decoded _ _ _ _ H1 H2), take_drop.
  split; [reflexivity|].
  rewrite (decode_save D) by (eapply decode_nonempty; exact HD).
  split; reflexivity.
Qed.

Lemma splitPdf_mergePdfs_roundtrip_witness :
  exists parts merged,
    splitPdf (PdfFile (blankPage 1) [blankPage 2; blankPage 3]) 0 = Ok parts
    /\ pageCountOf (part1 parts) = Some 1
    /\ pageCountOf (part2 parts) = Some 2
    /\ mergePdfs (part1 parts) (part2 parts) = Ok merged
    /\ pageCountOf merged = Some 3.
Proof.
  destruct (splitPdf_mergePdfs_roundtrip
              (PdfFile (blankPage 1) [blankPage 2; blankPage 3])
              [blankPage 1; blankPage 2; blankPage 3] 0)
    as (parts & merged & Hs & H1 & H2 & Hm & Hc & _); [reflexivity | simpl; lia |].
  exists parts, merged. repeat split; assumption.
Defined.

Lemma elem_of_arrayFrom_shift (m len : Z) :
  0 < len -> m ∈ arrayFrom len (fun i => m + i).
Proof. intros H. rewrite arrayFrom_shift. apply elem_of_seqZ. lia. Qed.

Lemma splitPdf_above (buffer : Uint8Array) (D : list PDFPage) (afterPageIndex : Z) :
  decode buffer = Some D ->
  Z.of_nat (length D) <= afterPageIndex ->
  splitPdf buffer afterPageIndex = Err JsException.
Proof.
  intros HD Hk. unfold splitPdf. rewrite (load_decode _ _ HD). cbn [bind].
  rewrite arrayFrom_id.
  rewrite (copyPages_outside D _ (getPageCount D)); [reflexivity| |right; lia].
  apply elem_of_seqZ. unfold getPageCount. lia.
Qed.

Lemma splitPdf_below (buffer : Uint8Array) (D : list PDFPage) (afterPageIndex : Z) :
  decode buffer = Some D ->
  afterPageIndex <= -2 ->
  splitPdf buffer afterPageIndex = Err JsException.
Proof.
  intros HD Hk. unfold splitPdf. rewrite (load_decode _ _ HD). cbn [bind].
  rewrite arrayFrom_id.
  rewrite (seqZ_nil 0 (afterPageIndex + 1)) by lia.
  cbn [copyPages mapM bind].
  rewrite (copyPages_outside D _ (afterPageIndex + 1)); [reflexivity| |left; lia].
  apply elem_of_arrayFrom_shift. unfold getPageCount. lia.
Qed.

(** C3, as amended.  [splitPdf] validates nothing itself.  On a document of
    [p] pages it throws (an exception of pdf-lib's page copying, no partial
    result) exactly when [afterPageIndex <= -2] or [afterPageIndex >= p],
    and returns two parts for [-1 <= afterPageIndex <= p - 1].  The
    ['split-pdf'] handler rejects every negative [afterPageIndex] with an
    Error and otherwise returns what [splitPdf] does: through the handler a
    split fails when [afterPageIndex < 0] or [afterPageIndex >= p] and does
    not fail for [0 <= afterPageIndex <= p - 1], the last page index
    included. *)
Theorem splitPdf_index_out_of_range
    (buffer : Uint8Array) (D : list PDFPage) (afterPageIndex : Z) :
  decode buffer = Some D ->
  let p := Z.of_nat (length D) in
  (afterPageIndex <= -2 \/ p <= afterPageIndex ->
     splitPdf buffer afterPageIndex = Err JsException)
  /\ (-1 <= afterPageIndex <= p - 1 ->
      isOk (splitPdf buffer afterPageIndex) = true)
  /\ (afterPageIndex < 0 ->
      splitPdfHandler buffer afterPageIndex
      = Err (AppError "Index de page invalide pour la scission."))
  /\ (p <= afterPageIndex ->
      splitPdfHandler buffer afterPageIndex = Err JsException)
  /\ (0 <= afterPageIndex <= p - 1 ->
      isOk (splitPdfHandler buffer afterPageIndex) = true
      /\ splitPdfHandler buffer afterPageIndex = splitPdf buffer afterPageIndex).
Proof.
  intros HD p. unfold splitPdfHandler, toUint8Array.
  split; [|split; [|split; [|split]]].
  - intros [Hk|Hk]; [eapply splitPdf_below | eapply splitPdf_above]; eassumption.
  - intros Hk. rewrite (splitPdf_decoded _ D) by assumption. reflexivity.
  - intros Hk. destruct (decide (afterPageIndex < 0)); [reflexivity | lia].
  - intros Hk. destruct (decide (afterPageIndex < 0)); [lia|].
    rewrite (splitPdf_above _ D) by assumption. reflexivity.
  - intros Hk. destruct (decide (afterPageIndex < 0)); [lia|].
    rewrite (splitPdf_decoded _ D) by (try assumption; lia).
    split; reflexivity.
Qed.

Lemma splitPdf_index_out_of_range_witness :
  splitPdf (PdfFile (blankPage 1) [blankPage 2; blankPage 3]) 3 = Err JsException
  /\ isOk (splitPdfHandler (PdfFile (blankPage 1) [blankPage 2; blankPage 3]) 1) = true.
Proof.
  pose proof (splitPdf_index_out_of_range
                (PdfFile (blankPage 1) [blankPage 2; blankPage 3])
                [blankPage 1; blankPage 2; blankPage 3] 3 eq_refl) as H3.
  pose proof (splitPdf_index_out_of_range
                (PdfFile (blankPage 1) [blankPage 2; blankPage 3])
                [blankPage 1; blankPage 2; blankPage 3] 1 eq_refl) as H1.
  split.
  - apply (proj1 H3). right. simpl. lia.
  - apply (proj2 (proj2 (proj2 (proj2 H1)))). simpl. lia.
Defined.

(** C3 as stated fails at the last page index: on a document of 3 pages,
    [afterPageIndex = 2 >= pageCount - 1] makes neither [splitPdf] nor the
    handler fail (the first part holds the 3 pages, the second is saved
    with one default page); [splitPdf] does not fail at [-1] either. *)
Lemma splitPdf_last_index_counterexample :
  let buffer := PdfFile (blankPage 1) [blankPage 2; blankPage 3] in
  pageCountOf buffer = Some 3
  /\ splitPdf buffer 2
     = Ok {| part1 := buffer; part2 := PdfFile defaultPage [] |}
  /\ isOk (splitPdfHandler buffer 2) = true
  /\ isOk (splitPdf buffer (-1)) = true.
Proof. vm_compute. repeat split. Qed.

End MergeSplitFacts.

(** ** applyStamps *)

Section ApplyStampsFacts.
Import PdfLib PdfService.

(** *** Grouping and sorting *)

Lemma groupByPage_lookup (placements : list StampPlacement) (index : Z) :
  groupByPage placements !! index
  = if decide (placementsOn index placements = []) then None
    else Some (placementsOn index placements).
Proof.
  unfold groupByPage, placementsOn.
  induction placements as [|p placements IH] using rev_ind.
  - cbn. apply lookup_empty.
  - rewrite foldl_snoc, filter_app. cbv zeta.
    destruct (decide (pageIndex p = index)) as [Heq|Hne].
    + rewrite Heq, lookup_insert_eq, IH.
      rewrite (filter_cons_True _ p []) by exact Heq. rewrite filter_nil.
      destruct (decide (filter (fun p0 => pageIndex p0 = index) placements = [])) as [E|E].
      * rewrite E. cbn. reflexivity.
      * cbn [default]. destruct (decide _) as [E'|_]; [|reflexivity].
        apply app_eq_nil in E' as [_ E']. discriminate.
    + rewrite lookup_insert_ne by exact Hne. rewrite IH.
      rewrite (filter_cons_False _ p []) by exact Hne.
      rewrite filter_nil, app_nil_r. reflexivity.
Qed.

Lemma groupByPage_default (placements : list StampPlacement) (index : Z) :
  default [] (groupByPage placements !! index) = placementsOn index placements.
Proof.
  rewrite groupByPage_lookup. destruct (decide _) as [E|_]; [now rewrite E | reflexivity].
Qed.

Lemma elem_of_sortedPageIndices (placements : list StampPlacement) (index : Z) :
  index ∈ sortedPageIndicesOf (groupByPage placements)
  <-> exists p, p ∈ placements /\ pageIndex p = index.
Proof.
  unfold sortedPageIndicesOf, sortDescending.
  rewrite merge_sort_Permutation, list_elem_of_fmap. split.
  - intros ([k v] & -> & Hkv). apply elem_of_map_to_list in Hkv.
    rewrite groupByPage_lookup in Hkv. cbn [fst] in *.
    destruct (decide (placementsOn k placements = [])) as [_|Hne]; [discriminate|].
    destruct (placementsOn k placements) as [|p rest] eqn:E; [congruence|].
    assert (Hp : p ∈ placementsOn k placements) by (rewrite E; left).
    apply list_elem_of_filter in Hp as [Hk Hp]. exists p. split; assumption.
  - intros (p & Hp & Hk). exists (index, placementsOn index placements).
    split; [reflexivity|]. apply elem_of_map_to_list.
    rewrite groupByPage_lookup. destruct (decide _) as [E|_]; [|reflexivity].
    exfalso. eapply filter_nil_not_elem_of; [exact E | exact Hk | exact Hp].
Qed.

Lemma NoDup_sortedPageIndices (byPage : gmap Z (list StampPlacement)) :
  NoDup (sortedPageIndicesOf byPage).
Proof.
  unfold sortedPageIndicesOf, sortDescending.
  rewrite merge_sort_Permutation. apply NoDup_fst_map_to_list.
Qed.

(** *** Drawing on the page at an index *)

Lemma drawAll_content (page : PDFPage) (ops : list DrawOp) :
  foldl (fun p op => drawOn op p) page ops
  = mkPage (pageWidth page) (pageHeight page) (getRotation page) (pageContent page ++ ops).
Proof.
  revert page. induction ops as [|op ops IH]; intros [w h r c].
  - cbn. now rewrite app_nil_r.
  - cbn [foldl]. rewrite IH. cbn. now rewrite <- app_assoc.
Qed.

Lemma drawnStamps_length config idx r pls (doc : PDFDocument) :
  length (drawnStamps config idx r pls doc) = length doc.
Proof.
  unfold drawnStamps. revert doc. induction pls as [|pl pls IH]; intros doc; [reflexivity|].
  cbn [foldl]. rewrite IH. apply length_alter.
Qed.

Lemma drawnStamps_lookup_ne config idx r pls (doc : PDFDocument) (j : nat) :
  j <> Z.to_nat idx -> drawnStamps config idx r pls doc !! j = doc !! j.
Proof.
  intros Hj. unfold drawnStamps. revert doc.
  induction pls as [|pl pls IH]; intros doc; [reflexivity|].
  cbn [foldl]. rewrite IH. apply list_lookup_alter_ne. congruence.
Qed.

Lemma drawnStamps_lookup_eq config idx r pls (doc : PDFDocument) (page : PDFPage) :
  doc !! Z.to_nat idx = Some page ->
  drawnStamps config idx r pls doc !! Z.to_nat idx
  = Some (foldl (fun p op => drawOn op p) page (stampOps config r pls)).
Proof.
  unfold drawnStamps. revert doc page.
  induction pls as [|pl pls IH]; intros doc page Hpage; [exact Hpage|].
  cbn [foldl]. erewrite IH; [reflexivity|].
  unfold drawOnPage. rewrite list_lookup_alter_eq, Hpage. reflexivity.
Qed.

(** *** When drawing a stamp does not throw *)

Lemma encodeText_Ok (boldFont : StandardFont) (text : string) :
  Forall (fun c => canEncode boldFont c = true) (String.list_ascii_of_string text) ->
  encodeText boldFont text = Ok tt.
Proof.
  intros H. unfold encodeText.
  rewrite (proj2 (forallb_forall _ _)); [reflexivity|].
  intros c Hc. rewrite Forall_forall in H. apply H. apply list_elem_of_In, Hc.
Qed.

Lemma curvedText_Ok (boldFont : StandardFont) (text : string) (radius : Q) :
  Forall (fun c => canEncode boldFont c = true) (String.list_ascii_of_string text) ->
  ~ (radius == 0)%Q ->
  curvedText boldFont text radius = Ok tt.
Proof.
  intros Henc Hr. unfold curvedText. rewrite (encodeText_Ok _ _ Henc). cbn [bind].
  destruct (Qeq_bool radius 0) eqn:E; [|reflexivity].
  exfalso. apply Hr, Qeq_bool_iff, E.
Qed.

Lemma drawStampOnPage_Ok (boldFont : StandardFont) (config : StampConfig)
    (doc : PDFDocument) (page : Z) (cx cy outerRadius : Q) (stampNumber : Z) :
  encodable boldFont config -> (0 < outerRadius)%Q ->
  drawStampOnPage boldFont doc page cx cy outerRadius
    (lawyerName config) (bottomText config) stampNumber
  = Ok (drawOnPage doc page
          (DrawStamp cx cy outerRadius (lawyerName config) (bottomText config)
             stampNumber)).
Proof.
  intros [Htop Hbottom] Hr. unfold drawStampOnPage. cbv zeta.
  assert (Hband : ~ ((outerRadius + outerRadius * 0.65) / 2 == 0)%Q).
  { intros E.
    change ((outerRadius + outerRadius * 0.65) * (1 # 2) == 0)%Q in E. lra. }
  rewrite (curvedText_Ok _ _ _ Htop Hband). cbn [bind].
  rewrite (curvedText_Ok _ _ _ Hbottom Hband). reflexivity.
Qed.

Lemma drawStamps_Ok (boldFont : StandardFont) (config : StampConfig) (idx : Z) (r : Q)
    (pls : list StampPlacement) (doc : PDFDocument) :
  encodable boldFont config -> (0 < r)%Q ->
  drawStamps boldFont config idx r pls doc = Ok (drawnStamps config idx r pls doc).
Proof.
  intros Henc Hr. revert doc. induction pls as [|pl pls IH]; intros doc; [reflexivity|].
  cbn [drawStamps]. rewrite (drawStampOnPage_Ok _ _ _ _ _ _ _ _ Henc Hr). cbn [bind].
  rewrite IH. reflexivity.
Qed.

Lemma scaledRadiusFor_pos (config : StampConfig) (w h : Q) :
  (0 < radius config)%Q -> (0 < w)%Q -> (0 < h)%Q -> (0 < scaledRadiusFor config w h)%Q.
Proof.
  intros Hr Hw Hh. unfold scaledRadiusFor, A4_SHORT.
  apply Qmult_lt_0_compat; [exact Hr|].
  apply Qlt_shift_div_l; [reflexivity|]. rewrite Qmult_0_l.
  destruct (Q.min_spec w h) as [[_ ->]|[_ ->]]; assumption.
Qed.

Lemma embedPage_Ok (page : PDFPage) : pageContent page <> [] -> embedPage page = Ok page.
Proof. unfold embedPage. destruct (pageContent page); [congruence | reflexivity]. Qed.

Lemma drawEmbedded_embeddedOp (doc : PDFDocument) (idx : Z) (page : PDFPage) :
  drawEmbedded doc idx page (getRotation page) (pageWidth page) (pageHeight page)
  = drawOnPage doc idx (embeddedOp page).
Proof.
  unfold drawEmbedded, embeddedOp, getSize.
  repeat (destruct (decide _); [reflexivity|]). reflexivity.
Qed.

(** [removePage] followed by [insertPage] at the same index replaces the page. *)
Lemma removePage_insertPage (doc : PDFDocument) (idx : Z) (page : PDFPage) (size : Q * Q) :
  0 <= idx -> doc !! Z.to_nat idx = Some page ->
  (let* d := removePage doc idx in insertPage d idx size)
  = Ok (<[Z.to_nat idx := mkPage (fst size) (snd size) 0 []]> doc).
Proof.
  intros H0 Hpage. pose proof (lookup_lt_Some _ _ _ Hpage) as Hlt.
  unfold removePage. unfold getPage.
  rewrite (proj2 (pageAt_Some doc idx page)) by (unfold getPageCount; split; [lia|exact Hpage]).
  cbn [bind]. unfold insertPage, getPageCount.
  destruct (decide _) as [_|Hbad].
  - f_equal. rewrite delete_take_drop.
    rewrite take_app_length' by (rewrite length_take; lia).
    rewrite drop_app_length' by (rewrite length_take; lia).
    symmetry. apply insert_take_drop. exact Hlt.
  - exfalso. apply Hbad. rewrite length_delete by (eexists; exact Hpage). lia.
Qed.

(** *** One iteration *)

Lemma stampPage_spec (boldFont : StandardFont) (config : StampConfig)
    (byPage : gmap Z (list StampPlacement))
    (srcDoc : option PDFDocument) (src doc : PDFDocument) (idx : Z) (page : PDFPage) :
  encodable boldFont config -> (0 < radius config)%Q -> stampable page ->
  0 <= idx ->
  doc !! Z.to_nat idx = Some page ->
  (getRotation page <> 0 -> srcDoc = Some src /\ src !! Z.to_nat idx = Some page) ->
  exists doc',
    stampPage boldFont config byPage srcDoc doc idx = Ok doc'
    /\ length doc' = length doc
    /\ doc' !! Z.to_nat idx = Some (stampedPage config (default [] (byPage !! idx)) page)
    /\ (forall j, j <> Z.to_nat idx -> doc' !! j = doc !! j).
Proof.
  intros Henc Hrad (Hw & Hh & Hcontent) H0 Hpage Hsrc.
  pose proof (lookup_lt_Some _ _ _ Hpage) as Hlt.
  assert (Hget : forall d, d !! Z.to_nat idx = Some page -> getPage d idx = Ok page).
  { intros d Hd. unfold getPage.
    rewrite (proj2 (pageAt_Some d idx page)); [reflexivity|].
    split; [|exact Hd]. apply lookup_lt_Some in Hd. unfold getPageCount. lia. }
  unfold stampPage, stampedPage. rewrite (Hget _ Hpage). cbn [bind].
  unfold getSize. destruct (decide (getRotation page = 0)) as [Hr|Hr].
  - rewrite (drawStamps_Ok _ _ _ _ _ _ Henc (scaledRadiusFor_pos _ _ _ Hrad Hw Hh)).
    eexists. split; [reflexivity|]. split; [apply drawnStamps_length|]. split.
    + rewrite (drawnStamps_lookup_eq _ _ _ _ _ _ Hpage), drawAll_content, Hr. reflexivity.
    + intros j Hj. apply drawnStamps_lookup_ne, Hj.
  - destruct (Hsrc Hr) as [-> Hsrcpage]. cbn [bind]. rewrite (Hget _ Hsrcpage). cbn [bind].
    rewrite (embedPage_Ok _ (Hcontent Hr)). cbn [bind].
    set (swapped := bool_decide (getRotation page = 90 \/ getRotation page = 270)).
    set (visualW := if swapped then pageHeight page else pageWidth page).
    set (visualH := if swapped then pageWidth page else pageHeight page).
    assert (Hvis : (0 < scaledRadiusFor config visualW visualH)%Q).
    { unfold visualW, visualH. destruct swapped; apply scaledRadiusFor_pos; assumption. }
    pose proof (removePage_insertPage doc idx page (visualW, visualH) H0 Hpage) as Hrep.
    destruct (removePage doc idx) as [d1|e]; [|discriminate Hrep].
    cbn [bind] in Hrep |- *. rewrite Hrep. cbn [bind fst snd].
    rewrite drawEmbedded_embeddedOp.
    rewrite (drawStamps_Ok _ _ _ _ _ _ Henc Hvis).
    eexists. split; [reflexivity|]. split; [|split].
    + rewrite drawnStamps_length. unfold drawOnPage.
      now rewrite length_alter, length_insert.
    + erewrite drawnStamps_lookup_eq.
      2:{ unfold drawOnPage. rewrite list_lookup_alter_eq.
          rewrite list_lookup_insert_eq by exact Hlt. reflexivity. }
      rewrite drawAll_content. reflexivity.
    + intros j Hj. rewrite drawnStamps_lookup_ne by exact Hj.
      unfold drawOnPage. rewrite list_lookup_alter_ne by congruence.
      apply list_lookup_insert_ne. congruence.
Qed.

(** *** The loop over the sorted page indices *)

Lemma stampPages_spec (boldFont : StandardFont) (config : StampConfig)
    (byPage : gmap Z (list StampPlacement))
    (srcDoc : option PDFDocument) (src : PDFDocument) (indices : list Z) :
  encodable boldFont config -> (0 < radius config)%Q ->
  forall doc : PDFDocument,
  NoDup indices ->
  (forall i, i ∈ indices -> 0 <= i < Z.of_nat (length src)) ->
  (forall i page, i ∈ indices -> src !! Z.to_nat i = Some page -> stampable page) ->
  length doc = length src ->
  (forall i, i ∈ indices -> doc !! Z.to_nat i = src !! Z.to_nat i) ->
  (forall i page, i ∈ indices -> src !! Z.to_nat i = Some page ->
      getRotation page <> 0 -> srcDoc = Some src) ->
  exists doc',
    stampPages boldFont config byPage srcDoc indices doc = Ok doc'
    /\ length doc' = length src
    /\ (forall i page, i ∈ indices -> src !! Z.to_nat i = Some page ->
          doc' !! Z.to_nat i
          = Some (stampedPage config (default [] (byPage !! i)) page))
    /\ (forall j, (forall i, i ∈ indices -> j <> Z.to_nat i) -> doc' !! j = doc !! j).
Proof.
  intros Henc Hrad.
  induction indices as [|idx rest IH]; intros doc Hnd Hrange Hstamp Hlen Hsame Hrot.
  - exists doc. split; [reflexivity|]. split; [exact Hlen|]. split.
    + intros i page Hi. inversion Hi.
    + reflexivity.
  - apply NoDup_cons in Hnd as [Hnotin Hnd].
    assert (Hidx : 0 <= idx < Z.of_nat (length src)) by (apply Hrange; left).
    destruct (lookup_lt_is_Some_2 src (Z.to_nat idx) ltac:(lia)) as [page Hpage].
    assert (Hdoc : doc !! Z.to_nat idx = Some page)
      by (rewrite Hsame by left; exact Hpage).
    destruct (stampPage_spec boldFont config byPage srcDoc src doc idx page)
      as (doc1 & Hstep & Hlen1 & Hat1 & Hother1).
    { exact Henc. } { exact Hrad. }
    { eapply Hstamp; [left | exact Hpage]. }
    { lia. } { exact Hdoc. }
    { intros Hr. split; [eapply Hrot; [left | exact Hpage | exact Hr] | exact Hpage]. }
    assert (Hne : forall i, i ∈ rest -> Z.to_nat idx <> Z.to_nat i).
    { intros i Hi E. assert (0 <= i < Z.of_nat (length src)) by (apply Hrange; now right).
      assert (i = idx) by lia. subst i. contradiction. }
    destruct (IH doc1) as (doc' & Hloop & Hlen' & Hat' & Hother').
    { exact Hnd. }
    { intros i Hi. apply Hrange. now right. }
    { intros i pg Hi. apply Hstamp. now right. }
    { congruence. }
    { intros i Hi. rewrite Hother1 by (intros E; exact (Hne i Hi (eq_sym E))).
      apply Hsame. now right. }
    { intros i pg Hi. apply Hrot. now right. }
    exists doc'. cbn [stampPages]. rewrite Hstep. cbn [bind].
    split; [exact Hloop|]. split; [exact Hlen'|]. split.
    + intros i pg Hi Hpg. apply elem_of_cons in Hi as [->|Hi].
      * rewrite Hother' by exact Hne. rewrite Hat1. congruence.
      * apply Hat'; assumption.
    + intros j Hj. rewrite Hother'.
      * apply Hother1. apply Hj. left.
      * intros i Hi. apply Hj. now right.
Qed.

Lemma hasRotatedPages_spec (doc : PDFDocument) (indices : list Z) :
  (forall i, i ∈ indices -> 0 <= i < Z.of_nat (length doc)) ->
  exists rotated,
    hasRotatedPages doc indices = Ok rotated
    /\ (rotated = false ->
        forall i page, i ∈ indices -> doc !! Z.to_nat i = Some page ->
                       getRotation page = 0).
Proof.
  induction indices as [|idx rest IH]; intros Hrange.
  - exists false. split; [reflexivity|]. intros _ i page Hi. inversion Hi.
  - destruct (getPage_in_range doc idx) as (page & Hpage & Hget).
    { unfold getPageCount. apply Hrange. left. }
    cbn [hasRotatedPages]. rewrite Hget. cbn [bind].
    destruct (decide (getRotation page <> 0)) as [Hr|Hr].
    + exists true. split; [reflexivity | discriminate].
    + destruct IH as (rotated & Hrest & Hall).
      { intros i Hi. apply Hrange. now right. }
      exists rotated. split; [exact Hrest|].
      intros Hf i pg Hi Hpg. apply elem_of_cons in Hi as [->|Hi].
      * assert (pg = page) by congruence. subst pg.
        destruct (decide (getRotation page = 0)); [assumption | contradiction].
      * eapply Hall; eassumption.
Qed.

(** *** The whole function *)

Lemma applyStamps_spec (boldFont : StandardFont) (pdfBuffer : Uint8Array)
    (D : list PDFPage) (placements : list StampPlacement) (config : StampConfig) :
  decode pdfBuffer = Some D ->
  Forall (fun p => 0 <= pageIndex p < Z.of_nat (length D)) placements ->
  encodable boldFont config -> (0 < radius config)%Q ->
  (forall p page, p ∈ placements -> D !! Z.to_nat (pageIndex p) = Some page ->
                  stampable page) ->
  exists D',
    applyStamps boldFont pdfBuffer placements config = Ok (save D')
    /\ decode (save D') = Some D'
    /\ length D' = length D
    /\ (forall (i : nat) page,
          D !! i = Some page ->
          (exists p, p ∈ placements /\ pageIndex p = Z.of_nat i) ->
          D' !! i = Some (stampedPage config (placementsOn (Z.of_nat i) placements) page))
    /\ (forall (i : nat),
          ~ (exists p, p ∈ placements /\ pageIndex p = Z.of_nat i) ->
          D' !! i = D !! i).
Proof.
  intros HD Hin Henc Hrad Hstamp. rewrite Forall_forall in Hin.
  set (byPage := groupByPage placements).
  set (indices := sortedPageIndicesOf byPage).
  assert (Hrange : forall i, i ∈ indices -> 0 <= i < Z.of_nat (length D)).
  { intros i Hi. apply elem_of_sortedPageIndices in Hi as (p & Hp & <-).
    apply Hin, Hp. }
  assert (Hstampable : forall i page, i ∈ indices -> D !! Z.to_nat i = Some page ->
                                      stampable page).
  { intros i page Hi Hpage. apply elem_of_sortedPageIndices in Hi as (p & Hp & <-).
    exact (Hstamp p page Hp Hpage). }
  destruct (hasRotatedPages_spec D indices Hrange) as (rotated & Hscan & Hnone).
  set (srcDoc := if rotated then Some D else None).
  destruct (stampPages_spec boldFont config byPage srcDoc D indices Henc Hrad D)
    as (D' & Hloop & Hlen & Hat & Hother).
  { apply NoDup_sortedPageIndices. }
  { exact Hrange. } { exact Hstampable. } { reflexivity. } { reflexivity. }
  { intros i page Hi Hpage Hr. unfold srcDoc. destruct rotated; [reflexivity|].
    exfalso. apply Hr. eapply Hnone; [reflexivity | exact Hi | exact Hpage]. }
  exists D'. split; [|split; [|split; [exact Hlen|split]]].
  - unfold applyStamps. rewrite (load_decode _ _ HD). cbn [bind]. cbv zeta.
    fold byPage. fold indices. rewrite Hscan. cbn [bind].
    unfold srcDoc in Hloop.
    destruct rotated; cbn [bind]; rewrite Hloop; reflexivity.
  - apply decode_save. intros ->. apply decode_nonempty in HD.
    destruct D; [congruence | discriminate].
  - intros i page Hpage Hex.
    assert (Hi : Z.of_nat i ∈ indices) by (apply elem_of_sortedPageIndices, Hex).
    specialize (Hat (Z.of_nat i) page Hi). rewrite Nat2Z.id in Hat.
    rewrite (Hat Hpage). unfold byPage. now rewrite groupByPage_default.
  - intros i Hno. apply Hother. intros k Hk ->.
    apply Hno. apply elem_of_sortedPageIndices in Hk as (p & Hp & Hpk).
    exists p. split; [exact Hp|]. specialize (Hrange (pageIndex p)).
    rewrite Hpk in *. specialize (Hin p Hp). lia.
Qed.


(** Without placements nothing is drawn and no page is replaced. *)
Lemma applyStamps_no_placements (boldFont : StandardFont) (pdfBuffer : Uint8Array)
    (D : list PDFPage) (config : StampConfig) :
  decode pdfBuffer = Some D -> applyStamps boldFont pdfBuffer [] config = Ok pdfBuffer.
Proof.
  intros HD. destruct pdfBuffer as [first rest|]; [|discriminate].
  injection HD as <-. vm_compute. reflexivity.
Qed.

Example sortDescending_example : sortDescending [0; 2; 1] = [2; 1; 0].
Proof. reflexivity. Qed.


Lemma exampleFont_encodes : encodable exampleFont exampleConfig.
Proof. split; vm_compute; repeat constructor. Qed.

Lemma examplePlacement0_stampable (n : Z) (pages : list PDFPage) :
  Forall stampable pages ->
  forall p page, p ∈ [examplePlacement0 n] ->
                 pages !! Z.to_nat (pageIndex p) = Some page -> stampable page.
Proof.
  intros Hall p page Hp Hpage. rewrite Forall_forall in Hall.
  apply Hall. eapply list_elem_of_lookup_2. exact Hpage.
Qed.

Lemma rotatedExample_stampable : Forall stampable [scannedPage; plainPage].
Proof.
  repeat constructor; try reflexivity; cbn; intros _; discriminate.
Qed.



(** The same run on the scanned page, evaluated: the landscape page flagged
    90 becomes an unrotated portrait page that shows the original through
    the corrective transform and carries the stamp; the other page is
    untouched. *)
Example applyStamps_rotated_run :
  applyStamps exampleFont rotatedExample [examplePlacement0 1] exampleConfig
  = Ok (PdfFile
          (mkPage 595.28 841.89 0
             [DrawPage scannedPage 0 841.89 (-90);
              DrawStamp 297 420 (scaledRadiusFor exampleConfig 595.28 841.89) "ME TEST" "AVOCAT" 1])
          [plainPage]).
Proof. vm_compute. reflexivity. Qed.

(** A name with a character that the font lacks (here a line feed) makes
    the same run throw. *)
Example applyStamps_unencodable_run :
  applyStamps exampleFont rotatedExample [examplePlacement0 1]
    {| lawyerName := String (ascii_of_nat 10) "ME"; bottomText := "AVOCAT"; radius := 65 |}
  = Err JsException.
Proof. vm_compute. reflexivity. Qed.

End ApplyStampsFacts.

(** * Further properties *)

(** ** CoordinateMapper: bounds and the inverse round trip *)

Section CoordinateMapperExtras.
Import CoordinateMapper.
Local Open Scope Q_scope.

Lemma unit_fraction (a d : Q) : 0 < d -> 0 <= a <= d -> 0 <= a / d <= 1.
Proof.
  intros Hd [Ha0 Had]. split.
  - apply Qle_shift_div_l; [exact Hd|]. lra.
  - apply Qle_shift_div_r; [exact Hd|]. lra.
Qed.

(** X1.  A pointer inside the display rectangle is mapped inside the page:
    for positive page and display dimensions, if
    [left <= mouseX <= left + displayWidth] and
    [top <= mouseY <= top + displayHeight] then the point returned by
    [screenToPdf] satisfies [0 <= x <= pdfPageWidth] and
    [0 <= y <= pdfPageHeight]. *)
Theorem screenToPdf_inside_page
    (mouseX mouseY : Q) (containerRect : DOMRect)
    (pdfPageWidth pdfPageHeight displayWidth displayHeight : Q) :
  0 < pdfPageWidth -> 0 < pdfPageHeight ->
  0 < displayWidth -> 0 < displayHeight ->
  left containerRect <= mouseX <= left containerRect + displayWidth ->
  top containerRect <= mouseY <= top containerRect + displayHeight ->
  let p := screenToPdf mouseX mouseY containerRect
             pdfPageWidth pdfPageHeight displayWidth displayHeight in
  (0 <= x p <= pdfPageWidth) /\ (0 <= y p <= pdfPageHeight).
Proof.
  intros Hpw Hph Hdw Hdh [Hx0 Hx1] [Hy0 Hy1] p. unfold p, screenToPdf. cbn [x y].
  destruct (unit_fraction (mouseX - left containerRect) displayWidth Hdw) as [Hu0 Hu1];
    [split; lra|].
  destruct (unit_fraction (mouseY - top containerRect) displayHeight Hdh) as [Hv0 Hv1];
    [split; lra|].
  set (u := (mouseX - left containerRect) / displayWidth) in *.
  set (v := (mouseY - top containerRect) / displayHeight) in *.
  repeat split; nra.
Qed.

Lemma screenToPdf_inside_page_witness :
  let p := screenToPdf 450 545 (makeRect 100 50 DISPLAY_W DISPLAY_H)
             PDF_W PDF_H DISPLAY_W DISPLAY_H in
  (0 <= x p <= PDF_W) /\ (0 <= y p <= PDF_H).
Proof.
  apply (screenToPdf_inside_page 450 545 (makeRect 100 50 DISPLAY_W DISPLAY_H)
           PDF_W PDF_H DISPLAY_W DISPLAY_H);
    try reflexivity; split; vm_compute; discriminate.
Defined.

(** X2.  The other round trip: a page point sent to the display by
    [pdfToScreen], taken as a pointer position in a container (its
    container-relative position plus the container's top-left corner) and
    mapped back by [screenToPdf], is the page point again. *)
Theorem pdfToScreen_screenToPdf
    (pdfX pdfY : Q) (containerRect : DOMRect)
    (pdfPageWidth pdfPageHeight displayWidth displayHeight : Q) :
  0 < pdfPageWidth -> 0 < pdfPageHeight ->
  0 < displayWidth -> 0 < displayHeight ->
  let s := pdfToScreen pdfX pdfY pdfPageWidth pdfPageHeight displayWidth displayHeight in
  let p := screenToPdf (x s + left containerRect) (y s + top containerRect) containerRect
             pdfPageWidth pdfPageHeight displayWidth displayHeight in
  x p == pdfX /\ y p == pdfY.
Proof.
  intros Hpw Hph Hdw Hdh s p.
  apply Qpos_nonzero in Hpw, Hph, Hdw, Hdh.
  unfold p, s, screenToPdf, pdfToScreen. cbn [x y].
  split; field; split; assumption.
Qed.

Lemma pdfToScreen_screenToPdf_witness :
  let s := pdfToScreen 297.64 420.945 PDF_W PDF_H DISPLAY_W DISPLAY_H in
  let p := screenToPdf (x s + 100) (y s + 50) (makeRect 100 50 DISPLAY_W DISPLAY_H)
             PDF_W PDF_H DISPLAY_W DISPLAY_H in
  x p == 297.64 /\ y p == 420.945.
Proof.
  apply (pdfToScreen_screenToPdf 297.64 420.945 (makeRect 100 50 DISPLAY_W DISPLAY_H)
           PDF_W PDF_H DISPLAY_W DISPLAY_H); reflexivity.
Defined.

End CoordinateMapperExtras.

(** ** applyStamps: frame, drawn stamps, out-of-range placements *)

Section ApplyStampsExtras.
Import PdfLib PdfService.

(** X3.  When [applyStamps] is called so that it returns (every placement
    points at a page of the document, the font encodes the name and the
    bottom text, the radius is positive, every page that carries a
    placement has positive sides and, if it has a rotation flag, a content
    stream), the result has the same number of pages and every page that
    carries no placement is the input page, unchanged. *)
Theorem applyStamps_frame (boldFont : StandardFont) (pdfBuffer : Uint8Array)
    (D : list PDFPage) (placements : list StampPlacement) (config : StampConfig) :
  decode pdfBuffer = Some D ->
  Forall (fun p => 0 <= pageIndex p < Z.of_nat (length D)) placements ->
  encodable boldFont config -> (0 < radius config)%Q ->
  (forall p page, p ∈ placements -> D !! Z.to_nat (pageIndex p) = Some page ->
                  stampable page) ->
  exists out D',
    applyStamps boldFont pdfBuffer placements config = Ok out
    /\ decode out = Some D'
    /\ length D' = length D
    /\ forall i : nat,
         ~ (exists p, p ∈ placements /\ pageIndex p = Z.of_nat i) ->
         D' !! i = D !! i.
Proof.
  intros HD Hin Henc Hrad Hstamp.
  destruct (applyStamps_spec boldFont pdfBuffer D placements config HD Hin Henc Hrad Hstamp)
    as (D' & Happly & Hdec & Hlen & _ & Hother).
  exists (save D'), D'. repeat split; assumption.
Qed.

Lemma applyStamps_frame_witness :
  exists out D',
    applyStamps exampleFont rotatedExample [examplePlacement0 1] exampleConfig = Ok out
    /\ decode out = Some D'
    /\ D' !! 1%nat = Some plainPage.
Proof.
  destruct (applyStamps_frame exampleFont rotatedExample [scannedPage; plainPage]
              [examplePlacement0 1] exampleConfig)
    as (out & D' & Ha & Hd & _ & Hother).
  - reflexivity.
  - constructor; [cbn; lia | constructor].
  - exact exampleFont_encodes.
  - reflexivity.
  - exact (examplePlacement0_stampable 1 _ rotatedExample_stampable).
  - exists out, D'. split; [exact Ha|]. split; [exact Hd|].
    rewrite (Hother 1%nat); [reflexivity|].
    intros (p & Hp & Hi). apply elem_of_cons in Hp as [->|Hp];
      [discriminate Hi | inversion Hp].
Defined.

(** X4.  When [applyStamps] is called so that it returns (same conditions),
    every placement is drawn exactly once, on its own page and in the
    order of the placement list.  On an unrotated page the size and the
    existing content are kept and one [DrawStamp] per placement of that page
    is appended, at the placement's [x], [y] and [number], with radius
    [config.radius * min(W, H) / 595.28].  On a page with a rotation flag
    the content of the replacement page is the embedded original followed
    by those stamps, the radius being computed from the visual size. *)
Theorem applyStamps_draws_placements (boldFont : StandardFont) (pdfBuffer : Uint8Array)
    (D : list PDFPage) (placements : list StampPlacement) (config : StampConfig) :
  decode pdfBuffer = Some D ->
  Forall (fun p => 0 <= pageIndex p < Z.of_nat (length D)) placements ->
  encodable boldFont config -> (0 < radius config)%Q ->
  (forall p page, p ∈ placements -> D !! Z.to_nat (pageIndex p) = Some page ->
                  stampable page) ->
  exists out D',
    applyStamps boldFont pdfBuffer placements config = Ok out
    /\ decode out = Some D'
    /\ forall (i : nat) page,
         D !! i = Some page ->
         (exists p, p ∈ placements /\ pageIndex p = Z.of_nat i) ->
         exists page',
           D' !! i = Some page'
           /\ (getRotation page = 0 ->
               getSize page' = getSize page /\ getRotation page' = 0
               /\ pageContent page'
                  = pageContent page
                    ++ stampOps config
                         (scaledRadiusFor config (pageWidth page) (pageHeight page))
                         (placementsOn (Z.of_nat i) placements))
           /\ (getRotation page <> 0 ->
               pageContent page'
               = embeddedOp page
                 :: stampOps config
                      (scaledRadiusFor config (pageWidth page') (pageHeight page'))
                      (placementsOn (Z.of_nat i) placements)).
Proof.
  intros HD Hin Henc Hrad Hstamp.
  destruct (applyStamps_spec boldFont pdfBuffer D placements config HD Hin Henc Hrad Hstamp)
    as (D' & Happly & Hdec & _ & Hat & _).
  exists (save D'), D'. split; [exact Happly|]. split; [exact Hdec|].
  intros i page Hpage Hex.
  exists (stampedPage config (placementsOn (Z.of_nat i) placements) page).
  split; [exact (Hat i page Hpage Hex)|].
  destruct page as [w h r c]. unfold stampedPage.
  cbn [getRotation getSize pageWidth pageHeight pageContent].
  destruct (decide (r = 0)) as [->|Hr].
  - split; [|congruence]. intros _. repeat split.
  - split; [congruence|]. intros _. reflexivity.
Qed.

Lemma blankPage_stampable (tag : Z) : stampable (blankPage tag).
Proof. repeat split; intros H; cbn in H; congruence. Qed.

Lemma applyStamps_draws_placements_witness :
  exists out D' page',
    applyStamps exampleFont (PdfFile (blankPage 7) []) [examplePlacement0 3] exampleConfig
    = Ok out
    /\ decode out = Some D'
    /\ D' !! 0%nat = Some page'
    /\ pageContent page'
       = [DrawStamp 0 0 1 "" "" 7;
          DrawStamp 297 420 (scaledRadiusFor exampleConfig 595.28 841.89)
            "ME TEST" "AVOCAT" 3].
Proof.
  destruct (applyStamps_draws_placements exampleFont (PdfFile (blankPage 7) [])
              [blankPage 7] [examplePlacement0 3] exampleConfig)
    as (out & D' & Ha & Hd & Hpages).
  - reflexivity.
  - constructor; [cbn; lia | constructor].
  - exact exampleFont_encodes.
  - reflexivity.
  - apply examplePlacement0_stampable. constructor; [apply blankPage_stampable | constructor].
  - destruct (Hpages 0%nat (blankPage 7) eq_refl) as (page' & Hl & H0 & _).
    + exists (examplePlacement0 3). split; [left | reflexivity].
    + exists out, D', page'. split; [exact Ha|]. split; [exact Hd|].
      split; [exact Hl|]. apply (H0 eq_refl).
Defined.

Lemma getPage_Ok_inv (doc : PDFDocument) (idx : Z) (page : PDFPage) :
  getPage doc idx = Ok page ->
  0 <= idx < getPageCount doc /\ doc !! Z.to_nat idx = Some page.
Proof.
  unfold getPage. destruct (pageAt doc idx) as [pg|] eqn:E; [|discriminate].
  intros [= <-]. apply pageAt_Some, E.
Qed.

Lemma getPage_Err_inv (doc : PDFDocument) (idx : Z) (e : error) :
  getPage doc idx = Err e -> e = JsException.
Proof. unfold getPage. destruct (pageAt doc idx); [discriminate | congruence]. Qed.

Lemma curvedText_outcome (boldFont : StandardFont) (text : string) (radius : Q) :
  curvedText boldFont text radius = Err JsException
  \/ curvedText boldFont text radius = Ok tt.
Proof.
  unfold curvedText, encodeText. destruct (forallb _ _); [|left; reflexivity].
  cbn [bind]. destruct (_ && _); [left | right]; reflexivity.
Qed.

Lemma drawStamps_outcome (boldFont : StandardFont) (config : StampConfig) (idx : Z)
    (r : Q) (pls : list StampPlacement) (doc : PDFDocument) :
  drawStamps boldFont config idx r pls doc = Err JsException
  \/ exists doc', drawStamps boldFont config idx r pls doc = Ok doc'
                  /\ length doc' = length doc.
Proof.
  revert doc. induction pls as [|pl pls IH]; intros doc.
  - right. exists doc. split; reflexivity.
  - cbn [drawStamps]. unfold drawStampOnPage. cbv zeta.
    destruct (curvedText_outcome boldFont (toUpperCase (lawyerName config))
                ((r + r * 0.65) / 2)) as [-> | ->]; [left; reflexivity|].
    cbn [bind].
    destruct (curvedText_outcome boldFont (toUpperCase (bottomText config))
                ((r + r * 0.65) / 2)) as [-> | ->]; [left; reflexivity|].
    cbn [bind].
    destruct (IH (drawOnPage doc idx
                    (DrawStamp (x pl) (y pl) r (lawyerName config) (bottomText config)
                       (number pl)))) as [-> | (doc' & -> & Hlen)]; [left; reflexivity|].
    right. exists doc'. split; [reflexivity|].
    rewrite Hlen. unfold drawOnPage. apply length_alter.
Qed.

(** One iteration either throws or keeps the number of pages. *)
Lemma stampPage_outcome (boldFont : StandardFont) (config : StampConfig)
    (byPage : gmap Z (list StampPlacement))
    (srcDoc : option PDFDocument) (doc : PDFDocument) (idx : Z) :
  stampPage boldFont config byPage srcDoc doc idx = Err JsException
  \/ exists doc', stampPage boldFont config byPage srcDoc doc idx = Ok doc'
                  /\ length doc' = length doc.
Proof.
  unfold stampPage.
  destruct (getPage doc idx) as [page|e] eqn:Hget;
    [|left; apply getPage_Err_inv in Hget; subst e; reflexivity].
  apply getPage_Ok_inv in Hget as [Hrange Hpage]. cbn [bind].
  unfold getSize. destruct (decide (getRotation page = 0)).
  - apply drawStamps_outcome.
  - destruct srcDoc as [src|]; [|left; reflexivity]. cbn [bind].
    destruct (getPage src idx) as [srcPage|e] eqn:Hsrc.
    + cbn [bind]. unfold embedPage.
      destruct (pageContent srcPage) as [|op ops] eqn:Hcontent; [left; reflexivity|].
      cbn [bind].
      set (size := (if bool_decide (getRotation page = 90 \/ getRotation page = 270)
                    then pageHeight page else pageWidth page,
                    if bool_decide (getRotation page = 90 \/ getRotation page = 270)
                    then pageWidth page else pageHeight page)).
      pose proof (removePage_insertPage doc idx page size ltac:(lia) Hpage) as Hrep.
      destruct (removePage doc idx) as [d1|e]; [|discriminate Hrep].
      cbn [bind] in Hrep |- *. rewrite Hrep. cbn [bind].
      match goal with
      | |- context [drawStamps ?f ?c ?i ?r ?p ?d] =>
          destruct (drawStamps_outcome f c i r p d) as [-> | (doc' & -> & Hlen)]
      end; [left; reflexivity|].
      right. exists doc'. split; [reflexivity|].
      rewrite Hlen. unfold drawEmbedded.
      repeat (destruct (decide _)); unfold drawOnPage;
        now rewrite length_alter, length_insert.
    + left. apply getPage_Err_inv in Hsrc. subst e. reflexivity.
Qed.

Lemma stampPages_outside (boldFont : StandardFont) (config : StampConfig)
    (byPage : gmap Z (list StampPlacement))
    (srcDoc : option PDFDocument) (indices : list Z) (bad : Z) :
  forall doc : PDFDocument,
  bad ∈ indices ->
  bad < 0 \/ Z.of_nat (length doc) <= bad ->
  stampPages boldFont config byPage srcDoc indices doc = Err JsException.
Proof.
  induction indices as [|idx rest IH]; intros doc Hin Hbad; [inversion Hin|].
  cbn [stampPages].
  destruct (stampPage_outcome boldFont config byPage srcDoc doc idx)
    as [->|(doc' & Hok & Hlen)]; [reflexivity|].
  rewrite Hok. cbn [bind]. apply elem_of_cons in Hin as [->|Hin].
  - exfalso. unfold stampPage in Hok.
    rewrite (getPage_out_of_range doc idx) in Hok by (unfold getPageCount; exact Hbad).
    discriminate Hok.
  - apply IH; [exact Hin | rewrite Hlen; exact Hbad].
Qed.

Lemma hasRotatedPages_outcome (doc : PDFDocument) (indices : list Z) :
  hasRotatedPages doc indices = Err JsException
  \/ exists rotated, hasRotatedPages doc indices = Ok rotated.
Proof.
  induction indices as [|idx rest IH]; [right; eexists; reflexivity|].
  cbn [hasRotatedPages].
  destruct (getPage doc idx) as [page|e] eqn:Hget;
    [|left; apply getPage_Err_inv in Hget; subst e; reflexivity].
  cbn [bind].
  destruct (decide _); [right; eexists; reflexivity | exact IH].
Qed.

(** X5.  A placement whose [pageIndex] is negative or not below the page
    count makes [applyStamps] throw: no stamped document is returned, also
    when other placements are valid. *)
Theorem applyStamps_placement_out_of_range (boldFont : StandardFont)
    (pdfBuffer : Uint8Array) (D : list PDFPage)
    (placements : list StampPlacement) (config : StampConfig) (p : StampPlacement) :
  decode pdfBuffer = Some D ->
  p ∈ placements ->
  pageIndex p < 0 \/ Z.of_nat (length D) <= pageIndex p ->
  applyStamps boldFont pdfBuffer placements config = Err JsException.
Proof.
  intros HD Hp Hbad. unfold applyStamps. rewrite (load_decode _ _ HD). cbn [bind]. cbv zeta.
  assert (Hin : pageIndex p ∈ sortedPageIndicesOf (groupByPage placements)).
  { apply elem_of_sortedPageIndices. exists p. split; [exact Hp | reflexivity]. }
  destruct (hasRotatedPages_outcome D (sortedPageIndicesOf (groupByPage placements)))
    as [->|(rotated & ->)]; [reflexivity|].
  cbn [bind]. destruct rotated; cbn [bind];
    rewrite (stampPages_outside _ _ _ _ _ (pageIndex p) D Hin Hbad); reflexivity.
Qed.

Lemma applyStamps_placement_out_of_range_witness :
  applyStamps exampleFont rotatedExample
    [examplePlacement0 1; mkPlacement 2 10 10 2] exampleConfig = Err JsException.
Proof.
  apply (applyStamps_placement_out_of_range exampleFont rotatedExample
           [scannedPage; plainPage] _ exampleConfig (mkPlacement 2 10 10 2)).
  - reflexivity.
  - right. left.
  - right. cbn. lia.
Defined.

End ApplyStampsExtras.

(** ** mergePdfs and splitPdf: composition, page contents, degenerate splits *)

Section MergeSplitExtras.
Import PdfLib PdfService.

(** X6.  Merging is associative on the pages: merging [A] with [B] and
    the result with [C], or [A] with the merge of [B] and [C], both succeed
    and both give a document that holds the pages of [A], of [B] and of
    [C], in this order. *)
Theorem mergePdfs_assoc (a b c : Uint8Array) (A B C : list PDFPage) :
  decode a = Some A -> decode b = Some B -> decode c = Some C ->
  exists ab bc leftFirst rightFirst,
    mergePdfs a b = Ok ab /\ mergePdfs b c = Ok bc
    /\ mergePdfs ab c = Ok leftFirst /\ mergePdfs a bc = Ok rightFirst
    /\ decode leftFirst = Some (A ++ B ++ C)
    /\ decode rightFirst = Some (A ++ B ++ C).
Proof.
  intros HA HB HC.
  pose proof (decode_nonempty _ _ HA) as HAne.
  pose proof (decode_nonempty _ _ HB) as HBne.
  assert (Hab : decode (save (A ++ B)) = Some (A ++ B)).
  { apply decode_save. destruct A; [congruence | discriminate]. }
  assert (Hbc : decode (save (B ++ C)) = Some (B ++ C)).
  { apply decode_save. destruct B; [congruence | discriminate]. }
  assert (Habc : decode (save (A ++ B ++ C)) = Some (A ++ B ++ C)).
  { apply decode_save. destruct A; [congruence | discriminate]. }
  exists (save (A ++ B)), (save (B ++ C)), (save ((A ++ B) ++ C)), (save (A ++ B ++ C)).
  split; [apply mergePdfs_decoded; assumption|].
  split; [apply mergePdfs_decoded; assumption|].
  split; [apply (mergePdfs_decoded _ _ _ _ Hab HC)|].
  split; [apply (mergePdfs_decoded _ _ _ _ HA Hbc)|].
  split; [rewrite <- app_assoc; exact Habc | exact Habc].
Qed.

Lemma mergePdfs_assoc_witness :
  exists ab bc leftFirst rightFirst,
    mergePdfs (PdfFile (blankPage 1) []) (PdfFile (blankPage 2) []) = Ok ab
    /\ mergePdfs (PdfFile (blankPage 2) []) (PdfFile (blankPage 3) []) = Ok bc
    /\ mergePdfs ab (PdfFile (blankPage 3) []) = Ok leftFirst
    /\ mergePdfs (PdfFile (blankPage 1) []) bc = Ok rightFirst
    /\ decode leftFirst = Some [blankPage 1; blankPage 2; blankPage 3]
    /\ decode rightFirst = Some [blankPage 1; blankPage 2; blankPage 3].
Proof.
  exact (mergePdfs_assoc (PdfFile (blankPage 1) []) (PdfFile (blankPage 2) [])
           (PdfFile (blankPage 3) []) [blankPage 1] [blankPage 2] [blankPage 3]
           eq_refl eq_refl eq_refl).
Defined.

(** X7.  Splitting keeps the pages and their order: for
    [0 <= afterPageIndex <= p - 2], page [i] of the first part is page [i]
    of the document for [i <= afterPageIndex], and page [j] of the second
    part is page [afterPageIndex + 1 + j] of the document. *)
Theorem splitPdf_pages (buffer : Uint8Array) (D : list PDFPage) (afterPageIndex : Z) :
  decode buffer = Some D ->
  0 <= afterPageIndex <= Z.of_nat (length D) - 2 ->
  exists parts D1 D2,
    splitPdf buffer afterPageIndex = Ok parts
    /\ decode (part1 parts) = Some D1 /\ decode (part2 parts) = Some D2
    /\ D1 ++ D2 = D
    /\ (forall i : nat, Z.of_nat i <= afterPageIndex -> D1 !! i = D !! i)
    /\ (forall j : nat, D2 !! j = D !! (Z.to_nat (afterPageIndex + 1) + j)%nat).
Proof.
  intros HD Hk. set (n := Z.to_nat (afterPageIndex + 1)).
  exists {| part1 := save (take n D); part2 := save (drop n D) |}, (take n D), (drop n D).
  split; [apply splitPdf_decoded; [exact HD | lia]|]. cbn [part1 part2].
  split; [|split; [|split; [apply take_drop|split]]].
  - apply decode_save. intros E. apply (f_equal length) in E.
    rewrite length_take in E. cbn in E. lia.
  - apply decode_save. intros E. apply (f_equal length) in E.
    rewrite length_drop in E. cbn in E. lia.
  - intros i Hi. apply lookup_take_lt. lia.
  - intros j. apply lookup_drop.
Qed.

Lemma splitPdf_pages_witness :
  exists parts D1 D2,
    splitPdf (PdfFile (blankPage 1) [blankPage 2; blankPage 3]) 0 = Ok parts
    /\ decode (part1 parts) = Some D1 /\ decode (part2 parts) = Some D2
    /\ D1 ++ D2 = [blankPage 1; blankPage 2; blankPage 3].
Proof.
  destruct (splitPdf_pages (PdfFile (blankPage 1) [blankPage 2; blankPage 3])
              [blankPage 1; blankPage 2; blankPage 3] 0 eq_refl)
    as (parts & D1 & D2 & Hs & H1 & H2 & Happ & _); [cbn; lia|].
  exists parts, D1, D2. repeat split; assumption.
Defined.

(** X8.  The two degenerate splits do not fail.  Splitting after the last
    page returns the whole document as first part and a document made of one
    blank default (A4) page as second part; splitting at [-1] returns that
    blank document as first part and the whole document as second part. *)
Theorem splitPdf_degenerate (buffer : Uint8Array) (D : list PDFPage) :
  decode buffer = Some D ->
  splitPdf buffer (Z.of_nat (length D) - 1)
    = Ok {| part1 := buffer; part2 := PdfFile defaultPage [] |}
  /\ splitPdf buffer (-1)
     = Ok {| part1 := PdfFile defaultPage []; part2 := buffer |}.
Proof.
  intros HD. destruct buffer as [first rest|]; [|discriminate]. injection HD as <-.
  split.
  - rewrite (splitPdf_decoded _ (first :: rest)) by (try reflexivity; cbn [length]; lia).
    replace (Z.to_nat (Z.of_nat (length (first :: rest)) - 1 + 1))
      with (length (first :: rest)) by lia.
    rewrite firstn_all, drop_all. reflexivity.
  - rewrite (splitPdf_decoded _ (first :: rest)) by (try reflexivity; cbn [length]; lia).
    reflexivity.
Qed.

Lemma splitPdf_degenerate_witness :
  splitPdf (PdfFile (blankPage 1) [blankPage 2]) 1
  = Ok {| part1 := PdfFile (blankPage 1) [blankPage 2]; part2 := PdfFile defaultPage [] |}.
Proof.
  exact (proj1 (splitPdf_degenerate (PdfFile (blankPage 1) [blankPage 2])
                  [blankPage 1; blankPage 2] eq_refl)).
Defined.

End MergeSplitExtras.

(** ** sanitizeFileName and file names taken from paths *)

Section HelpersFacts.
Import Helpers.

Lemma replaceDotDot_cons2 (c d : N) (rest : JsString) :
  replaceDotDot (c :: d :: rest)
  = if (c =? DOT)%N && (d =? DOT)%N then UNDERSCORE :: replaceDotDot rest
    else c :: replaceDotDot (d :: rest).
Proof. reflexivity. Qed.

Lemma replaceDotDot_head (c : N) (rest : JsString) :
  exists tail, replaceDotDot (c :: rest) = c :: tail
               \/ replaceDotDot (c :: rest) = UNDERSCORE :: tail.
Proof.
  destruct rest as [|d rest']; [exists []; left; reflexivity|].
  rewrite replaceDotDot_cons2. destruct ((c =? DOT)%N && (d =? DOT)%N).
  - eexists. right. reflexivity.
  - eexists. left. reflexivity.
Qed.

Lemma containsDotDot_cons (c : N) (l : JsString) :
  containsDotDot (c :: l)
  = match l with
    | d :: _ => ((c =? DOT)%N && (d =? DOT)%N) || containsDotDot l
    | [] => false
    end.
Proof. destruct l; reflexivity. Qed.

Lemma replaceDotDot_clean_bounded (n : nat) :
  forall name : JsString, (length name <= n)%nat ->
  containsDotDot (replaceDotDot name) = false.
Proof.
  induction n as [|n IH]; intros name Hlen.
  - destruct name; [reflexivity | cbn in Hlen; lia].
  - destruct name as [|c [|d rest']]; [reflexivity | reflexivity |].
    cbn [length] in Hlen. rewrite replaceDotDot_cons2.
    destruct ((c =? DOT)%N && (d =? DOT)%N) eqn:Hcd.
    + rewrite containsDotDot_cons.
      pose proof (IH rest' ltac:(lia)) as Hrest.
      destruct (replaceDotDot rest'); [reflexivity|]. rewrite Hrest. reflexivity.
    + rewrite containsDotDot_cons.
      pose proof (IH (d :: rest') ltac:(cbn [length]; lia)) as Hrest.
      destruct (replaceDotDot_head d rest') as (tail & [E|E]); rewrite E in *;
        rewrite Hrest, orb_false_r.
      * exact Hcd.
      * destruct (c =? DOT)%N; reflexivity.
Qed.

Lemma replaceDotDot_clean (name : JsString) :
  containsDotDot (replaceDotDot name) = false.
Proof. apply (replaceDotDot_clean_bounded (length name)). lia. Qed.

Lemma replaceForbidden_keeps_clean (name : JsString) :
  containsDotDot name = false -> containsDotDot (replaceForbidden name) = false.
Proof.
  unfold replaceForbidden. induction name as [|c [|d rest] IH]; intros H;
    [reflexivity | reflexivity |].
  rewrite containsDotDot_cons in H. apply orb_false_iff in H as [Hcd Hrest].
  specialize (IH Hrest). rewrite !fmap_cons in *. rewrite containsDotDot_cons, IH, orb_false_r.
  destruct (isForbidden c) eqn:Fc; [reflexivity|].
  destruct (isForbidden d) eqn:Fd; [apply andb_false_r | exact Hcd].
Qed.

Lemma take_keeps_clean (n : nat) (name : JsString) :
  containsDotDot name = false -> containsDotDot (take n name) = false.
Proof.
  revert name. induction n as [|n IH]; intros name H; [reflexivity|].
  destruct name as [|c [|d rest]]; [reflexivity | destruct n; reflexivity |].
  rewrite containsDotDot_cons in H. apply orb_false_iff in H as [Hcd Hrest].
  specialize (IH (d :: rest) Hrest). cbn [take] in *.
  destruct n; [reflexivity|]. cbn [take] in *.
  rewrite containsDotDot_cons, IH, orb_false_r. exact Hcd.
Qed.

Lemma replaceForbidden_allowed (name : JsString) :
  Forall (fun c => isForbidden c = false) (replaceForbidden name).
Proof.
  unfold replaceForbidden. apply Forall_fmap, Forall_forall. intros c _. cbn.
  destruct (isForbidden c) eqn:F; [reflexivity | exact F].
Qed.

Lemma sanitizeFileName_allowed (name : JsString) :
  Forall (fun c => isForbidden c = false) (sanitizeFileName name).
Proof. apply Forall_take, replaceForbidden_allowed. Qed.

Lemma sanitizeFileName_clean (name : JsString) :
  containsDotDot (sanitizeFileName name) = false.
Proof. apply take_keeps_clean, replaceForbidden_keeps_clean, replaceDotDot_clean. Qed.

Lemma sanitizeFileName_length (name : JsString) :
  (length (sanitizeFileName name) <= 200)%nat.
Proof. unfold sanitizeFileName. rewrite length_take. lia. Qed.

(** X9.  Whatever the name, the result of [sanitizeFileName] has at most 200
    characters, holds none of [<], [>], [:], the double quote, [/], the
    backslash, [|], [?], [*], no control character, and never two dots in a row: it cannot name a parent
    directory or a path. *)
Theorem sanitizeFileName_safe (name : JsString) :
  (length (sanitizeFileName name) <= 200)%nat
  /\ Forall (fun c => isForbidden c = false) (sanitizeFileName name)
  /\ Forall (fun c => isSeparator c = false) (sanitizeFileName name)
  /\ containsDotDot (sanitizeFileName name) = false.
Proof.
  split; [apply sanitizeFileName_length|].
  pose proof (sanitizeFileName_allowed name) as Hall.
  split; [exact Hall|]. split.
  - eapply Forall_impl; [exact Hall|]. intros c Hc. cbn beta in Hc.
    unfold isForbidden, isSeparator in *. apply orb_false_iff in Hc as [_ Hc].
    cbn [existsb] in Hc.
    destruct (c =? 92)%N eqn:E1; [rewrite (proj1 (N.eqb_eq _ _) E1) in Hc; discriminate Hc|].
    destruct (c =? 47)%N eqn:E2; [rewrite (proj1 (N.eqb_eq _ _) E2) in Hc; discriminate Hc|].
    reflexivity.
  - apply sanitizeFileName_clean.
Qed.

Lemma replaceDotDot_id_bounded (n : nat) :
  forall name : JsString, (length name <= n)%nat ->
  containsDotDot name = false -> replaceDotDot name = name.
Proof.
  induction n as [|n IH]; intros name Hlen H.
  - destruct name; [reflexivity | cbn in Hlen; lia].
  - destruct name as [|c [|d rest']]; [reflexivity | reflexivity |].
    rewrite containsDotDot_cons in H. apply orb_false_iff in H as [Hcd Hrest].
    rewrite replaceDotDot_cons2, Hcd. f_equal.
    apply IH; [cbn [length] in *; lia | exact Hrest].
Qed.

Lemma replaceForbidden_id (name : JsString) :
  Forall (fun c => isForbidden c = false) name -> replaceForbidden name = name.
Proof.
  unfold replaceForbidden. induction 1 as [|c l Hc Hl IHl]; [reflexivity|].
  rewrite fmap_cons, Hc, IHl. reflexivity.
Qed.

(** X10.  [sanitizeFileName] leaves a name unchanged when it has at most 200
    characters, no forbidden character and no two dots in a row; hence
    sanitising twice is the same as sanitising once. *)
Theorem sanitizeFileName_idempotent (name : JsString) :
  ((length name <= 200)%nat ->
   Forall (fun c => isForbidden c = false) name ->
   containsDotDot name = false ->
   sanitizeFileName name = name)
  /\ sanitizeFileName (sanitizeFileName name) = sanitizeFileName name.
Proof.
  assert (Hid : forall s : JsString,
            (length s <= 200)%nat -> Forall (fun c => isForbidden c = false) s ->
            containsDotDot s = false -> sanitizeFileName s = s).
  { intros s Hlen Hall Hdd. unfold sanitizeFileName.
    rewrite (replaceDotDot_id_bounded (length s)) by (try exact Hdd; lia).
    rewrite (replaceForbidden_id s Hall). apply take_ge. exact Hlen. }
  split; [apply Hid|].
  apply Hid; [apply sanitizeFileName_length | apply sanitizeFileName_allowed
             | apply sanitizeFileName_clean].
Qed.

Lemma sanitizeFileName_idempotent_witness :
  sanitizeFileName (js "rapport-2024.pdf") = js "rapport-2024.pdf".
Proof.
  apply (proj1 (sanitizeFileName_idempotent (js "rapport-2024.pdf")));
    [vm_compute; lia | | reflexivity].
  vm_compute. repeat constructor.
Defined.

(** The cases of the test suite. *)
Example sanitizeFileName_tests :
  sanitizeFileName (js "../../etc/passwd") = js "____etc_passwd"
  /\ sanitizeFileName (js "file<>:" ++ [34%N] ++ js "/\|?*.txt") = js "file_________.txt"
  /\ sanitizeFileName ([0%N] ++ js "name" ++ [31%N]) = js "_name_"
  /\ length (sanitizeFileName (replicate 300 97%N)) = 200%nat
  /\ sanitizeFileName (js "...") = js "_.".
Proof. vm_compute. repeat split. Qed.

Lemma splitPath_last (path : JsString) :
  exists segments segment prefix,
    splitPath path = segments ++ [segment]
    /\ Forall (fun c => isSeparator c = false) segment
    /\ path = prefix ++ segment
    /\ (segments = [] -> prefix = [])
    /\ (segments <> [] -> exists before c, prefix = before ++ [c] /\ isSeparator c = true).
Proof.
  induction path as [|c rest (segments & segment & prefix & Hs & Hseg & Hp & Hnil & Hcons)].
  - exists [], [], []. repeat split; [constructor | congruence].
  - cbn [splitPath]. destruct (isSeparator c) eqn:Hc.
    + exists ([] :: segments), segment, (c :: prefix). rewrite Hs, Hp.
      split; [reflexivity|]. split; [exact Hseg|]. split; [reflexivity|].
      split; [discriminate|]. intros _.
      destruct segments as [|s ss].
      * rewrite (Hnil eq_refl). exists [], c. split; [reflexivity | exact Hc].
      * destruct (Hcons ltac:(discriminate)) as (before & c' & -> & Hc').
        exists (c :: before), c'. split; [reflexivity | exact Hc'].
    + rewrite Hs. destruct segments as [|s ss]; cbn [app].
      * exists [], (c :: segment), []. rewrite Hp, (Hnil eq_refl).
        split; [reflexivity|]. split; [constructor; assumption|].
        split; [reflexivity|]. split; [reflexivity | congruence].
      * exists ((c :: s) :: ss), segment, (c :: prefix). rewrite Hp.
        split; [reflexivity|]. split; [exact Hseg|]. split; [reflexivity|].
        split; [discriminate|]. intros _.
        destruct (Hcons ltac:(discriminate)) as (before & c' & -> & Hc').
        exists (c :: before), c'. split; [reflexivity | exact Hc'].
Qed.

(** X11.  The file name taken from a path is what follows the last [/] or
    [\] of the path (the whole path when it has none) and holds no
    separator; the fallback is returned when that part is empty (empty path,
    path ending in a separator) or when there is no path. *)
Theorem fileNameOr_last_segment (fallback path : JsString) :
  fileNameOr fallback None = fallback
  /\ exists prefix segment,
       path = prefix ++ segment
       /\ Forall (fun c => isSeparator c = false) segment
       /\ (prefix = [] \/ exists before c, prefix = before ++ [c] /\ isSeparator c = true)
       /\ fileNameOr fallback (Some path)
          = match segment with [] => fallback | _ => segment end.
Proof.
  split; [reflexivity|].
  destruct (splitPath_last path) as (segments & segment & prefix & Hs & Hseg & Hp & Hnil & Hcons).
  exists prefix, segment. split; [exact Hp|]. split; [exact Hseg|]. split.
  - destruct segments; [left; apply Hnil; reflexivity | right; apply Hcons; discriminate].
  - unfold fileNameOr. rewrite Hs, last_snoc. destruct segment; reflexivity.
Qed.

Example fileNameOr_tests :
  fileNameOr (js "inconnu") (Some (js "C:\docs\rapport.pdf")) = js "rapport.pdf"
  /\ fileNameOr (js "inconnu") (Some (js "/some/file")) = js "file"
  /\ fileNameOr (js "inconnu") (Some (js "/some/dir/")) = js "inconnu"
  /\ fileNameOr (js "document") (Some (js "plain.pdf")) = js "plain.pdf".
Proof. vm_compute. repeat split. Qed.

End HelpersFacts.

(** ** convertImageToPdf: the image fits the page *)

Section ImageLayoutFacts.
Import ImageLayout.
Local Open Scope Q_scope.

Lemma Qhalf (x : Q) : x / 2 == x * (1 # 2).
Proof. field. Qed.

Lemma scale_to_fit (pw ph iw ih : Q) :
  0 < pw -> 0 < ph -> 0 < iw -> 0 < ih ->
  let scale := Qmin (pw / iw) (ph / ih) in
  0 < scale /\ iw * scale <= pw /\ ih * scale <= ph
  /\ (iw * scale == pw \/ ih * scale == ph).
Proof.
  intros Hpw Hph Hiw Hih scale.
  assert (Ha : iw * (pw / iw) == pw) by (field; apply Qpos_nonzero, Hiw).
  assert (Hb : ih * (ph / ih) == ph) by (field; apply Qpos_nonzero, Hih).
  assert (Hapos : 0 < pw / iw) by (apply Qlt_shift_div_l; [exact Hiw | lra]).
  assert (Hbpos : 0 < ph / ih) by (apply Qlt_shift_div_l; [exact Hih | lra]).
  destruct (Q.min_spec (pw / iw) (ph / ih)) as [[Hlt Hmin]|[Hle Hmin]];
    fold scale in Hmin.
  - split; [rewrite Hmin; exact Hapos|]. split; [rewrite Hmin, Ha; apply Qle_refl|].
    split; [|left; rewrite Hmin; exact Ha].
    rewrite Hmin, <- Hb. apply Qmult_le_l; [exact Hih | apply Qlt_le_weak, Hlt].
  - split; [rewrite Hmin; exact Hbpos|]. split; [|split; [rewrite Hmin, Hb; apply Qle_refl|]].
    + rewrite Hmin, <- Ha. apply Qmult_le_l; [exact Hiw | exact Hle].
    + right. rewrite Hmin. exact Hb.
Qed.

(** X12.  For an image of positive size, [convertImageToPdf] makes an A4
    page, landscape exactly when the image is strictly wider than high, and
    draws the image inside the page: scaled with its aspect ratio kept,
    centred in both directions, and touching the page border in at least
    one direction. *)
Theorem imageLayout_fits (imgW imgH : Q) :
  0 < imgW -> 0 < imgH ->
  let l := imageLayout imgW imgH in
  ((imgH < imgW /\ pageW l = A4_H /\ pageH l = A4_W)
   \/ (imgW <= imgH /\ pageW l = A4_W /\ pageH l = A4_H))
  /\ 0 <= imageX l /\ 0 <= imageY l
  /\ imageX l + drawW l <= pageW l /\ imageY l + drawH l <= pageH l
  /\ imageX l + drawW l + imageX l == pageW l
  /\ imageY l + drawH l + imageY l == pageH l
  /\ drawW l * imgH == drawH l * imgW
  /\ (drawW l == pageW l \/ drawH l == pageH l).
Proof.
  intros Hw Hh l.
  assert (Hfit : forall pw ph, 0 < pw -> 0 < ph ->
            let scale := Qmin (pw / imgW) (ph / imgH) in
            0 <= (pw - imgW * scale) / 2 /\ 0 <= (ph - imgH * scale) / 2
            /\ (pw - imgW * scale) / 2 + imgW * scale <= pw
            /\ (ph - imgH * scale) / 2 + imgH * scale <= ph
            /\ (pw - imgW * scale) / 2 + imgW * scale + (pw - imgW * scale) / 2 == pw
            /\ (ph - imgH * scale) / 2 + imgH * scale + (ph - imgH * scale) / 2 == ph
            /\ imgW * scale * imgH == imgH * scale * imgW
            /\ (imgW * scale == pw \/ imgH * scale == ph)).
  { intros pw ph Hpw Hph scale.
    destruct (scale_to_fit pw ph imgW imgH Hpw Hph Hw Hh) as (_ & H1 & H2 & H3).
    fold scale in H1, H2, H3.
    split; [|split; [|split; [|split; [|split; [|split; [|split]]]]]];
      try exact H3; try ring.
    all: set (a := imgW * scale) in *; set (b := imgH * scale) in *;
      rewrite !Qhalf; lra. }
  unfold l, imageLayout. cbn [pageW pageH imageX imageY drawW drawH].
  destruct (Qle_bool imgW imgH) eqn:Hle; cbn [negb].
  - split; [right; split; [apply Qle_bool_iff, Hle | split; reflexivity]|].
    apply Hfit; reflexivity.
  - split; [left; split; [apply Qle_bool_false, Hle | split; reflexivity]|].
    apply Hfit; reflexivity.
Qed.

Lemma imageLayout_fits_witness :
  let l := imageLayout 4000 3000 in
  pageW l = A4_H /\ pageH l = A4_W /\ drawW l * 3000 == drawH l * 4000.
Proof.
  destruct (imageLayout_fits 4000 3000) as ([(_ & Hw & Hh)|(Hle & _)] & _ & _ & _ & _ & _ & _ & Ha & _);
    try reflexivity.
  - split; [exact Hw|]. split; [exact Hh | exact Ha].
  - exfalso. vm_compute in Hle. apply Hle. reflexivity.
Defined.

End ImageLayoutFacts.

(** ** Curved text: canvas and PDF agree, the fitted text stays on its arc *)

Section CurvedTextFacts.
Import ArcTextLayout CurvedText.
Local Open Scope Q_scope.

Lemma sweepUp_sweepDown_mirrored (PI radius spacing : Q) (glyphs : list (ascii * Q)) :
  forall a b : Q, a == - b ->
  Forall2 mirrored
    (sweepUp (fun x => x + PI / 2) radius spacing glyphs a)
    (sweepDown (fun x => x - PI / 2) radius spacing glyphs b).
Proof.
  induction glyphs as [|[c w] rest IH]; intros a b Hab; [constructor|].
  cbn [sweepUp sweepDown]. constructor.
  - split; [reflexivity|].
    split; cbn [glyphAngle glyphRotation]; rewrite Hab; unfold Qdiv; ring.
  - apply IH. rewrite Hab. unfold Qdiv. ring.
Qed.

Lemma sweepDown_sweepUp_mirrored (PI radius spacing : Q) (glyphs : list (ascii * Q)) :
  forall a b : Q, a == - b ->
  Forall2 mirrored
    (sweepDown (fun x => x - PI / 2) radius spacing glyphs a)
    (sweepUp (fun x => x + PI / 2) radius spacing glyphs b).
Proof.
  induction glyphs as [|[c w] rest IH]; intros a b Hab; [constructor|].
  cbn [sweepUp sweepDown]. constructor.
  - split; [reflexivity|].
    split; cbn [glyphAngle glyphRotation]; rewrite Hab; unfold Qdiv; ring.
  - apply IH. rewrite Hab. unfold Qdiv. ring.
Qed.

(** X13.  The canvas preview and the PDF page lay a curved text out as
    mirror images of each other (the canvas has its y axis pointing down):
    for the same text, font size, radius and glyph widths, and for the top
    text as for the bottom text, the two lists have the same characters in
    the same order, and each canvas glyph sits at the opposite angle of the
    PDF glyph and is rotated by the opposite rotation. *)
Theorem drawCurvedText_canvas_mirrors_pdf (PI : Q) (ctx : CanvasRenderingContext2D)
    (text : string) (fontSize radius : Q) (isTop : bool) :
  Forall2 mirrored
    (drawCurvedTextOnCanvas PI ctx text radius fontSize isTop)
    (drawCurvedText PI (fontOfCanvas ctx) text fontSize radius isTop).
Proof.
  unfold drawCurvedTextOnCanvas, drawCurvedText. cbv zeta.
  change (fun c => measureText (setFont ctx fontSize) c)
    with (fun c => widthOfTextAtSize (fontOfCanvas ctx) c fontSize).
  destruct isTop.
  - apply sweepUp_sweepDown_mirrored. unfold Qdiv. ring.
  - apply sweepDown_sweepUp_mirrored. unfold Qdiv. ring.
Qed.

Lemma reduce_plus_map (f : ascii -> Q) (cs : list ascii) (a : Q) :
  fold_left Qplus (f <$> cs) a = fold_left (fun sum c => sum + f c) cs a.
Proof.
  revert a. induction cs as [|c cs IH]; intros a; [reflexivity|].
  rewrite fmap_cons. cbn [fold_left]. apply IH.
Qed.

Lemma drawnAngle_totalAngle (font : PDFFont) (text : string) (fontSize radius : Q) :
  drawnAngle font text fontSize radius = totalAngle font (chars text) radius fontSize.
Proof.
  unfold drawnAngle, totalAngle, totalWidthOf, totalWidth, spacingOf.
  now rewrite reduce_plus_map, length_fmap.
Qed.

(** X14.  The fit and the drawing agree: if the text fits the angular span
    at one of the 20 candidate sizes [maxFontSize * 0.9^i], [i < 20], then
    at the size returned by [fitFontSize] the arc over which
    [drawCurvedText] spreads the text is at most [maxAngle].  (When no
    candidate fits, nothing is promised: the text is drawn at
    [maxFontSize * 0.9^20].) *)
Theorem fitFontSize_drawn_within_span (font : PDFFont) (text : string)
    (maxFontSize radius maxAngle : Q) (i : nat) :
  (i < 20)%nat ->
  totalAngle font (chars text) radius (shrink i maxFontSize) <= maxAngle ->
  drawnAngle font text (fitFontSize font text maxFontSize radius maxAngle) radius
  <= maxAngle.
Proof.
  intros Hi Hfits. rewrite drawnAngle_totalAngle. unfold fitFontSize.
  destruct (fitLoop_spec font (chars text) radius maxAngle maxAttempts maxFontSize)
    as (k & Hk & -> & _ & Hfail & Hpass).
  change maxAttempts with 20%nat in *.
  destruct (Nat.lt_ge_cases k 20) as [Hlt|Hge].
  - apply Qle_bool_iff, Hpass, Hlt.
  - exfalso. assert (Hik : (i < k)%nat) by lia.
    specialize (Hfail i Hik). apply Qle_bool_false in Hfail.
    exact (Qlt_not_le _ _ Hfail Hfits).
Qed.

Lemma fitFontSize_drawn_within_span_witness :
  drawnAngle (uniformFont 0.5) "MAITRE DUPONT"
    (fitFontSize (uniformFont 0.5) "MAITRE DUPONT" 12 40 2) 40 <= 2.
Proof.
  apply (fitFontSize_drawn_within_span (uniformFont 0.5) "MAITRE DUPONT" 12 40 2 2);
    [lia | vm_compute; discriminate].
Defined.

Lemma reduce_plus_shift (l : list Q) (a : Q) :
  fold_left Qplus l a == a + fold_left Qplus l 0.
Proof.
  revert a. induction l as [|w l IH]; intros a; cbn [fold_left]; [ring|].
  rewrite (IH (a + w)), (IH (0 + w)). ring.
Qed.

(** The angles of a downward sweep started at [start] stay between
    [start] minus the swept angle and [start]. *)
Lemma sweepDown_bounds (rot : Q -> Q) (radius spacing : Q) (glyphs : list (ascii * Q)) :
  0 < radius -> 0 <= spacing -> Forall (fun g => 0 <= snd g) glyphs ->
  forall start : Q,
  Forall (fun g =>
            start - (fold_left Qplus (snd <$> glyphs) 0
                     + spacing * inject_Z (Z.of_nat (length glyphs))) / radius
            <= glyphAngle g <= start)
         (sweepDown rot radius spacing glyphs start).
Proof.
  intros Hr Hsp Hw. induction Hw as [|[c w] rest Hc Hrest IH]; intros start;
    [constructor|].
  cbn [snd] in Hc. cbn [sweepDown]. rewrite fmap_cons. cbn [fold_left snd length].
  set (total := fold_left Qplus (snd <$> rest) 0) in *.
  set (n := inject_Z (Z.of_nat (length rest))) in *.
  assert (Hn : 0 <= n).
  { unfold n. change (inject_Z 0 <= inject_Z (Z.of_nat (length rest))).
    rewrite <- Zle_Qle. lia. }
  assert (Htot : 0 <= total).
  { unfold total. clear -Hrest. induction Hrest as [|[c' w'] l Hw' Hl IHl]; [apply Qle_refl|].
    rewrite fmap_cons. cbn [fold_left snd]. rewrite reduce_plus_shift.
    cbn [snd] in Hw'. lra. }
  assert (Hsum : (fold_left Qplus (snd <$> rest) (0 + w)
                  + spacing * inject_Z (Z.of_nat (S (length rest)))) / radius
                 == (w + spacing) / radius + (total + spacing * n) / radius).
  { rewrite reduce_plus_shift. fold total.
    replace (inject_Z (Z.of_nat (S (length rest)))) with (inject_Z (Z.of_nat (length rest) + 1))
      by (f_equal; lia).
    rewrite inject_Z_plus. fold n. field. apply Qpos_nonzero, Hr. }
  assert (Hstep : 0 <= (w + spacing) / radius)
    by (apply Qle_shift_div_l; [exact Hr | lra]).
  assert (Hrest' : 0 <= (total + spacing * n) / radius)
    by (apply Qle_shift_div_l; [exact Hr | nra]).
  set (step := (w + spacing) / radius) in *.
  set (restAngle := (total + spacing * n) / radius) in *.
  constructor.
  - cbn [glyphAngle]. rewrite Hsum, !Qhalf. split; lra.
  - eapply Forall_impl; [apply (IH (start - step / 2 - step / 2))|].
    intros g [Hlo Hhi]. cbn beta. rewrite Hsum. fold restAngle in Hlo.
    rewrite !Qhalf in Hlo, Hhi. split; lra.
Qed.

Lemma sweepDown_chars (rot : Q -> Q) (radius spacing : Q) (glyphs : list (ascii * Q)) :
  forall start, glyphChar <$> sweepDown rot radius spacing glyphs start = fst <$> glyphs.
Proof.
  induction glyphs as [|[c w] rest IH]; intros start; [reflexivity|].
  cbn [sweepDown]. rewrite !fmap_cons, IH. reflexivity.
Qed.

(** X15.  The top text of a PDF stamp stays on its arc.  For a positive
    radius, a non-negative font size and non-negative glyph widths,
    [drawCurvedText] places one glyph per character, in the order of the
    text, and the centre of every glyph lies between [PI/2 + T/2] and
    [PI/2 - T/2 - spacing/radius], where [T] is the angle the text is spread
    over and [spacing = 0.08 * fontSize]. *)
Theorem drawCurvedText_top_on_arc (PI : Q) (font : PDFFont) (text : string)
    (fontSize radius : Q) :
  0 < radius -> 0 <= fontSize ->
  (forall c, 0 <= widthOfTextAtSize font c fontSize) ->
  let glyphs := drawCurvedText PI font text fontSize radius true in
  let T := drawnAngle font text fontSize radius in
  glyphChar <$> glyphs = chars text
  /\ Forall (fun g =>
               PI / 2 - T / 2 - fontSize * 0.08 / radius <= glyphAngle g
               <= PI / 2 + T / 2) glyphs.
Proof.
  intros Hr Hfs Hw glyphs T. unfold glyphs, drawCurvedText. cbv zeta.
  set (cs := chars text).
  set (widths := (fun c => widthOfTextAtSize font c fontSize) <$> cs).
  assert (Hlen : length widths = length cs) by apply length_fmap.
  split.
  - rewrite sweepDown_chars. apply fst_zip. lia.
  - assert (Hsp : 0 <= fontSize * 0.08) by lra.
    assert (Hall : Forall (fun g : ascii * Q => 0 <= snd g) (zip cs widths)).
    { apply Forall_forall. intros [c w] Hin. cbn [snd].
      apply elem_of_zip_r in Hin. unfold widths in Hin.
      apply list_elem_of_fmap in Hin as (c' & -> & _). apply Hw. }
    pose proof (sweepDown_bounds (fun a => a - PI / 2) radius (fontSize * 0.08)
                  (zip cs widths) Hr Hsp Hall
                  (PI / 2 + totalWidthOf widths (fontSize * 0.08) / radius / 2)) as Hb.
    eapply Forall_impl; [exact Hb|]. intros g [Hlo Hhi]. cbn beta.
    unfold T, drawnAngle. fold cs. fold widths.
    rewrite snd_zip, length_zip in Hlo by lia.
    replace (length cs `min` length widths)%nat with (length widths) in Hlo by lia.
    split; [|exact Hhi].
    eapply Qle_trans; [|exact Hlo]. unfold totalWidthOf.
    set (sum := fold_left Qplus widths 0). set (n := inject_Z (Z.of_nat (length widths))).
    apply Qle_minus_iff.
    match goal with |- 0 <= ?e => setoid_replace e with 0 using relation Qeq end;
      [apply Qle_refl|].
    field. apply Qpos_nonzero, Hr.
Qed.

Lemma drawCurvedText_top_on_arc_witness :
  glyphChar <$> drawCurvedText 3.14 (uniformFont 0.5) "ME" 10 40 true = chars "ME".
Proof.
  apply (drawCurvedText_top_on_arc 3.14 (uniformFont 0.5) "ME" 10 40);
    [reflexivity | discriminate | intros c; discriminate].
Defined.

End CurvedTextFacts.

(** ** The persisted configuration *)

Section ConfigStoreFacts.
Import ConfigStore.

Lemma spread_stringified (base config : StampAppConfig) :
  spread base (stringified config) = config.
Proof. destruct config. reflexivity. Qed.

(** What was written is what is read, and the array read is a fresh one. *)
Lemma readFromDisk_writeToDisk (st : Store) (config : StampAppConfig) :
  readFromDisk (writeToDisk st config) = (config, false).
Proof.
  unfold readFromDisk, writeToDisk. cbn [file].
  rewrite spread_stringified. reflexivity.
Qed.

(** The list that [saveStamp] ends with, given the list it starts from. *)
Lemma saveStamp_savedStamps (stamp : SavedStamp) (st : Store) :
  getSavedStamps (saveStamp stamp st)
  = match findIndexById (id stamp) (getSavedStamps st) with
    | Some idx => <[idx := stamp]> (getSavedStamps st)
    | None => getSavedStamps st ++ [stamp]
    end.
Proof.
  unfold getSavedStamps, saveStamp.
  destruct (readFromDisk st) as [config shared]. cbn [fst].
  rewrite readFromDisk_writeToDisk. reflexivity.
Qed.



Lemma filter_other_ids_all (stampId : string) (stamps : list SavedStamp) :
  Forall (fun s => id s <> stampId) stamps ->
  filter (fun s => id s <> stampId) stamps = stamps.
Proof.
  induction 1 as [|s l Hs Hl IH]; [reflexivity|].
  rewrite filter_cons_True by exact Hs. now rewrite IH.
Qed.

Lemma findIndexById_new (stampId : string) (stamps : list SavedStamp) :
  Forall (fun s => id s <> stampId) stamps -> findIndexById stampId stamps = None.
Proof.
  intros H. unfold findIndexById.
  destruct (list_find _ stamps) as [[i old]|] eqn:E; [|reflexivity].
  apply list_find_Some in E as (Hl & Hid & _). rewrite Forall_forall in H.
  exfalso. apply (H old); [eapply list_elem_of_lookup_2; exact Hl | exact Hid].
Qed.


Lemma deleteStamp_savedStamps (stampId : string) (st : Store) :
  getSavedStamps (deleteStamp stampId st)
  = filter (fun s => id s <> stampId) (getSavedStamps st).
Proof.
  unfold getSavedStamps, deleteStamp. rewrite readFromDisk_writeToDisk. reflexivity.
Qed.

Lemma getConfig_setConfig_spread (partial : PartialConfig) (st : Store) :
  getConfig (setConfig partial st) = spread (getConfig st) partial.
Proof.
  unfold getConfig, setConfig. rewrite readFromDisk_writeToDisk. reflexivity.
Qed.



(** X17.  After [deleteStamp(id)] no saved stamp has that id, the other
    stamps are kept in their order, the active stamp is reset to [null]
    exactly when it was the deleted one, and the other settings are
    untouched. *)
Theorem deleteStamp_removes (stampId : string) (st : Store) :
  let before := getConfig st in
  let after := getConfig (deleteStamp stampId st) in
  savedStamps after = filter (fun s => id s <> stampId) (savedStamps before)
  /\ Forall (fun s => id s <> stampId) (savedStamps after)
  /\ activeStampId after
     = (if decide (activeStampId before = Some stampId) then None
        else activeStampId before)
  /\ cfgLawyerName after = cfgLawyerName before
  /\ cfgBottomText after = cfgBottomText before
  /\ startNumber after = startNumber before
  /\ exportDir after = exportDir before.
Proof.
  intros before after. unfold after, before, getConfig, deleteStamp.
  rewrite readFromDisk_writeToDisk. cbn [fst savedStamps activeStampId cfgLawyerName
    cfgBottomText startNumber exportDir].
  split; [reflexivity|]. split; [|repeat split].
  apply Forall_forall. intros s Hs. apply list_elem_of_filter in Hs. apply Hs.
Qed.

(** X18.  Saving a stamp under an id that is not in use and deleting that
    id again gives back the list of saved stamps one started from. *)
Theorem deleteStamp_saveStamp (stamp : SavedStamp) (st : Store) :
  Forall (fun s => id s <> id stamp) (getSavedStamps st) ->
  getSavedStamps (deleteStamp (id stamp) (saveStamp stamp st)) = getSavedStamps st.
Proof.
  intros Hnew.
  rewrite deleteStamp_savedStamps, saveStamp_savedStamps, (findIndexById_new _ _ Hnew).
  rewrite filter_app, (filter_other_ids_all _ _ Hnew).
  rewrite filter_cons_False by (intros H; apply H; reflexivity).
  rewrite filter_nil. apply app_nil_r.
Qed.

Lemma deleteStamp_saveStamp_witness :
  getSavedStamps (deleteStamp "b"
    (saveStamp (mkSavedStamp "b" "B" "ME B" "AVOCAT") exampleStore))
  = getSavedStamps exampleStore.
Proof.
  apply (deleteStamp_saveStamp (mkSavedStamp "b" "B" "ME B" "AVOCAT") exampleStore).
  repeat constructor. discriminate.
Defined.

(** X19.  [setConfig] followed by [getConfig]: whatever the file held
    (nothing, unreadable text, some of the keys), the configuration read
    back is the one read before with exactly the given keys replaced; an
    empty update changes nothing that [getConfig] returns. *)
Theorem getConfig_setConfig (partial : PartialConfig) (st : Store) :
  getConfig (setConfig partial st) = spread (getConfig st) partial
  /\ getConfig (setConfig emptyPartial st) = getConfig st.
Proof.
  split; [apply getConfig_setConfig_spread|].
  rewrite getConfig_setConfig_spread. destruct (getConfig st). reflexivity.
Qed.

(** X20.  The array of the defaults.  When the file has a [savedStamps]
    key, [saveStamp] leaves the in-memory defaults alone.  When the file is
    missing, unreadable or has no such key, the stamps were read from the
    array of the defaults and [saveStamp] changes that array: the defaults
    then hold the saved list, and it is still returned by [getSavedStamps]
    if the file is missing or unreadable afterwards. *)
Theorem saveStamp_defaults (stamp : SavedStamp) (st : Store) :
  (snd (readFromDisk st) = false ->
   defaultStamps (saveStamp stamp st) = defaultStamps st)
  /\ (snd (readFromDisk st) = true ->
      defaultStamps (saveStamp stamp st) = getSavedStamps (saveStamp stamp st)
      /\ forall lost, lost = Missing \/ lost = Unreadable ->
           getSavedStamps
             {| defaultStamps := defaultStamps (saveStamp stamp st);
                desktop := desktop (saveStamp stamp st); file := lost |}
           = getSavedStamps (saveStamp stamp st)).
Proof.
  assert (Hshared : snd (readFromDisk st) = true ->
            defaultStamps (saveStamp stamp st) = getSavedStamps (saveStamp stamp st)).
  { intros Hs. unfold getSavedStamps, saveStamp.
    destruct (readFromDisk st) as [config shared]. cbn [snd] in Hs. subst shared.
    rewrite readFromDisk_writeToDisk. reflexivity. }
  split.
  - intros Hs. unfold saveStamp.
    destruct (readFromDisk st) as [config shared]. cbn [snd] in Hs. subst shared.
    reflexivity.
  - intros Hs. split; [exact (Hshared Hs)|].
    intros lost [-> | ->]; unfold getSavedStamps at 1, readFromDisk; cbn; exact (Hshared Hs).
Qed.

Lemma saveStamp_defaults_witness :
  defaultStamps (saveStamp (mkSavedStamp "b" "B" "ME B" "AVOCAT") (mkStore [] "D:" Missing))
  = [mkSavedStamp "b" "B" "ME B" "AVOCAT"].
Proof.
  apply (proj1 (proj2 (saveStamp_defaults (mkSavedStamp "b" "B" "ME B" "AVOCAT")
                         (mkStore [] "D:" Missing)) eq_refl)).
Defined.

Lemma length_slice0 (n : nat) (s : string) : (String.length (slice0 n s) <= n)%nat.
Proof.
  unfold slice0. revert s. induction n as [|n IH]; intros s.
  - destruct s; cbn; lia.
  - destruct s as [|c s]; cbn; [lia|]. specialize (IH s). lia.
Qed.

Lemma length_stringOr (n : nat) (fallback : string) (v : JsValue) :
  (String.length fallback <= n)%nat -> (String.length (stringOr n fallback v) <= n)%nat.
Proof. intros H. destruct v; cbn [stringOr]; [apply length_slice0 | exact H | exact H]. Qed.

(** X21.  Whatever strings, finite numbers or other values the renderer
    sends to ['save-stamp-config'] ([NaN] apart, which [JsValue] leaves
    out), the stored start number is an integer between 1 and 99999 (the
    floor of a number in that range is stored as it is, anything that is
    not a number gives 1), the stored name and bottom text have at most 200
    characters, and the saved stamps, the export directory and the active
    stamp are untouched. *)
Theorem saveStampConfigHandler_sanitises (config : StampConfigMessage) (st : Store) :
  let stored := getConfig (saveStampConfigHandler config st) in
  1 <= startNumber stored <= 99999
  /\ (forall q, msgStartNumber config = JsNumber q ->
        1 <= Qfloor q <= 99999 -> startNumber stored = Qfloor q)
  /\ ((forall q, msgStartNumber config <> JsNumber q) -> startNumber stored = 1)
  /\ (String.length (cfgLawyerName stored) <= 200)%nat
  /\ (String.length (cfgBottomText stored) <= 200)%nat
  /\ savedStamps stored = savedStamps (getConfig st)
  /\ exportDir stored = exportDir (getConfig st)
  /\ activeStampId stored = activeStampId (getConfig st).
Proof.
  intros stored. unfold stored, saveStampConfigHandler. cbv zeta.
  rewrite getConfig_setConfig_spread. unfold spread.
  cbn [startNumber cfgLawyerName cfgBottomText savedStamps exportDir activeStampId
       pStartNumber pLawyerName pBottomText pSavedStamps pExportDir pActiveStampId default].
  unfold Datatypes.id.
  split; [lia|]. split; [|split; [|split; [|split]]].
  - intros q -> Hq. lia.
  - intros Hnot. destruct (msgStartNumber config) as [s|q|]; [reflexivity| |reflexivity].
    exfalso. exact (Hnot q eq_refl).
  - apply length_stringOr. cbn. lia.
  - apply length_stringOr. cbn. lia.
  - repeat split.
Qed.

Lemma saveStampConfigHandler_sanitises_witness :
  startNumber (getConfig (saveStampConfigHandler
    (mkConfigMessage (JsString "ME A") JsOther (JsNumber 7.5)) exampleStore)) = 7.
Proof.
  apply (proj1 (proj2 (saveStampConfigHandler_sanitises
           (mkConfigMessage (JsString "ME A") JsOther (JsNumber 7.5)) exampleStore))
           7.5%Q eq_refl).
  vm_compute. split; discriminate.
Defined.



End ConfigStoreFacts.

(** ** The handlers of the App component *)

Section AppHandlersFacts.
Import PdfLib PdfService App AppHandlers.

Lemma Forall_filter_keep {A} (P Q : A -> Prop) `{forall a, Decision (P a)} (l : list A) :
  Forall Q l -> Forall Q (filter P l).
Proof.
  rewrite !Forall_forall. intros HQ a Ha. apply list_elem_of_filter in Ha as [_ Ha].
  exact (HQ a Ha).
Qed.

Lemma filter_none {A} (P : A -> Prop) `{forall a, Decision (P a)} (l : list A) :
  Forall (fun a => ~ P a) l -> filter P l = [].
Proof.
  induction 1 as [|a l Ha Hl IH]; [reflexivity|].
  rewrite filter_cons_False by exact Ha. exact IH.
Qed.

Lemma countStamps_from (ps : list PieceDocument) (acc : Z) :
  fold_left (fun sum p => sum + Z.of_nat (length (placements p))) ps acc
  = acc + Z.of_nat (length (concat (placements <$> ps))).
Proof.
  revert acc. induction ps as [|p ps IH]; intros acc; cbn [fold_left]; [cbn; lia|].
  rewrite IH, fmap_cons, concat_cons, length_app. lia.
Qed.

Lemma countStamps_length (ps : list PieceDocument) :
  countStamps ps = Z.of_nat (length (concat (placements <$> ps))).
Proof. unfold countStamps. rewrite countStamps_from. lia. Qed.

Lemma samePieces_total (ps ps' : list PieceDocument) :
  Forall2 samePieceButNumbers ps ps' ->
  length (concat (placements <$> ps')) = length (concat (placements <$> ps)).
Proof.
  induction 1 as [|p p' l l' Hp Hl IH]; [reflexivity|].
  rewrite !fmap_cons, !concat_cons, !length_app, IH. f_equal.
  destruct Hp as (_ & _ & _ & _ & _ & Hpl). symmetry. exact (Forall2_length _ _ _ Hpl).
Qed.

Lemma recalculateNumbers_same (ps : list PieceDocument) (start : Z) :
  Forall2 samePieceButNumbers ps (recalculateNumbers ps start).
Proof. apply numberPieces_frame. Qed.

Lemma recalculateNumbers_numbers (ps : list PieceDocument) (start : Z) :
  - 2 ^ 53 <= start ->
  start + Z.of_nat (length (concat (placements <$> ps))) <= 2 ^ 53 ->
  concat (numbersOf (recalculateNumbers ps start))
  = seqZ start (Z.of_nat (length (concat (placements <$> ps)))).
Proof. intros Hlo Hhi. apply numberPieces_spec; assumption. Qed.

Lemma stampCount_renumberAll (st : AppState) (updated : list PieceDocument) :
  stampCount (renumberAll st updated)
  = Z.of_nat (length (concat (placements <$> updated))).
Proof.
  unfold stampCount, renumberAll. cbn [pieces setPieces setNextNumber].
  rewrite (samePieces_total _ _ (recalculateNumbers_same updated (startNumber st))).
  reflexivity.
Qed.

Lemma renumberAll_wellNumbered (st : AppState) (updated : list PieceDocument) :
  - 2 ^ 53 <= startNumber st ->
  startNumber st + stampCount (renumberAll st updated) <= 2 ^ 53 ->
  wellNumbered (renumberAll st updated).
Proof.
  intros Hlo Hhi. rewrite stampCount_renumberAll in Hhi.
  unfold wellNumbered, renumberAll. cbn [pieces startNumber nextNumber setPieces setNextNumber].
  rewrite countStamps_length.
  rewrite (samePieces_total _ _ (recalculateNumbers_same updated (startNumber st))).
  split; [apply recalculateNumbers_numbers; assumption|].
  apply add_exact. lia.
Qed.

(** [wellNumbered] reads the pieces, the start number and the next number only. *)
Lemma wellNumbered_ext (st st' : AppState) :
  placements <$> pieces st' = placements <$> pieces st ->
  startNumber st' = startNumber st -> nextNumber st' = nextNumber st ->
  wellNumbered st -> wellNumbered st'.
Proof.
  unfold wellNumbered, numbersOf. intros Hp Hs Hn [H1 H2].
  assert (Hnum : (fun piece => number <$> placements piece) <$> pieces st'
                 = (fun piece => number <$> placements piece) <$> pieces st).
  { change (fun piece => number <$> placements piece) with (fmap number ∘ placements).
    rewrite !list_fmap_compose, Hp. reflexivity. }
  rewrite Hnum, Hp, Hs, Hn. split; assumption.
Qed.

Lemma placements_fmap_keep (f : PieceDocument -> PieceDocument) (ps : list PieceDocument) :
  (forall p, placements (f p) = placements p) ->
  placements <$> (f <$> ps) = placements <$> ps.
Proof.
  intros Hf. rewrite <- list_fmap_compose. apply list_fmap_ext. intros i p _. apply Hf.
Qed.

(** X23.  The numbering invariant of the component, as long as the
    numbers stay within [2^53] in magnitude (the counter is a binary64
    number).  In the initial state, and after every handler run from a
    state where it holds, provided [- 2^53 <= startNumber] and
    [startNumber] plus the number of stamps after the handler is at most
    [2^53], the stamp numbers read in the order of the pieces are
    [startNumber], [startNumber + 1], ... without gap or repetition, and
    [nextNumber] is the first unused number.  One more proviso: changing
    the start number keeps the invariant when no stamp is placed yet. *)
Theorem numbering_invariant (a : Action) (st : AppState) :
  wellNumbered initialState
  /\ ((forall num, a = StartNumberChange num -> concat (placements <$> pieces st) = []) ->
      wellNumbered st ->
      - 2 ^ 53 <= startNumber st ->
      startNumber st + stampCount (step a st) <= 2 ^ 53 ->
      wellNumbered (step a st)).
Proof.
  split; [split; reflexivity|].
  intros Hstart Hwn Hlo. destruct a; cbn [step].
  - (* AddFiles *)
    intros _.
    unfold handleAddFiles. destruct results as [|firstNew rest]; [exact Hwn|].
    set (results := firstNew :: rest).
    assert (Hkeep : wellNumbered
              (setPieces st (pieces st ++
                 ((fun r => {| id := openedId r; fileName := openedName r;
                               displayName := None; pdfBuffer := openedBuffer r;
                               totalPages := 0; placements := [] |}) <$> results)))).
    { destruct Hwn as [H1 H2]. unfold wellNumbered, numbersOf.
      cbn [pieces setPieces startNumber nextNumber].
      rewrite !fmap_app, !concat_app.
      assert (Hn : forall l : list OpenedFile,
                concat (placements <$>
                  ((fun r => {| id := openedId r; fileName := openedName r;
                                displayName := None; pdfBuffer := openedBuffer r;
                                totalPages := 0; placements := [] |}) <$> l)) = []
                /\ concat ((fun piece => number <$> placements piece) <$>
                  ((fun r => {| id := openedId r; fileName := openedName r;
                                displayName := None; pdfBuffer := openedBuffer r;
                                totalPages := 0; placements := [] |}) <$> l)) = []).
      { induction l as [|r l [IH1 IH2]]; [split; reflexivity|].
        rewrite !fmap_cons, !concat_cons. cbn [placements fmap list_fmap app].
        split; assumption. }
      destruct (Hn results) as [-> ->]. rewrite !app_nil_r. split; assumption. }
    destruct (activeId st); [exact Hkeep|].
    revert Hkeep. apply wellNumbered_ext; reflexivity.
  - (* SelectPiece *) intros _. revert Hwn. apply wellNumbered_ext; reflexivity.
  - (* ReorderPiece *)
    unfold handleReorderPiece.
    destruct (findPiece wanted (pieces st)) as [[idx p]|]; [|intros _; exact Hwn].
    destruct (decide _); [intros _; exact Hwn|].
    destruct (pieces st !! idx); [|intros _; exact Hwn].
    destruct (pieces st !! Z.to_nat _); [|intros _; exact Hwn].
    apply renumberAll_wellNumbered, Hlo.
  - (* TotalPages *)
    intros _.
    unfold handleTotalPages. destruct (activeId st) as [active|]; [|exact Hwn].
    revert Hwn. apply wellNumbered_ext; try reflexivity.
    cbn [pieces setPieces]. apply placements_fmap_keep.
    intros p. destruct (decide _); reflexivity.
  - (* PlaceStamp *)
    unfold handlePlaceStamp. destruct (activeId st); [|intros _; exact Hwn].
    destruct (decide _); [intros _; exact Hwn | apply renumberAll_wellNumbered, Hlo].
  - (* Undo *)
    unfold handleUndo.
    destruct (activeId st); [apply renumberAll_wellNumbered, Hlo | intros _; exact Hwn].
  - (* ClearStamps *)
    unfold handleClearStamps.
    destruct (activeId st); [apply renumberAll_wellNumbered, Hlo | intros _; exact Hwn].
  - (* NextPage *)
    intros _.
    unfold handleNextPage. destruct (activePiece st); [|exact Hwn].
    revert Hwn. apply wellNumbered_ext; reflexivity.
  - (* PrevPage *) intros _. revert Hwn. apply wellNumbered_ext; reflexivity.
  - (* GoToPage *)
    intros _.
    unfold handleGoToPage. destruct (activePiece st); [|exact Hwn].
    revert Hwn. apply wellNumbered_ext; reflexivity.
  - (* MergePieces *)
    unfold handleMergePieces.
    destruct (findPiece topId (pieces st)) as [[topIndex topPiece]|]; [|intros _; exact Hwn].
    destruct (findPiece bottomId (pieces st)) as [[bottomIndex bottomPiece]|];
      [|intros _; exact Hwn].
    destruct (mergePdfs _ _) as [mergedBuffer|e]; [|intros _; exact Hwn].
    cbv zeta. destruct (decide _).
    + intros Hhi.
      eapply wellNumbered_ext;
        [| | |apply renumberAll_wellNumbered; [exact Hlo | exact Hhi]]; reflexivity.
    + apply renumberAll_wellNumbered, Hlo.
  - (* SplitPiece *)
    unfold handleSplitPiece.
    destruct (findPiece pieceId (pieces st)) as [[idx piece]|]; [|intros _; exact Hwn].
    destruct (Ipc.splitPdfHandler _ _) as [parts|e]; [|intros _; exact Hwn].
    cbn [splitPieceOf]. cbv zeta. destruct (decide _).
    + intros Hhi.
      eapply wellNumbered_ext;
        [| | |apply renumberAll_wellNumbered; [exact Hlo | exact Hhi]]; reflexivity.
    + apply renumberAll_wellNumbered, Hlo.
  - (* RenamePiece *)
    intros _.
    revert Hwn. apply wellNumbered_ext; try reflexivity.
    cbn [pieces setPieces handleRenamePiece]. apply placements_fmap_keep.
    intros p. destruct (decide _); reflexivity.
  - (* StartNumberChange *)
    intros _.
    specialize (Hstart num eq_refl). unfold wellNumbered, handleStartNumberChange, numbersOf.
    cbn [pieces startNumber nextNumber]. rewrite Hstart. cbn [length].
    split; [|lia].
    assert (Hnum : forall ps : list PieceDocument,
              concat (placements <$> ps) = [] ->
              concat ((fun piece => number <$> placements piece) <$> ps) = []).
    { induction ps as [|p ps IH]; [reflexivity|].
      rewrite !fmap_cons, !concat_cons. intros E. apply app_eq_nil in E as [E1 E2].
      rewrite E1, (IH E2). reflexivity. }
    rewrite (Hnum _ Hstart). reflexivity.
  - (* RemovePiece *)
    unfold handleRemovePiece. cbv zeta.
    destruct (decide _) as [_|_]; [destruct (filter _ _)|];
      intros Hhi; apply renumberAll_wellNumbered; assumption.
Qed.

Lemma numbering_invariant_witness :
  wellNumbered (step (PlaceStamp 0 10 20)
                  (step (AddFiles [mkOpened (PdfFile (blankPage 1) []) "a.pdf" "id-a"])
                     initialState)).
Proof.
  apply (proj2 (numbering_invariant (PlaceStamp 0 10 20)
                  (step (AddFiles [mkOpened (PdfFile (blankPage 1) []) "a.pdf" "id-a"])
                     initialState))).
  - intros num H. discriminate H.
  - split; reflexivity.
  - vm_compute. discriminate.
  - vm_compute. discriminate.
Defined.

Lemma samePiece_atMostOne (p p' : PieceDocument) :
  samePieceButNumbers p p' -> atMostOneOnFirstPage p -> atMostOneOnFirstPage p'.
Proof.
  intros (_ & _ & _ & _ & _ & Hpl) [Hlen Hall]. split.
  - rewrite <- (Forall2_length _ _ _ Hpl). exact Hlen.
  - clear Hlen. induction Hpl as [|pl pl' l l' Hp Hl IH]; [constructor|].
    apply Forall_cons in Hall as [H0 Hall]. constructor; [|apply IH, Hall].
    destruct Hp as (Hidx & _). congruence.
Qed.

Lemma renumberAll_oneStamp (st : AppState) (updated : list PieceDocument) :
  Forall atMostOneOnFirstPage updated -> oneStampOnFirstPage (renumberAll st updated).
Proof.
  intros Hall. unfold oneStampOnFirstPage, renumberAll. cbn [pieces setPieces setNextNumber].
  pose proof (recalculateNumbers_same updated (startNumber st)) as Hsame.
  induction Hsame as [|p p' l l' Hp Hl IH]; [constructor|].
  apply Forall_cons in Hall as [H0 Hall].
  constructor; [exact (samePiece_atMostOne _ _ Hp H0) | apply IH, Hall].
Qed.

Lemma placeOn_atMostOne (active : string) (newX newY : Q) (p : PieceDocument) :
  atMostOneOnFirstPage p -> atMostOneOnFirstPage (placeOn active 0 newX newY p).
Proof.
  intros [Hlen Hall]. unfold placeOn. destruct (decide _); [split; assumption|].
  destruct (list_find _ (placements p)) as [[i pl]|].
  - split; cbn [placements withPlacements]; [rewrite length_fmap; exact Hlen|].
    apply Forall_fmap. eapply Forall_impl; [exact Hall|].
    intros pl' Hpl'. unfold compose. cbn beta in *.
    destruct (decide (pageIndex pl' = 0)); [exact Hpl' | exact Hpl'].
  - destruct (decide _) as [Hempty|]; [|split; assumption].
    apply nil_length_inv in Hempty.
    split; cbn [placements withPlacements]; rewrite Hempty; cbn; [lia|].
    repeat constructor.
Qed.

(** X24.  One stamp per piece, on its first page.  If every piece carries
    at most one placement and that placement is on page index 0, the same
    holds after every handler other than the merge of two pieces: placing,
    moving, undoing, clearing, splitting, reordering, removing, renaming and
    adding files never create a second stamp or a stamp on another page. *)
Theorem one_stamp_invariant (a : Action) (st : AppState) :
  oneStampOnFirstPage initialState
  /\ ((forall topId bottomId, a <> MergePieces topId bottomId) ->
      oneStampOnFirstPage st -> oneStampOnFirstPage (step a st)).
Proof.
  split; [constructor|].
  intros Hnomerge Hinv. pose proof Hinv as Hall. unfold oneStampOnFirstPage in Hall.
  destruct a; cbn [step].
  - (* AddFiles *)
    unfold handleAddFiles. destruct results as [|firstNew rest]; [exact Hinv|].
    assert (Hkeep : Forall atMostOneOnFirstPage
              (pieces st ++
                 ((fun r => {| id := openedId r; fileName := openedName r;
                               displayName := None; pdfBuffer := openedBuffer r;
                               totalPages := 0; placements := [] |}) <$> firstNew :: rest))).
    { apply Forall_app. split; [exact Hall|]. apply Forall_fmap, Forall_forall.
      intros r _. split; cbn; [lia | constructor]. }
    destruct (activeId st); exact Hkeep.
  - exact Hinv.
  - (* ReorderPiece *)
    unfold handleReorderPiece.
    destruct (findPiece wanted (pieces st)) as [[idx p]|]; [|exact Hinv].
    destruct (decide _); [exact Hinv|].
    destruct (pieces st !! idx) as [pa|] eqn:Ha; [|exact Hinv].
    destruct (pieces st !! Z.to_nat _) as [pb|] eqn:Hb; [|exact Hinv].
    apply renumberAll_oneStamp.
    rewrite Forall_lookup in Hall.
    apply Forall_insert; [apply Forall_insert|].
    + apply Forall_lookup. exact Hall.
    + exact (Hall _ _ Hb).
    + exact (Hall _ _ Ha).
  - (* TotalPages *)
    unfold handleTotalPages. destruct (activeId st) as [active|]; [|exact Hinv].
    unfold oneStampOnFirstPage. cbn [pieces setPieces]. apply Forall_fmap.
    eapply Forall_impl; [exact Hall|]. intros p Hp. cbn.
    destruct (decide _); exact Hp.
  - (* PlaceStamp *)
    unfold handlePlaceStamp. destruct (activeId st) as [active|]; [|exact Hinv].
    destruct (decide (page <> 0)) as [|Hpage]; [exact Hinv|].
    assert (page = 0) as -> by lia.
    apply renumberAll_oneStamp, Forall_fmap.
    eapply Forall_impl; [exact Hall|]. intros p Hp. apply placeOn_atMostOne, Hp.
  - (* Undo *)
    unfold handleUndo. destruct (activeId st) as [active|]; [|exact Hinv].
    apply renumberAll_oneStamp, Forall_fmap.
    eapply Forall_impl; [exact Hall|]. intros p [Hlen Hpl]. cbn.
    destruct (decide _); [|split; assumption].
    split; cbn [placements withPlacements]; unfold dropLast.
    + rewrite length_take. lia.
    + apply Forall_take, Hpl.
  - (* ClearStamps *)
    unfold handleClearStamps. destruct (activeId st) as [active|]; [|exact Hinv].
    apply renumberAll_oneStamp, Forall_fmap.
    eapply Forall_impl; [exact Hall|]. intros p Hp. cbn.
    destruct (decide _); [split; cbn; [lia | constructor] | exact Hp].
  - unfold handleNextPage. destruct (activePiece st); exact Hinv.
  - exact Hinv.
  - unfold handleGoToPage. destruct (activePiece st); exact Hinv.
  - exfalso. exact (Hnomerge topId bottomId eq_refl).
  - (* SplitPiece *)
    unfold handleSplitPiece.
    destruct (findPiece pieceId (pieces st)) as [[idx piece]|] eqn:Hfind; [|exact Hinv].
    destruct (Ipc.splitPdfHandler _ _) as [parts|e] eqn:Hsplit; [|exact Hinv].
    assert (Hk : 0 <= afterPageIndex).
    { unfold Ipc.splitPdfHandler in Hsplit.
      destruct (decide (afterPageIndex < 0)); [discriminate Hsplit | lia]. }
    apply list_find_Some in Hfind as (Hpiece & _ & _).
    rewrite Forall_lookup in Hall. destruct (Hall _ _ Hpiece) as [Hlen Hpl].
    cbn [splitPieceOf]. cbv zeta.
    assert (Hupdated : oneStampOnFirstPage
      (renumberAll st
         (take idx (pieces st)
          ++ {| id := id piece; fileName := fileName piece; displayName := None;
                pdfBuffer := part1 parts; totalPages := afterPageIndex + 1;
                placements := filter (fun pl => pageIndex pl <= afterPageIndex)
                                (placements piece) |}
          :: {| id := newId; fileName := String.append (fileName piece) " (suite)";
                displayName := None; pdfBuffer := part2 parts;
                totalPages := totalPages piece - afterPageIndex - 1;
                placements := shifted (- afterPageIndex - 1)
                              <$> filter (fun pl => pageIndex pl > afterPageIndex)
                                    (placements piece) |}
          :: drop (S idx) (pieces st)))).
    { apply renumberAll_oneStamp, Forall_app. split.
      - apply Forall_take, Forall_lookup. exact Hall.
      - constructor; [|constructor; [|apply Forall_drop, Forall_lookup; exact Hall]].
        + split; cbn [placements].
          * pose proof (length_filter (fun pl => pageIndex pl <= afterPageIndex)
                          (placements piece)). lia.
          * apply Forall_filter_keep. exact Hpl.
        + assert (Hnone : filter (fun pl => pageIndex pl > afterPageIndex)
                            (placements piece) = []).
          { apply filter_none. eapply Forall_impl; [exact Hpl|].
            intros pl Hz. cbn beta in *. rewrite Hz. lia. }
          split; cbn [placements]; rewrite Hnone; cbn; [lia | constructor]. }
    destruct (decide _); exact Hupdated.
  - (* RenamePiece *)
    unfold handleRenamePiece, oneStampOnFirstPage. cbn [pieces setPieces].
    apply Forall_fmap. eapply Forall_impl; [exact Hall|]. intros p Hp. cbn.
    destruct (decide _); exact Hp.
  - exact Hinv.
  - (* RemovePiece *)
    unfold handleRemovePiece. cbv zeta.
    assert (Hfil : Forall atMostOneOnFirstPage (filter (fun p => id p <> wanted) (pieces st))).
    { apply Forall_filter_keep. exact Hall. }
    apply renumberAll_oneStamp. exact Hfil.
Qed.

Lemma one_stamp_invariant_witness :
  oneStampOnFirstPage
    (step (PlaceStamp 0 30 40)
       (step (PlaceStamp 0 10 20)
          (step (AddFiles [mkOpened (PdfFile (blankPage 1) []) "a.pdf" "id-a"])
             initialState))).
Proof.
  apply (proj2 (one_stamp_invariant (PlaceStamp 0 30 40)
                  (step (PlaceStamp 0 10 20)
                     (step (AddFiles [mkOpened (PdfFile (blankPage 1) []) "a.pdf" "id-a"])
                        initialState)))).
  - intros topId bottomId H. discriminate H.
  - vm_compute. repeat constructor.
Defined.

End AppHandlersFacts.

(** ** Reordering, splitting, merging and exporting pieces *)

Section PieceHandlers.
Import PdfLib PdfService App AppHandlers ExportAll.

Lemma findPiece_Some (wanted : string) (ps : list PieceDocument) (i : nat)
    (p : PieceDocument) :
  findPiece wanted ps = Some (i, p) <->
  ps !! i = Some p /\ id p = wanted
  /\ forall j q, ps !! j = Some q -> (j < i)%nat -> id q <> wanted.
Proof. exact (list_find_Some (fun p => id p = wanted) ps i p). Qed.

(** The numbers given by [recalculateNumbers] do not depend on the numbers
    that the placements carried before. *)
Lemma numberPlacements_congr (pls pls' : list StampPlacement) (num : Z) :
  Forall2 samePlacementButNumber pls pls' ->
  numberPlacements num pls = numberPlacements num pls'.
Proof.
  intros H. revert num. induction H as [|pl pl' l l' Hpl Hl IH]; intros num; [reflexivity|].
  cbn [numberPlacements]. rewrite IH. destruct Hpl as (Hp & Hx & Hy).
  unfold withNumber. rewrite Hp, Hx, Hy. reflexivity.
Qed.

Lemma numberPieces_congr (ps ps' : list PieceDocument) (num : Z) :
  Forall2 samePieceButNumbers ps ps' ->
  numberPieces num ps = numberPieces num ps'.
Proof.
  intros H. revert num. induction H as [|p p' l l' Hp Hl IH]; intros num; [reflexivity|].
  destruct Hp as (Hid & Hf & Hd & Hb & Ht & Hpl).
  pose proof (Forall2_length _ _ _ Hpl) as Hlen.
  cbn [numberPieces].
  destruct (decide (length (placements p) = 0%nat)) as [He|Hne];
    destruct (decide (length (placements p') = 0%nat)) as [He'|Hne']; try lia.
  - rewrite IH.
    assert (p = p') as ->; [|reflexivity].
    destruct p, p'. cbn in *. apply nil_length_inv in He, He'. subst. reflexivity.
  - rewrite (numberPlacements_congr _ _ num Hpl).
    destruct (numberPlacements num (placements p')) as [newPlacements num1].
    rewrite IH. unfold withPlacements. rewrite Hid, Hf, Hd, Hb, Ht. reflexivity.
Qed.

(** Placements that already carry the numbers the counter gives are
    returned unchanged.  The counter is written [roundToNearestEven n]: it
    is [n] itself as long as a placement follows, whose number [n] is a
    binary64 value. *)
Lemma numberPlacements_id (pls : list StampPlacement) (n : Z) :
  number <$> pls = seqZ n (Z.of_nat (length pls)) ->
  Forall Binary64.representable (number <$> pls) ->
  numberPlacements (Binary64.roundToNearestEven n) pls
  = (pls, Binary64.roundToNearestEven (n + Z.of_nat (length pls))).
Proof.
  revert n. induction pls as [|pl pls IH]; intros n H Hrep.
  - cbn. f_equal; f_equal; lia.
  - cbn [length] in H. rewrite seqZ_cons_succ, fmap_cons in H. injection H as Hn Hrest.
    rewrite fmap_cons in Hrep. apply Forall_cons in Hrep as [Hrep0 Hrep].
    rewrite Hn in Hrep0. unfold Binary64.representable in Hrep0.
    cbn [numberPlacements]. rewrite Hrep0. unfold Binary64.add at 1.
    rewrite (IH _ Hrest Hrep). f_equal.
    + f_equal. destruct pl. cbn in *. subst. reflexivity.
    + f_equal; cbn [length]; lia.
Qed.

Lemma numberPieces_id (ps : list PieceDocument) (n : Z) :
  concat (numbersOf ps) = seqZ n (Z.of_nat (length (concat (placements <$> ps)))) ->
  Forall Binary64.representable (concat (numbersOf ps)) ->
  numberPieces (Binary64.roundToNearestEven n) ps
  = (ps, Binary64.roundToNearestEven
           (n + Z.of_nat (length (concat (placements <$> ps))))).
Proof.
  revert n. induction ps as [|p ps IH]; intros n H Hrep.
  - cbn. f_equal; f_equal; lia.
  - unfold numbersOf in *.
    rewrite !fmap_cons, !concat_cons, length_app, Nat2Z.inj_add in H.
    rewrite fmap_cons, concat_cons in Hrep.
    rewrite seqZ_app in H by lia.
    apply app_inj_1 in H as [H1 H2]; [|rewrite length_fmap, length_seqZ; lia].
    apply Forall_app in Hrep as [Hrep1 Hrep2].
    rewrite fmap_cons, concat_cons, length_app, Nat2Z.inj_add.
    cbn [numberPieces].
    destruct (decide (length (placements p) = 0%nat)) as [He|Hne].
    + rewrite He in H2 |- *. replace (n + Z.of_nat 0) with n in H2 by lia.
      rewrite (IH _ H2 Hrep2). f_equal; f_equal; lia.
    + rewrite (numberPlacements_id _ _ H1 Hrep1).
      rewrite (IH _ H2 Hrep2). f_equal.
      * f_equal. destruct p. reflexivity.
      * f_equal; lia.
Qed.

(** Renumbering pieces that differ from those of a well-numbered state in
    their stamp numbers only gives that state back. *)
Lemma renumberAll_restore (st st1 : AppState) (L : list PieceDocument) :
  wellNumbered st -> representableState st ->
  startNumber st1 = startNumber st -> activePieceId st1 = activePieceId st ->
  currentPage st1 = currentPage st ->
  Forall2 samePieceButNumbers (pieces st) L ->
  renumberAll st1 L = st.
Proof.
  intros [Hnum Hnext] (Rstart & Rnext & Rnums) Hs Ha Hc HL.
  unfold renumberAll, recalculateNumbers. cbv zeta.
  rewrite <- (numberPieces_congr _ _ (startNumber st1) HL), Hs.
  pose proof (numberPieces_id _ _ Hnum Rnums) as Hid.
  unfold Binary64.representable in Rstart, Rnext. rewrite Rstart in Hid.
  rewrite Hid. cbn [fst].
  rewrite countStamps_length. unfold Binary64.add. rewrite <- Hnext, Rnext.
  destruct st, st1. cbn in *. subst. reflexivity.
Qed.

(** X25.  Renumbering is idempotent: numbering the result of
    [recalculateNumbers] again from the same start changes nothing. *)
Theorem recalculateNumbers_idempotent (ps : list PieceDocument) (start : Z) :
  recalculateNumbers (recalculateNumbers ps start) start = recalculateNumbers ps start.
Proof.
  unfold recalculateNumbers at 1 3.
  rewrite <- (numberPieces_congr _ _ start (recalculateNumbers_same ps start)).
  reflexivity.
Qed.

(** X26.  Moving a piece up and then down again restores the state.  For a
    piece that is found at position [idx + 1] of a well-numbered state
    (whose numbers are binary64 values, as every number of the program
    is), moving it up swaps it with the piece [b] before it (up to the
    stamp numbers, which are given anew in the new order), and moving it
    down afterwards gives back the very state one started from, stamp
    numbers and next number included. *)
Theorem handleReorderPiece_up_down (wanted : string) (st : AppState) (idx : nat)
    (p b : PieceDocument) :
  wellNumbered st -> representableState st ->
  findPiece wanted (pieces st) = Some (S idx, p) ->
  pieces st !! idx = Some b ->
  Forall2 samePieceButNumbers (<[idx := p]> (<[S idx := b]> (pieces st)))
          (pieces (handleReorderPiece wanted up st))
  /\ handleReorderPiece wanted down (handleReorderPiece wanted up st) = st.
Proof.
  intros Hwn Hrepr Hfind Hb.
  pose proof Hfind as Hf. apply findPiece_Some in Hf as (Hp & Hid & Hbefore).
  pose proof (lookup_lt_Some _ _ _ Hp) as Hlen.
  set (L1 := <[idx := p]> (<[S idx := b]> (pieces st))).
  assert (Hup : handleReorderPiece wanted up st = renumberAll st L1).
  { unfold handleReorderPiece. cbv zeta. rewrite Hfind.
    destruct (decide _) as [Hbad|_]; [lia|].
    replace (Z.to_nat (Z.of_nat (S idx) - 1)) with idx by lia.
    rewrite Hp, Hb. reflexivity. }
  set (R1 := recalculateNumbers L1 (startNumber st)).
  assert (HR1 : Forall2 samePieceButNumbers L1 R1) by apply recalculateNumbers_same.
  assert (HL1p : L1 !! idx = Some p).
  { unfold L1. apply list_lookup_insert_eq. rewrite length_insert. lia. }
  assert (HL1b : L1 !! S idx = Some b).
  { unfold L1. rewrite list_lookup_insert_ne by lia. apply list_lookup_insert_eq. lia. }
  destruct (Forall2_lookup_l _ _ _ idx p HR1 HL1p) as (p' & HR1p & Hsp).
  destruct (Forall2_lookup_l _ _ _ (S idx) b HR1 HL1b) as (b' & HR1b & Hsb).
  assert (Hfind' : findPiece wanted R1 = Some (idx, p')).
  { apply findPiece_Some. split; [exact HR1p|]. split.
    - destruct Hsp as (-> & _). exact Hid.
    - intros j q Hq Hj. destruct (Forall2_lookup_r _ _ _ j q HR1 Hq) as (q0 & Hq0 & Hsq).
      unfold L1 in Hq0. rewrite !list_lookup_insert_ne in Hq0 by lia.
      destruct Hsq as (-> & _). apply (Hbefore j q0 Hq0). lia. }
  rewrite Hup. split; [exact HR1|].
  assert (HlenR : length R1 = length (pieces st)).
  { rewrite <- (Forall2_length _ _ _ HR1). unfold L1. rewrite !length_insert. reflexivity. }
  unfold handleReorderPiece. cbv zeta.
  change (pieces (renumberAll st L1)) with R1. rewrite Hfind'.
  destruct (decide _) as [Hbad|_]; [lia|].
  replace (Z.to_nat (Z.of_nat idx + 1)) with (S idx) by lia.
  rewrite HR1p, HR1b.
  apply renumberAll_restore; try reflexivity; [exact Hwn | exact Hrepr |].
  replace (pieces st) with (<[S idx := p]> (<[idx := b]> L1)).
  - apply Forall2_insert; [apply Forall2_insert; [exact HR1 | exact Hsb] | exact Hsp].
  - unfold L1. apply list_eq. intros j.
    destruct (decide (j = S idx)) as [->|H1].
    { rewrite list_lookup_insert_eq by (rewrite !length_insert; lia). symmetry. exact Hp. }
    rewrite list_lookup_insert_ne by lia.
    destruct (decide (j = idx)) as [->|H2].
    { rewrite list_lookup_insert_eq by (rewrite !length_insert; lia). symmetry. exact Hb. }
    rewrite !list_lookup_insert_ne by lia. reflexivity.
Qed.

Lemma handleReorderPiece_up_down_witness :
  handleReorderPiece "b" down (handleReorderPiece "b" up exampleState) = exampleState.
Proof.
  apply (proj2 (handleReorderPiece_up_down "b" exampleState 0
                  (examplePiece "b" [examplePlacement 2])
                  (examplePiece "a" [examplePlacement 1])
                  (conj eq_refl eq_refl)
                  (conj eq_refl (conj eq_refl
                     (Forall_cons_2 _ _ _ eq_refl (Forall_cons_2 _ _ _ eq_refl (Forall_nil_2 _)))))
                  eq_refl eq_refl)).
Defined.

Lemma Forall2_impl_l {A B} (R : A -> Prop) (P Q : A -> B -> Prop) (l : list A) (k : list B) :
  Forall R l -> Forall2 P l k -> (forall a c, R a -> P a c -> Q a c) -> Forall2 Q l k.
Proof.
  intros HR HP HQ. induction HP as [|a c l k Hac Hlk IH]; [constructor|].
  apply Forall_cons in HR as [Ha Hl]. constructor; [apply HQ; assumption | apply IH, Hl].
Qed.

Lemma Forall_filter_holds {A} (P : A -> Prop) `{forall a, Decision (P a)} (l : list A) :
  Forall P (filter P l).
Proof. apply Forall_forall. intros a Ha. apply list_elem_of_filter in Ha as [Ha _]. exact Ha. Qed.

Lemma pageAt_take (D : list PDFPage) (n : nat) (index : Z) :
  index < Z.of_nat n -> pageAt (take n D) index = pageAt D index.
Proof.
  intros Hi. unfold pageAt. destruct (decide (0 <= index)); [|reflexivity].
  apply lookup_take_lt. lia.
Qed.

Lemma pageAt_drop (D : list PDFPage) (n : nat) (index : Z) :
  Z.of_nat n <= index -> pageAt (drop n D) (index - Z.of_nat n) = pageAt D index.
Proof.
  intros Hi. unfold pageAt. rewrite !decide_True by lia.
  rewrite lookup_drop. f_equal. lia.
Qed.

Lemma pageAt_app_l (A B : list PDFPage) (index : Z) :
  index < Z.of_nat (length A) -> pageAt (A ++ B) index = pageAt A index.
Proof.
  intros Hi. unfold pageAt. destruct (decide (0 <= index)); [|reflexivity].
  apply lookup_app_l. lia.
Qed.

Lemma pageAt_app_r (A B : list PDFPage) (index : Z) :
  0 <= index -> pageAt (A ++ B) (index + Z.of_nat (length A)) = pageAt B index.
Proof.
  intros Hi. unfold pageAt. rewrite !decide_True by lia.
  rewrite lookup_app_r by lia. f_equal. lia.
Qed.

(** X27.  Splitting a piece keeps every stamp on its page.  When the piece
    is found at position [idx], its buffer holds the pages [D] and
    [0 <= afterPageIndex <= length D - 2], the pieces at positions [idx]
    and [idx + 1] afterwards are the two parts: their buffers hold pages
    [D1] and [D2] with [D1 ++ D2 = D], the first keeps the id and the
    second has the new id, the page count recorded for the first part is
    right (for the second it is right when it was right for the piece), and
    the placements up to the cut, respectively after it, are found in the
    first, respectively second part, in order, at the same coordinates and
    on the same page as before. *)
Theorem handleSplitPiece_keeps_stamps (pieceId newId : string) (afterPageIndex : Z)
    (st : AppState) (idx : nat) (piece : PieceDocument) (D : list PDFPage) :
  findPiece pieceId (pieces st) = Some (idx, piece) ->
  decode (pdfBuffer piece) = Some D ->
  0 <= afterPageIndex <= Z.of_nat (length D) - 2 ->
  exists piece1 piece2 D1 D2,
    pieces (handleSplitPiece pieceId afterPageIndex newId st) !! idx = Some piece1
    /\ pieces (handleSplitPiece pieceId afterPageIndex newId st) !! S idx = Some piece2
    /\ id piece1 = pieceId /\ id piece2 = newId
    /\ decode (pdfBuffer piece1) = Some D1 /\ decode (pdfBuffer piece2) = Some D2
    /\ D1 ++ D2 = D
    /\ totalPages piece1 = Z.of_nat (length D1)
    /\ (totalPages piece = Z.of_nat (length D) -> totalPages piece2 = Z.of_nat (length D2))
    /\ Forall2 (onSamePage D D1)
         (filter (fun pl => pageIndex pl <= afterPageIndex) (placements piece))
         (placements piece1)
    /\ Forall2 (onSamePage D D2)
         (filter (fun pl => pageIndex pl > afterPageIndex) (placements piece))
         (placements piece2).
Proof.
  intros Hfind HD Hk.
  pose proof Hfind as Hf. apply findPiece_Some in Hf as (Hp & Hid & _).
  pose proof (lookup_lt_Some _ _ _ Hp) as Hlen.
  set (n := Z.to_nat (afterPageIndex + 1)).
  assert (Hsplit : Ipc.splitPdfHandler (pdfBuffer piece) afterPageIndex
                   = Ok {| part1 := save (take n D); part2 := save (drop n D) |}).
  { unfold Ipc.splitPdfHandler, Ipc.toUint8Array. rewrite decide_False by lia.
    rewrite (splitPdf_decoded _ D) by (try exact HD; lia). reflexivity. }
  assert (HD1 : decode (save (take n D)) = Some (take n D)).
  { apply decode_save. intros E. apply (f_equal length) in E.
    rewrite length_take in E. cbn in E. lia. }
  assert (HD2 : decode (save (drop n D)) = Some (drop n D)).
  { apply decode_save. intros E. apply (f_equal length) in E.
    rewrite length_drop in E. cbn in E. lia. }
  destruct (splitPieceOf piece afterPageIndex
              {| part1 := save (take n D); part2 := save (drop n D) |} newId)
    as [piece1 piece2] eqn:Hparts.
  set (newPieces := take idx (pieces st) ++ piece1 :: piece2 :: drop (S idx) (pieces st)).
  assert (Hpieces : pieces (handleSplitPiece pieceId afterPageIndex newId st)
                    = recalculateNumbers newPieces (startNumber st)).
  { unfold handleSplitPiece. rewrite Hfind, Hsplit, Hparts. cbv zeta.
    destruct (decide _); reflexivity. }
  rewrite Hpieces.
  pose proof (recalculateNumbers_same newPieces (startNumber st)) as Hsame.
  assert (Htake : length (take idx (pieces st)) = idx) by (rewrite length_take; lia).
  assert (H1 : newPieces !! idx = Some piece1).
  { unfold newPieces. apply list_lookup_middle. symmetry. exact Htake. }
  assert (H2 : newPieces !! S idx = Some piece2).
  { unfold newPieces. rewrite lookup_app_r by lia. rewrite Htake.
    replace (S idx - idx)%nat with 1%nat by lia. reflexivity. }
  destruct (Forall2_lookup_l _ _ _ _ _ Hsame H1) as (q1 & Hq1 & S1).
  destruct (Forall2_lookup_l _ _ _ _ _ Hsame H2) as (q2 & Hq2 & S2).
  unfold splitPieceOf in Hparts. cbv zeta in Hparts. injection Hparts as <- <-.
  destruct S1 as (Sid1 & _ & _ & Sbuf1 & Stot1 & Spl1).
  destruct S2 as (Sid2 & _ & _ & Sbuf2 & Stot2 & Spl2).
  cbn [id pdfBuffer totalPages placements] in *.
  exists q1, q2, (take n D), (drop n D).
  split; [exact Hq1|]. split; [exact Hq2|].
  split; [rewrite Sid1; exact Hid|]. split; [exact Sid2|].
  split; [rewrite Sbuf1; exact HD1|]. split; [rewrite Sbuf2; exact HD2|].
  split; [apply take_drop|].
  split; [rewrite Stot1, length_take; lia|].
  split; [intros Htot; rewrite Stot2, Htot, length_drop; lia|].
  split.
  - eapply Forall2_impl_l; [apply Forall_filter_holds | exact Spl1 |].
    intros pl pl' Hle (Hpi & Hx & Hy). cbn beta in Hle.
    split; [exact Hx|]. split; [exact Hy|].
    rewrite Hpi. apply pageAt_take. lia.
  - apply (proj1 (Forall2_fmap_l _ _ _ _)) in Spl2.
    eapply Forall2_impl_l; [apply Forall_filter_holds | exact Spl2 |].
    intros pl pl' Hgt Hs. unfold compose, samePlacementButNumber in Hs.
    destruct Hs as (Hpi & Hx & Hy). cbn beta in Hgt. cbn in Hpi, Hx, Hy.
    split; [exact Hx|]. split; [exact Hy|].
    rewrite Hpi. replace (pageIndex pl + (- afterPageIndex - 1))
      with (pageIndex pl - Z.of_nat n) by lia.
    apply pageAt_drop. lia.
Qed.

Lemma handleSplitPiece_keeps_stamps_witness :
  exists piece1 piece2 D1 D2,
    pieces (handleSplitPiece "a" 0 "new" exampleLongState) !! 0%nat = Some piece1
    /\ pieces (handleSplitPiece "a" 0 "new" exampleLongState) !! 1%nat = Some piece2
    /\ decode (pdfBuffer piece1) = Some D1 /\ decode (pdfBuffer piece2) = Some D2
    /\ D1 ++ D2 = [blankPage 1; blankPage 2; blankPage 3].
Proof.
  destruct (handleSplitPiece_keeps_stamps "a" "new" 0 exampleLongState 0 exampleLongPiece
              [blankPage 1; blankPage 2; blankPage 3] eq_refl eq_refl)
    as (piece1 & piece2 & D1 & D2 & H1 & H2 & _ & _ & H3 & H4 & H5 & _); [cbn; lia|].
  exists piece1, piece2, D1, D2. repeat split; assumption.
Defined.

(** X28.  Merging two pieces keeps every stamp on its page, provided the
    page count recorded for the top piece is the page count of its buffer.
    The merged piece is in the list under the id of the top piece, its
    buffer holds the pages of the top piece followed by those of the bottom
    piece, and its placements are those of the top piece followed by those
    of the bottom piece, each at the same coordinates and on the same page
    as before. *)
Theorem handleMergePieces_keeps_stamps (topId bottomId : string) (st : AppState)
    (topIndex bottomIndex : nat) (topPiece bottomPiece : PieceDocument)
    (A B : list PDFPage) :
  findPiece topId (pieces st) = Some (topIndex, topPiece) ->
  findPiece bottomId (pieces st) = Some (bottomIndex, bottomPiece) ->
  decode (pdfBuffer topPiece) = Some A ->
  decode (pdfBuffer bottomPiece) = Some B ->
  totalPages topPiece = Z.of_nat (length A) ->
  Forall (fun pl => pageIndex pl < Z.of_nat (length A)) (placements topPiece) ->
  Forall (fun pl => 0 <= pageIndex pl) (placements bottomPiece) ->
  exists merged fromTop fromBottom,
    merged ∈ pieces (handleMergePieces topId bottomId st)
    /\ id merged = topId
    /\ decode (pdfBuffer merged) = Some (A ++ B)
    /\ placements merged = fromTop ++ fromBottom
    /\ Forall2 (onSamePage A (A ++ B)) (placements topPiece) fromTop
    /\ Forall2 (onSamePage B (A ++ B)) (placements bottomPiece) fromBottom.
Proof.
  intros Htop Hbottom HA HB Htot HinA HinB.
  pose proof Htop as Hf. apply findPiece_Some in Hf as (_ & Hid & _).
  assert (Hmerge : mergePdfs (Ipc.toUint8Array (pdfBuffer topPiece))
                             (Ipc.toUint8Array (pdfBuffer bottomPiece))
                   = Ok (save (A ++ B))).
  { unfold Ipc.toUint8Array. apply mergePdfs_decoded; assumption. }
  assert (HAB : decode (save (A ++ B)) = Some (A ++ B)).
  { apply decode_save. pose proof (decode_nonempty _ _ HA). destruct A; [congruence|discriminate]. }
  set (mergedPiece := mergedPieceOf topPiece bottomPiece (save (A ++ B))).
  set (kept := filter (fun p => id p <> topId /\ id p <> bottomId) (pieces st)).
  set (newPieces := take topIndex kept ++ mergedPiece :: drop topIndex kept).
  assert (Hpieces : pieces (handleMergePieces topId bottomId st)
                    = recalculateNumbers newPieces (startNumber st)).
  { unfold handleMergePieces. rewrite Htop, Hbottom, Hmerge. cbv zeta.
    destruct (decide _); reflexivity. }
  rewrite Hpieces.
  pose proof (recalculateNumbers_same newPieces (startNumber st)) as Hsame.
  assert (Hin : mergedPiece ∈ newPieces).
  { unfold newPieces. apply elem_of_app. right. apply elem_of_cons. left. reflexivity. }
  apply list_elem_of_lookup_1 in Hin as [i Hi].
  destruct (Forall2_lookup_l _ _ _ _ _ Hsame Hi) as (merged & Hm & Sm).
  destruct Sm as (Sid & _ & _ & Sbuf & _ & Spl).
  cbn [mergedPiece mergedPieceOf id pdfBuffer placements] in Sid, Sbuf, Spl.
  apply Forall2_app_inv_l in Spl as (fromTop & fromBottom & Stop & Sbottom & Heq).
  exists merged, fromTop, fromBottom.
  split; [exact (list_elem_of_lookup_2 _ _ _ Hm)|].
  split; [rewrite Sid; exact Hid|].
  split; [rewrite Sbuf; exact HAB|].
  split; [exact Heq|]. split.
  - eapply Forall2_impl_l; [exact HinA | exact Stop |].
    intros pl pl' Hlt (Hpi & Hx & Hy). cbn beta in Hlt.
    split; [exact Hx|]. split; [exact Hy|].
    rewrite Hpi. apply pageAt_app_l. exact Hlt.
  - apply (proj1 (Forall2_fmap_l _ _ _ _)) in Sbottom.
    eapply Forall2_impl_l; [exact HinB | exact Sbottom |].
    intros pl pl' Hge Hs. unfold compose, samePlacementButNumber in Hs.
    destruct Hs as (Hpi & Hx & Hy). cbn beta in Hge. cbn in Hpi, Hx, Hy.
    split; [exact Hx|]. split; [exact Hy|].
    rewrite Hpi, Htot. apply pageAt_app_r. exact Hge.
Qed.

Lemma handleMergePieces_keeps_stamps_witness :
  exists merged,
    merged ∈ pieces (handleMergePieces "a" "b" exampleState)
    /\ id merged = "a"
    /\ decode (pdfBuffer merged) = Some ([defaultPage] ++ [defaultPage]).
Proof.
  destruct (handleMergePieces_keeps_stamps "a" "b" exampleState 0 1
              (examplePiece "a" [examplePlacement 1])
              (examplePiece "b" [examplePlacement 2])
              [defaultPage] [defaultPage] eq_refl eq_refl eq_refl eq_refl eq_refl)
    as (merged & fromTop & fromBottom & H1 & H2 & H3 & _).
  - repeat constructor.
  - repeat constructor. cbn. lia.
  - exists merged. repeat split; assumption.
Defined.

Lemma stamp_numbers_by_position (ps : list PieceDocument) (start : Z) :
  Forall (fun p => length (placements p) = 1%nat) ps ->
  concat (numbersOf ps) = seqZ start (Z.of_nat (length (concat (placements <$> ps)))) ->
  forall (i : nat) (p : PieceDocument),
    ps !! i = Some p -> number <$> placements p = [start + Z.of_nat i].
Proof.
  intros Hone. revert start. induction Hone as [|p0 rest H0 Hrest IH]; intros start Hnum i p Hi.
  - discriminate Hi.
  - unfold numbersOf in *. rewrite !fmap_cons, !concat_cons, length_app, Nat2Z.inj_add in Hnum.
    rewrite seqZ_app in Hnum by lia.
    apply app_inj_1 in Hnum as [H1 H2]; [|rewrite length_fmap, length_seqZ; lia].
    rewrite H0 in H1, H2.
    destruct i as [|i].
    + injection Hi as <-. rewrite H1.
      replace (start + Z.of_nat 0) with start by lia. reflexivity.
    + cbn in Hi. rewrite (IH _ H2 i p Hi). f_equal. lia.
Qed.

(** X29.  The number in the name of an exported file is the number in its
    stamp when every piece carries exactly one stamp: in a well-numbered
    state, the piece number [startNumber + index] that the export passes
    for each piece is the number of the piece's placement. *)
Theorem exportPieces_number_is_stamp_number (st : AppState) :
  wellNumbered st ->
  Forall (fun p => length (placements p) = 1%nat) (pieces st) ->
  Forall (fun ep => number <$> piecePlacements ep = [pieceNumber ep]) (exportPieces st).
Proof.
  intros [Hnum _] Hone. apply Forall_lookup. intros i ep Hep.
  unfold exportPieces in Hep. rewrite list_lookup_imap in Hep.
  destruct (pieces st !! i) as [p|] eqn:Hp; [|discriminate Hep].
  injection Hep as <-. cbn [piecePlacements pieceNumber].
  exact (stamp_numbers_by_position _ _ Hone Hnum i p Hp).
Qed.

Lemma exportPieces_number_is_stamp_number_witness :
  Forall (fun ep => number <$> piecePlacements ep = [pieceNumber ep])
         (exportPieces exampleState).
Proof.
  apply (exportPieces_number_is_stamp_number exampleState).
  - split; reflexivity.
  - repeat constructor.
Defined.

Lemma suffixLoop_spec (existsSync : ExportFolder -> bool) (fuel : nat) (suffix : Z) :
  Z.of_nat fuel = 1000 - suffix ->
  let s := suffixLoop existsSync fuel suffix in
  suffix <= s <= 1000
  /\ (forall k, suffix <= k < s -> existsSync (DatedSuffix k) = true)
  /\ (s < 1000 -> existsSync (DatedSuffix s) = false).
Proof.
  revert suffix. induction fuel as [|fuel IH]; intros suffix Hfuel; cbn [suffixLoop].
  - cbv zeta. split; [lia|]. split; intros; lia.
  - destruct (existsSync (DatedSuffix suffix)) eqn:Hex; cbn [andb].
    + rewrite bool_decide_eq_true_2 by lia.
      destruct (IH (suffix + 1) ltac:(lia)) as (Hr & Hall & Hfree). cbv zeta.
      split; [lia|]. split; [|exact Hfree].
      intros k Hk. destruct (decide (k = suffix)) as [->|Hne]; [exact Hex|].
      apply Hall. lia.
    + cbv zeta. split; [lia|]. split; [intros; lia | intros _; exact Hex].
Qed.

(** X30.  The export folder is fresh.  The folder chosen by the export does
    not exist yet, except when the dated folder and all its variants with
    suffixes 2 to 999 exist: then the suffix 1000 is taken without being
    probed.  A suffix is used only if the dated folder exists, it lies
    between 2 and 1000, and every smaller suffix from 2 on is taken. *)
Theorem finalDirOf_fresh (existsSync : ExportFolder -> bool) :
  (existsSync (finalDirOf existsSync) = false
   \/ (finalDirOf existsSync = DatedSuffix 1000
       /\ forall k, 2 <= k < 1000 -> existsSync (DatedSuffix k) = true))
  /\ (forall s, finalDirOf existsSync = DatedSuffix s ->
        existsSync Dated = true /\ 2 <= s <= 1000
        /\ forall k, 2 <= k < s -> existsSync (DatedSuffix k) = true).
Proof.
  unfold finalDirOf.
  destruct (suffixLoop_spec existsSync (Z.to_nat (1000 - 2)) 2 ltac:(lia))
    as (Hr & Hall & Hfree). cbv zeta in Hr, Hall, Hfree.
  destruct (existsSync Dated) eqn:Hd.
  - split.
    + destruct (decide (suffixLoop existsSync (Z.to_nat (1000 - 2)) 2 < 1000)) as [Hlt|Hge].
      * left. apply Hfree, Hlt.
      * right. assert (Hs : suffixLoop existsSync (Z.to_nat (1000 - 2)) 2 = 1000) by lia.
        rewrite Hs in *. split; [reflexivity | exact Hall].
    + intros s [= <-]. split; [reflexivity|]. split; [exact Hr | exact Hall].
  - split; [left; exact Hd|]. intros s Hs. discriminate Hs.
Qed.

Lemma finalDirOf_fresh_witness :
  exampleFolders Dated = true /\ 2 <= 3 <= 1000
  /\ forall k, 2 <= k < 3 -> exampleFolders (DatedSuffix k) = true.
Proof.
  apply (proj2 (finalDirOf_fresh exampleFolders) 3). vm_compute. reflexivity.
Defined.

End PieceHandlers.
